(** * A shallow embedding of the MPEG-2 TS demuxer of hls.js (HEVC fork)

    The development follows [src/demux/tsdemuxer.js] and
    [src/demux/hevc-sps-parser.js].  Typed arrays are lists of integers,
    an absent array element or object property ([undefined]) is [None],
    JavaScript's 32-bit operators are written out on [Z], and the
    exceptions the code can raise are an explicit outcome. *)

From stdpp Require Import base list strings gmap pretty.
From Stdlib Require Import ZArith QArith Qabs Lia.
Local Open Scope Z_scope.

(** ** JavaScript preliminaries *)

(** The exceptions raised by the modelled code. *)
Inductive exn : Type :=
  | ReferenceError (name : string)      (* read or write of an unbound identifier *)
  | TypeError (what : string)           (* property access on undefined / null   *)
  | RangeError (what : string).         (* typed-array length or offset          *)

(** Result of a call: a returned value or a thrown exception. *)
Inductive outcome (A : Type) : Type :=
  | Returned (a : A)
  | Thrown (e : exn).
Arguments Returned {A} a.
Arguments Thrown {A} e.

(** [a[i]] on a typed array: [None] is [undefined]. *)
Definition elem (a : list Z) (i : Z) : option Z :=
  if i <? 0 then None else a !! Z.to_nat i.

(** ToInt32 of an array element: [undefined] converts to 0. *)
Definition int_of (v : option Z) : Z :=
  match v with Some z => z | None => 0 end.

(** ToInt32 on integers. *)
Definition to_int32 (z : Z) : Z := (z + 2 ^ 31) mod 2 ^ 32 - 2 ^ 31.

(** [a << b], [a >> b], [a | b] and [a & b] on integer operands. *)
Definition js_shl (a b : Z) : Z := to_int32 (Z.shiftl (to_int32 a) (b mod 32)).
Definition js_sar (a b : Z) : Z := Z.shiftr (to_int32 a) (b mod 32).
Definition js_or (a b : Z) : Z := Z.lor (to_int32 a) (to_int32 b).
Definition js_and (a b : Z) : Z := Z.land (to_int32 a) (to_int32 b).

(** JavaScript numbers that may be [NaN] (ToNumber of [undefined]). *)
Inductive jsnum : Type :=
  | NaN
  | Int (z : Z).

Definition num_of (v : option Z) : jsnum :=
  match v with Some z => Int z | None => NaN end.

Definition num_add (a b : jsnum) : jsnum :=
  match a, b with Int x, Int y => Int (x + y) | _, _ => NaN end.

Definition num_sub (a b : jsnum) : jsnum :=
  match a, b with Int x, Int y => Int (x - y) | _, _ => NaN end.

(** ToBoolean: 0 and [NaN] are false. *)
Definition truthy (a : jsnum) : bool :=
  match a with Int z => negb (z =? 0) | NaN => false end.

(** [a === b] on numbers: [NaN] equals nothing. *)
Definition num_eq (a b : jsnum) : bool :=
  match a, b with Int x, Int y => x =? y | _, _ => false end.

(** [a > b]: false when either side is [NaN]. *)
Definition num_gt (a b : jsnum) : bool :=
  match a, b with Int x, Int y => y <? x | _, _ => false end.

(** [new Uint8Array(n)] *)
Definition new_Uint8Array (n : jsnum) : outcome (list Z) :=
  match n with
  | NaN => Returned []
  | Int z =>
      if z <? 0 then Thrown (RangeError "Invalid typed array length")
      else Returned (replicate (Z.to_nat z) 0)
  end.

(** [dst.set(src, i)] *)
Definition typed_set (dst src : list Z) (i : nat) : outcome (list Z) :=
  if bool_decide (i + length src <= length dst)%nat
  then Returned (take i dst ++ src ++ drop (i + length src) dst)
  else Thrown (RangeError "offset is out of bounds").

(** [a.subarray(b, e)]: relative indices are clamped to the array, a
    [NaN] index is 0. *)
Definition rel_index (len : Z) (v : jsnum) : Z :=
  match v with
  | NaN => 0
  | Int z => if z <? 0 then Z.max (len + z) 0 else Z.min z len
  end.

Definition subarray (a : list Z) (b e : jsnum) : list Z :=
  let len := Z.of_nat (length a) in
  let bi := rel_index len b in
  let ei := rel_index len e in
  take (Z.to_nat (ei - bi)) (drop (Z.to_nat bi) a).

(** [arr.splice(pos, 0, x)] *)
Definition splice_in {A} (pos : nat) (x : A) (arr : list A) : list A :=
  take pos arr ++ x :: drop pos arr.

(** ** CEA-608 samples and [_insertSampleInOrder] *)

(** [{type, pts, bytes}] as built in the SEI branch of [_parseAVCPES]. *)
Record Cea608Sample : Type := mkCea608 {
  cc_type : Z;
  cc_pts : Z;
  cc_bytes : list Z
}.

(** The [for (pos = len - 1; pos >= 0; pos--)] loop; the argument is
    [pos + 1].  [arr !! pos] is always defined there. *)
Fixpoint insertSample_scan (arr : list Cea608Sample) (data : Cea608Sample)
    (pos1 : nat) : list Cea608Sample :=
  match pos1 with
  | O => arr
  | S pos =>
      match arr !! pos with
      | Some s =>
          if cc_pts data <? cc_pts s
          then splice_in pos data arr               (* splice, break *)
          else insertSample_scan arr data pos
      | None => arr
      end
  end.

Definition _insertSampleInOrder (arr : list Cea608Sample) (data : Cea608Sample)
    : list Cea608Sample :=
  let len := length arr in
  match arr !! (len - 1)%nat with
  | Some lst =>                                     (* len > 0 *)
      if cc_pts lst <=? cc_pts data                 (* data.pts >= arr[len-1].pts *)
      then arr ++ [data]
      else insertSample_scan arr data len
  | None => arr ++ [data]                           (* len = 0 *)
  end.

(** Non-decreasing PTS order of a text track. *)
Definition pts_sorted (arr : list Cea608Sample) : Prop :=
  forall (i j : nat) (a b : Cea608Sample),
    (i <= j)%nat -> arr !! i = Some a -> arr !! j = Some b -> cc_pts a <= cc_pts b.

Fixpoint pts_sortedb (arr : list Cea608Sample) : bool :=
  match arr with
  | a :: ((b :: _) as r) => (cc_pts a <=? cc_pts b) && pts_sortedb r
  | _ => true
  end.

(** ** [discardEPB] *)

(** The search loop [while (i < length - 2)]; the result is
    [EPBPositions] in push order.  Every turn advances [i], so
    [length data] turns are enough. *)
Fixpoint discardEPB_scan (fuel : nat) (data : list Z) (i : nat) : list nat :=
  match fuel with
  | O => []
  | S fuel' =>
      if bool_decide (i + 2 < length data)%nat then
        if bool_decide (data !! i = Some 0) &&
           bool_decide (data !! (i + 1)%nat = Some 0) &&
           bool_decide (data !! (i + 2)%nat = Some 3)
        then (i + 2)%nat :: discardEPB_scan fuel' data (i + 2)
        else discardEPB_scan fuel' data (i + 1)
      else []
  end.

(** The copy loop [for (i = 0; i < newLength; sourceIndex++, i++)]: the
    bytes written to [newData[0 .. newLength-1]], in order. *)
Fixpoint discardEPB_copy (newLength : nat) (data : list Z)
    (EPBPositions : list nat) (sourceIndex : nat) : list Z :=
  match newLength with
  | O => []
  | S n =>
      if bool_decide (head EPBPositions = Some sourceIndex)
      then int_of (data !! S sourceIndex)
             :: discardEPB_copy n data (tail EPBPositions) (S (S sourceIndex))
      else int_of (data !! sourceIndex)
             :: discardEPB_copy n data EPBPositions (S sourceIndex)
  end.

Definition discardEPB (data : list Z) : list Z :=
  let EPBPositions := discardEPB_scan (length data) data 1 in
  match EPBPositions with
  | [] => data
  | _ => discardEPB_copy (length data - length EPBPositions) data EPBPositions 0
  end.

(** Removal of the 0x03 of every 0x00 0x00 0x03 triple, left to right. *)
Fixpoint strip_epb (l : list Z) : list Z :=
  match l with
  | [] => []
  | a :: l1 =>
      match l1 with
      | b :: c :: r =>
          if (a =? 0) && (b =? 0) && (c =? 3)
          then a :: b :: strip_epb r
          else a :: strip_epb l1
      | _ => a :: strip_epb l1
      end
  end.

(** A 0x00 0x00 0x03 triple begins at offset [k] of [l]. *)
Definition epb_at (l : list Z) (k : nat) : Prop :=
  l !! k = Some 0 /\ l !! (k + 1)%nat = Some 0 /\ l !! (k + 2)%nat = Some 3.

(** ** [HEVCSpsParser]: the bit reader of [hevc-sps-parser.js] *)

Record HEVCSpsParser : Type := mkHEVCSpsParser {
  sps_data : list Z;          (* this.data *)
  bytesAvailable : nat;       (* bytes of [data] left to examine *)
  bitsAvailable : nat;
  firstByte : Z;
  cache : Z;
  bitsInCache : Z
}.

(** [constructor(data)] *)
Definition HEVCSpsParser_new (data : list Z) : HEVCSpsParser :=
  {| sps_data := data;
     bytesAvailable := length data;
     bitsAvailable := 0;
     firstByte := 0xff;
     cache := 0xff;
     bitsInCache := 0 |}.

(** [getByte()]: a one-byte array of zeros, overwritten by the at most one
    byte left of the input. *)
Definition getByte (p : HEVCSpsParser) : Z * HEVCSpsParser :=
  let position := (length (sps_data p) - bytesAvailable p)%nat in
  let availableBytes := Nat.min 1 (bytesAvailable p) in
  let byte := take 1 (subarray (sps_data p) (Int (Z.of_nat position))
                        (Int (Z.of_nat (position + availableBytes))) ++ [0]) in
  (int_of (byte !! 0%nat),
   {| sps_data := sps_data p;
      bytesAvailable := bytesAvailable p - availableBytes;
      bitsAvailable := availableBytes * 8;
      firstByte := firstByte p;
      cache := cache p;
      bitsInCache := bitsInCache p |}).

(** One turn of the loop of [read]. *)
Definition read_step (p : HEVCSpsParser) : HEVCSpsParser :=
  let '(byte, p1) := getByte p in
  let '(byte, p2) :=
    if (byte =? 0x03) && (firstByte p1 =? 0x00) && (js_and (cache p1) 0xff =? 0)
    then getByte p1
    else (byte, p1) in
  {| sps_data := sps_data p2;
     bytesAvailable := bytesAvailable p2;
     bitsAvailable := bitsAvailable p2;
     firstByte := byte;
     cache := js_or (js_shl (cache p2) 8) (firstByte p2);
     bitsInCache := bitsInCache p2 + 8 |}.

Fixpoint read_loop (fuel : nat) (nbits : Z) (p : HEVCSpsParser) : HEVCSpsParser :=
  match fuel with
  | O => p
  | S fuel' =>
      if bitsInCache p <? nbits then read_loop fuel' nbits (read_step p) else p
  end.

(** [read(nbits)]: [while (this.bitsInCache < nbits)]; every turn adds 8
    to [bitsInCache], which bounds the number of turns. *)
Definition read (nbits : Z) (p : HEVCSpsParser) : HEVCSpsParser :=
  read_loop (Z.to_nat ((nbits - bitsInCache p + 7) / 8)) nbits p.

Definition set_bitsInCache (v : Z) (p : HEVCSpsParser) : HEVCSpsParser :=
  {| sps_data := sps_data p;
     bytesAvailable := bytesAvailable p;
     bitsAvailable := bitsAvailable p;
     firstByte := firstByte p;
     cache := cache p;
     bitsInCache := v |}.

(** [skipBits(nbits)] *)
Definition skipBits (nbits : Z) (p : HEVCSpsParser) : HEVCSpsParser :=
  let p := read nbits p in
  set_bitsInCache (bitsInCache p - nbits) p.

(** [readBits(nbits)] *)
Definition readBits (nbits : Z) (p : HEVCSpsParser) : Z * HEVCSpsParser :=
  let p := read nbits p in
  let shift := bitsInCache p - nbits in
  let val := js_sar (firstByte p) shift in
  let val := js_or val (js_shl (cache p) (8 - shift)) in
  let val := js_and val (js_shl 1 nbits - 1) in
  (val, set_bitsInCache shift p).

(** A call on the reader, and a run of calls with the values returned
    ([skipBits] returns nothing). *)
Inductive reader_call : Type :=
  | ReadBits (nbits : Z)
  | SkipBits (nbits : Z).

Fixpoint run_calls (cs : list reader_call) (p : HEVCSpsParser)
    : list (option Z) * HEVCSpsParser :=
  match cs with
  | [] => ([], p)
  | ReadBits n :: cs' =>
      let '(v, p1) := readBits n p in
      let '(vs, p2) := run_calls cs' p1 in (Some v :: vs, p2)
  | SkipBits n :: cs' =>
      let '(vs, p2) := run_calls cs' (skipBits n p) in (None :: vs, p2)
  end.

(** ** PES reassembly: [_parsePES] *)

(** A per-PID accumulator [{data: [...], size}] and a parsed PES
    [{data, pts, dts, len}]. *)
Record PesStream : Type := mkPesStream {
  stream_data : list (list Z);
  stream_size : jsnum
}.

Record Pes : Type := mkPes {
  pes_data : list Z;
  pes_pts : option Z;
  pes_dts : option Z;
  pes_len : jsnum
}.

(** [while (data[0].length < 19 && data.length > 1)]: merge the head
    slice with its successor. *)
Fixpoint merge_head (frag : list Z) (rest : list (list Z)) : list Z * list (list Z) :=
  match rest with
  | [] => (frag, [])
  | next :: rest' =>
      if (length frag <? 19)%nat then merge_head (frag ++ next) rest' else (frag, rest)
  end.

(** The 33-bit timestamp whose first byte is [frag[o]], with the wrap of
    values above 2^32 - 1. *)
Definition read_timestamp (frag : list Z) (o : Z) : Z :=
  let t := js_and (int_of (elem frag o)) 0x0E * 536870912
         + js_and (int_of (elem frag (o + 1))) 0xFF * 4194304
         + js_and (int_of (elem frag (o + 2))) 0xFE * 16384
         + js_and (int_of (elem frag (o + 3))) 0xFF * 128
         + js_and (int_of (elem frag (o + 4))) 0xFE / 2 in
  if 4294967295 <? t then t - 8589934592 else t.

(** The [if (pesFlags & 0xC0)] block: PTS and DTS of the header in
    [frag], both [undefined] without the flags. *)
Definition pes_timestamps (frag : list Z) : option Z * option Z :=
  let pesFlags := int_of (elem frag 7) in
  if negb (js_and pesFlags 0xC0 =? 0) then
    let pts := read_timestamp frag 9 in
    if negb (js_and pesFlags 0x40 =? 0) then
      let dts := read_timestamp frag 14 in
      if 60 * 90000 <? pts - dts then (Some dts, Some dts) else (Some pts, Some dts)
    else (Some pts, Some pts)
  else (None, None).

(** The reassembly loop over the slices; [i] is the write index.  A
    slice wholly inside the PES header is skipped, the slice the header
    ends in is trimmed, the others are copied. *)
Fixpoint pes_reassemble (frags : list (list Z)) (payloadStartOffset : jsnum)
    (pesData : list Z) (i : nat) : outcome (list Z) :=
  match frags with
  | [] => Returned pesData
  | frag :: rest =>
      let len := Z.of_nat (length frag) in
      match payloadStartOffset with
      | Int p =>
          if p =? 0 then
            match typed_set pesData frag i with
            | Returned d => pes_reassemble rest payloadStartOffset d (i + length frag)
            | Thrown e => Thrown e
            end
          else if len <? p then
            pes_reassemble rest (Int (p - len)) pesData i
          else
            let frag' := subarray frag payloadStartOffset (Int len) in
            match typed_set pesData frag' i with
            | Returned d => pes_reassemble rest (Int 0) d (i + Z.to_nat (len - p))
            | Thrown e => Thrown e
            end
      | NaN =>
          match typed_set pesData frag i with
          | Returned d => pes_reassemble rest payloadStartOffset d (i + length frag)
          | Thrown e => Thrown e
          end
      end
  end.

(** [_parsePES(stream)]; [null] is [None].  The merge loop rewrites
    [stream.data] in place and [stream.size] is reduced by the header:
    the callers drop the accumulator after the call. *)
Definition _parsePES (stream : PesStream) : outcome (option Pes) :=
  if num_eq (stream_size stream) (Int 0) then Returned None else
  match stream_data stream with
  | [] => Thrown (TypeError "data[0] is undefined")
  | d0 :: ds =>
      let '(frag, rest) := merge_head d0 ds in
      let pesPrefix :=
        num_add (Int (js_shl (int_of (elem frag 0)) 16 + js_shl (int_of (elem frag 1)) 8))
                (num_of (elem frag 2)) in
      match pesPrefix with
      | Int 1 =>
          let pesLen := num_add (Int (js_shl (int_of (elem frag 4)) 8)) (num_of (elem frag 5)) in
          if truthy pesLen && num_gt pesLen (num_sub (stream_size stream) (Int 6))
          then Returned None
          else
            let '(pesPts, pesDts) := pes_timestamps frag in
            let pesHdrLen := num_of (elem frag 8) in
            let payloadStartOffset := num_add pesHdrLen (Int 9) in
            let size := num_sub (stream_size stream) payloadStartOffset in
            match new_Uint8Array size with
            | Thrown e => Thrown e
            | Returned pesData =>
                match pes_reassemble (frag :: rest) payloadStartOffset pesData 0 with
                | Thrown e => Thrown e
                | Returned pesData =>
                    let pesLen :=
                      if truthy pesLen then num_sub pesLen (num_add pesHdrLen (Int 3))
                      else pesLen in
                    Returned (Some (mkPes pesData pesPts pesDts pesLen))
                end
            end
      | _ => Returned None
      end
  end.

(** ** PAT and PMT *)

(** [a[i]] for an index that may be [NaN]. *)
Definition elem_at (a : list Z) (i : jsnum) : option Z :=
  match i with Int z => elem a z | NaN => None end.

(** [(data[o] & mask) << 8 | data[o + 1]] *)
Definition field16 (data : list Z) (o : jsnum) (mask : Z) : Z :=
  js_or (js_shl (js_and (int_of (elem_at data o)) mask) 8)
        (int_of (elem_at data (num_add o (Int 1)))).

(** [a < b]: false when either side is [NaN]. *)
Definition num_lt (a b : jsnum) : bool := num_gt b a.

Definition _parsePAT (data : list Z) (offset : jsnum) : Z :=
  field16 data (num_add offset (Int 10)) 0x1F.

(** The object [result] of [_parsePMT].  The literal creates [aac],
    [videoPID], [videoStreamType] and [id3]; [audio] is a property the
    AAC branch reads and writes, absent ([None]) until written. *)
Record PmtResult : Type := mkPmtResult {
  pmt_aac : Z;
  pmt_videoPID : Z;
  pmt_videoStreamType : Z;
  pmt_id3 : Z;
  pmt_audio : option Z
}.

(** One turn of [while (offset < tableEnd)]: the [switch (streamType)]. *)
Definition parsePMT_entry (data : list Z) (offset : jsnum) (result : PmtResult)
    : PmtResult :=
  let pid := field16 data (num_add offset (Int 1)) 0x1F in
  let streamType := elem_at data offset in
  if bool_decide (streamType = Some 0x0f) then
    (* if (result.audio === -1) result.audio = pid *)
    if bool_decide (pmt_audio result = Some (-1))
    then mkPmtResult (pmt_aac result) (pmt_videoPID result)
           (pmt_videoStreamType result) (pmt_id3 result) (Some pid)
    else result
  else if bool_decide (streamType = Some 0x15) then
    if pmt_id3 result =? -1
    then mkPmtResult (pmt_aac result) (pmt_videoPID result)
           (pmt_videoStreamType result) pid (pmt_audio result)
    else result
  else if bool_decide (streamType = Some 0x24) || bool_decide (streamType = Some 0x1b) then
    if pmt_videoPID result =? -1
    then mkPmtResult (pmt_aac result) pid (int_of streamType)
           (pmt_id3 result) (pmt_audio result)
    else result
  else result.                               (* logger.log('unkown stream type') *)

Fixpoint parsePMT_loop (fuel : nat) (data : list Z) (offset tableEnd : jsnum)
    (result : PmtResult) : PmtResult :=
  match fuel with
  | O => result
  | S fuel' =>
      if num_lt offset tableEnd then
        let result := parsePMT_entry data offset result in
        let offset :=
          num_add offset (Int (field16 data (num_add offset (Int 3)) 0x0F + 5)) in
        parsePMT_loop fuel' data offset tableEnd result
      else result
  end.

(** [_parsePMT(data, offset)].  Every turn of the loop advances [offset]
    by at least 5 on byte data, so [tableEnd - offset] turns suffice. *)
Definition _parsePMT (data : list Z) (offset : jsnum) : PmtResult :=
  let result := mkPmtResult (-1) (-1) (-1) (-1) None in
  let sectionLength := field16 data (num_add offset (Int 1)) 0x0f in
  let tableEnd := num_sub (num_add (num_add offset (Int 3)) (Int sectionLength)) (Int 4) in
  let programInfoLength := field16 data (num_add offset (Int 10)) 0x0f in
  let offset := num_add offset (Int (12 + programInfoLength)) in
  let fuel := match offset, tableEnd with
              | Int o, Int e => Z.to_nat (e - o)
              | _, _ => O
              end in
  parsePMT_loop fuel data offset tableEnd result.

(** ** Tracks and demuxer state *)

(** A NAL unit [{data, type, state}]; [state] is set on the unit left
    open at the end of a PES only. *)
Record NalUnit : Type := mkNalUnit {
  nal_data : list Z;
  nal_type : option Z;
  nal_state : option Z
}.

(** A video sample as pushed by [_parseHEVCPES]:
    [{units: {units, length}, pts, dts, key}]. *)
Record VideoSample : Type := mkVideoSample {
  vs_units : list NalUnit;
  vs_units_length : Z;
  vs_pts : option Z;
  vs_dts : option Z;
  vs_key : bool
}.

(** An audio sample [{unit, pts, dts}] as appended by the ADTS module;
    its timestamps carry fractions of a tick (exact rationals here). *)
Record AudioSample : Type := mkAudioSample {
  as_unit : list Z;
  as_pts : Q;
  as_dts : Q
}.

(** The track objects of [resetInitSegment], with the properties the
    modelled methods read or write.  A property a literal does not
    create is [None] until some method writes it. *)
Record Track (S : Type) : Type := mkTrack {
  trk_container : option string;
  trk_type : string;
  trk_id : option Z;
  trk_streamType : option Z;
  trk_PID : option Z;
  trk_sequenceNumber : Z;
  trk_samples : list S;
  trk_len : Z;
  trk_nbNalu : option Z;
  trk_dropped : option Z;
  trk_codec : option string;
  trk_samplerate : option Z;
  trk_naluState : option Z
}.
Arguments trk_container {S} _.
Arguments trk_type {S} _.
Arguments trk_id {S} _.
Arguments trk_streamType {S} _.
Arguments trk_PID {S} _.
Arguments trk_sequenceNumber {S} _.
Arguments trk_samples {S} _.
Arguments trk_len {S} _.
Arguments trk_nbNalu {S} _.
Arguments trk_dropped {S} _.
Arguments trk_codec {S} _.
Arguments trk_samplerate {S} _.
Arguments trk_naluState {S} _.
Arguments mkTrack {S}.

Definition set_trk_id {S} (v : option Z) (t : Track S) : Track S :=
  mkTrack (trk_container t) (trk_type t) v (trk_streamType t) (trk_PID t)
    (trk_sequenceNumber t) (trk_samples t) (trk_len t) (trk_nbNalu t) (trk_dropped t)
    (trk_codec t) (trk_samplerate t) (trk_naluState t) .
Definition set_trk_streamType {S} (v : option Z) (t : Track S) : Track S :=
  mkTrack (trk_container t) (trk_type t) (trk_id t) v (trk_PID t) (trk_sequenceNumber t)
    (trk_samples t) (trk_len t) (trk_nbNalu t) (trk_dropped t) (trk_codec t)
    (trk_samplerate t) (trk_naluState t) .
Definition set_trk_PID {S} (v : option Z) (t : Track S) : Track S :=
  mkTrack (trk_container t) (trk_type t) (trk_id t) (trk_streamType t) v
    (trk_sequenceNumber t) (trk_samples t) (trk_len t) (trk_nbNalu t) (trk_dropped t)
    (trk_codec t) (trk_samplerate t) (trk_naluState t) .
Definition set_trk_samples {S} (v : list S) (t : Track S) : Track S :=
  mkTrack (trk_container t) (trk_type t) (trk_id t) (trk_streamType t) (trk_PID t)
    (trk_sequenceNumber t) v (trk_len t) (trk_nbNalu t) (trk_dropped t) (trk_codec t)
    (trk_samplerate t) (trk_naluState t) .
Definition set_trk_len {S} (v : Z) (t : Track S) : Track S :=
  mkTrack (trk_container t) (trk_type t) (trk_id t) (trk_streamType t) (trk_PID t)
    (trk_sequenceNumber t) (trk_samples t) v (trk_nbNalu t) (trk_dropped t)
    (trk_codec t) (trk_samplerate t) (trk_naluState t) .
Definition set_trk_naluState {S} (v : option Z) (t : Track S) : Track S :=
  mkTrack (trk_container t) (trk_type t) (trk_id t) (trk_streamType t) (trk_PID t)
    (trk_sequenceNumber t) (trk_samples t) (trk_len t) (trk_nbNalu t) (trk_dropped t)
    (trk_codec t) (trk_samplerate t) v.

(** Values of the host environment: what an identifier that no scope of
    the module declares may be bound to on the global object. *)
Inductive JSVal : Type :=
  | VUndefined
  | VNull
  | VBool (b : bool)
  | VNum (n : jsnum)
  | VStr (s : string)
  | VStream (s : PesStream)      (* an accumulator [{data, size}] *)
  | VObject.                     (* any other object *)

Definition val_truthy (v : JSVal) : bool :=
  match v with
  | VUndefined | VNull => false
  | VBool b => b
  | VNum n => truthy n
  | VStr s => negb (bool_decide (s = ""))
  | VStream _ | VObject => true
  end.

(** The constant table [RemuxerTrackIdConfig]. *)
Definition RemuxerTrackIdConfig : gmap string Z :=
  {[ "video" := 0; "audio" := 1; "id3" := 2; "text" := 3 ]}.

(** The object returned by the static [createTrack(type, duration)]. *)
Record CreatedTrack : Type := mkCreatedTrack {
  ct_container : option string;
  ct_type : string;
  ct_id : option Z;
  ct_pid : Z;
  ct_inputTimeScale : Z;
  ct_sequenceNumber : Z;
  ct_samples : list JSVal;
  ct_len : Z;
  ct_dropped : option Z;
  ct_isAAC : option bool;
  ct_duration : option Z
}.

Definition createTrack (type : string) (duration : Z) : CreatedTrack :=
  {| ct_container :=
       if bool_decide (type = "video") || bool_decide (type = "audio")
       then Some "video/mp2t" else None;
     ct_type := type;
     ct_id := RemuxerTrackIdConfig !! type;
     ct_pid := -1;
     ct_inputTimeScale := 90000;
     ct_sequenceNumber := 0;
     ct_samples := [];
     ct_len := 0;
     ct_dropped := if bool_decide (type = "video") then Some 0 else None;
     ct_isAAC := if bool_decide (type = "audio") then Some true else None;
     ct_duration := if bool_decide (type = "audio") then Some duration else None |}.

(** The payload of [observer.trigger(Event.ERROR, {type, details, fatal,
    reason})]; the constants of the [errors] module are tags. *)
Inductive ErrorType : Type := MEDIA_ERROR.
Inductive ErrorDetail : Type := FRAG_PARSING_ERROR.

Record ErrorData : Type := mkErrorData {
  err_type : ErrorType;
  err_details : ErrorDetail;
  err_fatal : bool;
  err_reason : string
}.

Inductive ObserverEvent : Type :=
  | ERROR (data : ErrorData).

(** Calls received by the remuxer: the final [remux] of [push] and the
    codecs-only [remux(level, sn, data)]. *)
Inductive RemuxCall : Type :=
  | RemuxFragment (audioTrack avcTrack id3Track : JSVal)
      (txtTrack : option (Track Cea608Sample))
      (timeOffset : Z) (contiguous accurateTimeOffset : JSVal)
  | RemuxCodecs (level sn : Z)
      (aacTrack : option (Track AudioSample))
      (videoTrack : option (Track VideoSample))
      (id3Track : option (Track Pes))
      (txtTrack : option (Track Cea608Sample))
      (contiguous : option JSVal) (data : list Z).

Record Remuxer : Type := mkRemuxer {
  passthrough : bool;
  remux_calls : list RemuxCall
}.

(** The fields of [this]. *)
Record Demuxer : Type := mkDemuxer {
  observer : list ObserverEvent;   (* events handed to [observer.trigger], oldest first *)
  remuxer : option Remuxer;   (* [this.remuxer] *)
  sampleAes : bool;   (* [this.sampleAes] is an object (neither undefined nor null) *)
  contiguous : option JSVal;   (* [this.contiguous] *)
  pmtParsed : option bool;
  _pmtId : option Z;
  _videoTrack : option (Track VideoSample);
  _aacTrack : option (Track AudioSample);
  _id3Track : option (Track Pes);
  _txtTrack : option (Track Cea608Sample);
  aacOverFlow : option (list Z);
  aacLastPTS : option Q;
  avcSample : option VideoSample;
  audioCodec : option string;
  videoCodec : option string;
  _duration : option Z;
  (* read by the NAL scanners; no method stores a track there *)
  _avcTrack : option (Track VideoSample);
  (* read by the audio parsers; no method stores a track there *)
  _audioTrack : option (Track AudioSample);
  avcNaluState : option Z   (* read by [_parseHEVCNALu]; assigned only there *)
}.

(** Field updates [this.f = v]. *)
Definition set_observer (v : list ObserverEvent) (d : Demuxer) : Demuxer :=
  mkDemuxer v (remuxer d) (sampleAes d) (contiguous d) (pmtParsed d) (_pmtId d)
    (_videoTrack d) (_aacTrack d) (_id3Track d) (_txtTrack d) (aacOverFlow d)
    (aacLastPTS d) (avcSample d) (audioCodec d) (videoCodec d) (_duration d)
    (_avcTrack d) (_audioTrack d) (avcNaluState d) .
Definition set_remuxer (v : option Remuxer) (d : Demuxer) : Demuxer :=
  mkDemuxer (observer d) v (sampleAes d) (contiguous d) (pmtParsed d) (_pmtId d)
    (_videoTrack d) (_aacTrack d) (_id3Track d) (_txtTrack d) (aacOverFlow d)
    (aacLastPTS d) (avcSample d) (audioCodec d) (videoCodec d) (_duration d)
    (_avcTrack d) (_audioTrack d) (avcNaluState d) .
Definition set_contiguous (v : option JSVal) (d : Demuxer) : Demuxer :=
  mkDemuxer (observer d) (remuxer d) (sampleAes d) v (pmtParsed d) (_pmtId d)
    (_videoTrack d) (_aacTrack d) (_id3Track d) (_txtTrack d) (aacOverFlow d)
    (aacLastPTS d) (avcSample d) (audioCodec d) (videoCodec d) (_duration d)
    (_avcTrack d) (_audioTrack d) (avcNaluState d) .
Definition set_pmtParsed (v : option bool) (d : Demuxer) : Demuxer :=
  mkDemuxer (observer d) (remuxer d) (sampleAes d) (contiguous d) v (_pmtId d)
    (_videoTrack d) (_aacTrack d) (_id3Track d) (_txtTrack d) (aacOverFlow d)
    (aacLastPTS d) (avcSample d) (audioCodec d) (videoCodec d) (_duration d)
    (_avcTrack d) (_audioTrack d) (avcNaluState d) .
Definition set_pmtId (v : option Z) (d : Demuxer) : Demuxer :=
  mkDemuxer (observer d) (remuxer d) (sampleAes d) (contiguous d) (pmtParsed d) v
    (_videoTrack d) (_aacTrack d) (_id3Track d) (_txtTrack d) (aacOverFlow d)
    (aacLastPTS d) (avcSample d) (audioCodec d) (videoCodec d) (_duration d)
    (_avcTrack d) (_audioTrack d) (avcNaluState d) .
Definition set_videoTrack (v : option (Track VideoSample)) (d : Demuxer) : Demuxer :=
  mkDemuxer (observer d) (remuxer d) (sampleAes d) (contiguous d) (pmtParsed d)
    (_pmtId d) v (_aacTrack d) (_id3Track d) (_txtTrack d) (aacOverFlow d)
    (aacLastPTS d) (avcSample d) (audioCodec d) (videoCodec d) (_duration d)
    (_avcTrack d) (_audioTrack d) (avcNaluState d) .
Definition set_aacTrack (v : option (Track AudioSample)) (d : Demuxer) : Demuxer :=
  mkDemuxer (observer d) (remuxer d) (sampleAes d) (contiguous d) (pmtParsed d)
    (_pmtId d) (_videoTrack d) v (_id3Track d) (_txtTrack d) (aacOverFlow d)
    (aacLastPTS d) (avcSample d) (audioCodec d) (videoCodec d) (_duration d)
    (_avcTrack d) (_audioTrack d) (avcNaluState d) .
Definition set_id3Track (v : option (Track Pes)) (d : Demuxer) : Demuxer :=
  mkDemuxer (observer d) (remuxer d) (sampleAes d) (contiguous d) (pmtParsed d)
    (_pmtId d) (_videoTrack d) (_aacTrack d) v (_txtTrack d) (aacOverFlow d)
    (aacLastPTS d) (avcSample d) (audioCodec d) (videoCodec d) (_duration d)
    (_avcTrack d) (_audioTrack d) (avcNaluState d) .
Definition set_txtTrack (v : option (Track Cea608Sample)) (d : Demuxer) : Demuxer :=
  mkDemuxer (observer d) (remuxer d) (sampleAes d) (contiguous d) (pmtParsed d)
    (_pmtId d) (_videoTrack d) (_aacTrack d) (_id3Track d) v (aacOverFlow d)
    (aacLastPTS d) (avcSample d) (audioCodec d) (videoCodec d) (_duration d)
    (_avcTrack d) (_audioTrack d) (avcNaluState d) .
Definition set_aacOverFlow (v : option (list Z)) (d : Demuxer) : Demuxer :=
  mkDemuxer (observer d) (remuxer d) (sampleAes d) (contiguous d) (pmtParsed d)
    (_pmtId d) (_videoTrack d) (_aacTrack d) (_id3Track d) (_txtTrack d) v
    (aacLastPTS d) (avcSample d) (audioCodec d) (videoCodec d) (_duration d)
    (_avcTrack d) (_audioTrack d) (avcNaluState d) .
Definition set_aacLastPTS (v : option Q) (d : Demuxer) : Demuxer :=
  mkDemuxer (observer d) (remuxer d) (sampleAes d) (contiguous d) (pmtParsed d)
    (_pmtId d) (_videoTrack d) (_aacTrack d) (_id3Track d) (_txtTrack d) (aacOverFlow d)
    v (avcSample d) (audioCodec d) (videoCodec d) (_duration d) (_avcTrack d)
    (_audioTrack d) (avcNaluState d) .
Definition set_avcSample (v : option VideoSample) (d : Demuxer) : Demuxer :=
  mkDemuxer (observer d) (remuxer d) (sampleAes d) (contiguous d) (pmtParsed d)
    (_pmtId d) (_videoTrack d) (_aacTrack d) (_id3Track d) (_txtTrack d) (aacOverFlow d)
    (aacLastPTS d) v (audioCodec d) (videoCodec d) (_duration d) (_avcTrack d)
    (_audioTrack d) (avcNaluState d) .
Definition set_audioCodec (v : option string) (d : Demuxer) : Demuxer :=
  mkDemuxer (observer d) (remuxer d) (sampleAes d) (contiguous d) (pmtParsed d)
    (_pmtId d) (_videoTrack d) (_aacTrack d) (_id3Track d) (_txtTrack d) (aacOverFlow d)
    (aacLastPTS d) (avcSample d) v (videoCodec d) (_duration d) (_avcTrack d)
    (_audioTrack d) (avcNaluState d) .
Definition set_videoCodec (v : option string) (d : Demuxer) : Demuxer :=
  mkDemuxer (observer d) (remuxer d) (sampleAes d) (contiguous d) (pmtParsed d)
    (_pmtId d) (_videoTrack d) (_aacTrack d) (_id3Track d) (_txtTrack d) (aacOverFlow d)
    (aacLastPTS d) (avcSample d) (audioCodec d) v (_duration d) (_avcTrack d)
    (_audioTrack d) (avcNaluState d) .
Definition set_duration (v : option Z) (d : Demuxer) : Demuxer :=
  mkDemuxer (observer d) (remuxer d) (sampleAes d) (contiguous d) (pmtParsed d)
    (_pmtId d) (_videoTrack d) (_aacTrack d) (_id3Track d) (_txtTrack d) (aacOverFlow d)
    (aacLastPTS d) (avcSample d) (audioCodec d) (videoCodec d) v (_avcTrack d)
    (_audioTrack d) (avcNaluState d) .
Definition set_avcTrack (v : option (Track VideoSample)) (d : Demuxer) : Demuxer :=
  mkDemuxer (observer d) (remuxer d) (sampleAes d) (contiguous d) (pmtParsed d)
    (_pmtId d) (_videoTrack d) (_aacTrack d) (_id3Track d) (_txtTrack d) (aacOverFlow d)
    (aacLastPTS d) (avcSample d) (audioCodec d) (videoCodec d) (_duration d) v
    (_audioTrack d) (avcNaluState d) .
Definition set_audioTrack (v : option (Track AudioSample)) (d : Demuxer) : Demuxer :=
  mkDemuxer (observer d) (remuxer d) (sampleAes d) (contiguous d) (pmtParsed d)
    (_pmtId d) (_videoTrack d) (_aacTrack d) (_id3Track d) (_txtTrack d) (aacOverFlow d)
    (aacLastPTS d) (avcSample d) (audioCodec d) (videoCodec d) (_duration d)
    (_avcTrack d) v (avcNaluState d) .
Definition set_avcNaluState (v : option Z) (d : Demuxer) : Demuxer :=
  mkDemuxer (observer d) (remuxer d) (sampleAes d) (contiguous d) (pmtParsed d)
    (_pmtId d) (_videoTrack d) (_aacTrack d) (_id3Track d) (_txtTrack d) (aacOverFlow d)
    (aacLastPTS d) (avcSample d) (audioCodec d) (videoCodec d) (_duration d)
    (_avcTrack d) (_audioTrack d) v.

(** [resetInitSegment(initSegment, audioCodec, videoCodec, duration)] *)
Definition resetInitSegment (initSegment : JSVal)
    (audioCodec videoCodec : option string) (duration : option Z)
    (d : Demuxer) : Demuxer :=
  let d := set_pmtParsed (Some false) d in
  let d := set_pmtId (Some (-1)) d in
  let d := set_videoTrack (Some
    {| trk_container := Some "video/mp2t"; trk_type := "video"; trk_id := None;
       trk_streamType := Some (-1); trk_PID := Some (-1); trk_sequenceNumber := 0;
       trk_samples := []; trk_len := 0; trk_nbNalu := Some 0; trk_dropped := Some 0;
       trk_codec := None; trk_samplerate := None; trk_naluState := None |}) d in
  let d := set_aacTrack (Some
    {| trk_container := Some "video/mp2t"; trk_type := "audio"; trk_id := Some (-1);
       trk_streamType := None; trk_PID := None; trk_sequenceNumber := 0;
       trk_samples := []; trk_len := 0; trk_nbNalu := None; trk_dropped := None;
       trk_codec := None; trk_samplerate := None; trk_naluState := None |}) d in
  let d := set_id3Track (Some
    {| trk_container := None; trk_type := "id3"; trk_id := Some (-1);
       trk_streamType := None; trk_PID := None; trk_sequenceNumber := 0;
       trk_samples := []; trk_len := 0; trk_nbNalu := None; trk_dropped := None;
       trk_codec := None; trk_samplerate := None; trk_naluState := None |}) d in
  let d := set_txtTrack (Some
    {| trk_container := None; trk_type := "text"; trk_id := Some (-1);
       trk_streamType := None; trk_PID := None; trk_sequenceNumber := 0;
       trk_samples := []; trk_len := 0; trk_nbNalu := None; trk_dropped := None;
       trk_codec := None; trk_samplerate := None; trk_naluState := None |}) d in
  let d := set_aacOverFlow None d in
  let d := set_aacLastPTS None d in
  let d := set_avcSample None d in
  let d := set_audioCodec audioCodec d in
  let d := set_videoCodec videoCodec d in
  set_duration duration d.

(** A demuxer as the constructor leaves it, given its observer and
    remuxer: [lastCC], [HEVC] and [AVC] are constants, every other field
    is still undefined. *)
Definition new_demuxer (r : option Remuxer) : Demuxer :=
  {| observer := []; remuxer := r; sampleAes := false; contiguous := None;
     pmtParsed := None; _pmtId := None; _videoTrack := None; _aacTrack := None;
     _id3Track := None; _txtTrack := None; aacOverFlow := None; aacLastPTS := None;
     avcSample := None; audioCodec := None; videoCodec := None; _duration := None;
     _avcTrack := None; _audioTrack := None; avcNaluState := None |}.

Definition HEVC : Z := 0x24.
Definition AVC : Z := 0x1b.

(** ** Methods as state transformers *)

(** The state a method runs in: the receiver [this] and the host's
    global bindings.  A method returns a value or throws; updates made
    before a throw persist. *)
Record World : Type := mkWorld {
  this : Demuxer;
  host : gmap string JSVal
}.

Definition M (A : Type) : Type := World -> World * outcome A.

Definition throw {A} (e : exn) : M A := fun w => (w, Thrown e).

#[global] Instance M_ret : MRet M := fun A a w => (w, Returned a).
#[global] Instance M_bind : MBind M := fun A B k m w =>
  match m w with
  | (w', Returned a) => k a w'
  | (w', Thrown e) => (w', Thrown e)
  end.

Definition lift {A} (o : outcome A) : M A := fun w => (w, o).
Definition get_this : M Demuxer := fun w => (w, Returned (this w)).
Definition modify_this (f : Demuxer -> Demuxer) : M unit :=
  fun w => (mkWorld (f (this w)) (host w), Returned tt).

(** Property access [o.p] on a field of [this] that may be undefined. *)
Definition field {A} (what : string) (o : option A) : M A :=
  match o with
  | Some a => mret a
  | None => throw (TypeError what)
  end.

(** Read of an identifier that the function and the module do not
    declare: it resolves on the global object or throws. *)
Definition resolve (name : string) : M JSVal :=
  fun w => match host w !! name with
           | Some v => (w, Returned v)
           | None => (w, Thrown (ReferenceError name))
           end.

(** Assignment to such an identifier (module code is strict). *)
Definition assign (name : string) (v : JSVal) : M unit :=
  fun w => match host w !! name with
           | Some _ => (mkWorld (this w) (<[name := v]> (host w)), Returned tt)
           | None => (w, Thrown (ReferenceError name))
           end.

(** [observer.trigger(Event.ERROR, data)] *)
Definition trigger (data : ErrorData) : M unit :=
  modify_this (fun d => set_observer (observer d ++ [ERROR data]) d).

(** [this.remuxer.remux(...)] *)
Definition remuxer_remux (c : RemuxCall) : M unit :=
  d ← get_this;
  r ← field "this.remuxer" (remuxer d);
  modify_this (set_remuxer (Some (mkRemuxer (passthrough r) (remux_calls r ++ [c])))).

(** [_parseID3PES(pes)] *)
Definition _parseID3PES (pes : Pes) : M unit :=
  d ← get_this;
  t ← field "this._id3Track" (_id3Track d);
  modify_this (set_id3Track (Some (set_trk_samples (trk_samples t ++ [pes]) t))).

(** ** Sync detection: [_syncOffset] and [probe] *)

Fixpoint syncOffset_loop (fuel : nat) (data : list Z) (i scanwindow : Z) : Z :=
  match fuel with
  | O => -1
  | S fuel' =>
      if i <? scanwindow then
        if bool_decide (elem data i = Some 0x47) &&
           bool_decide (elem data (i + 188) = Some 0x47) &&
           bool_decide (elem data (i + 2 * 188) = Some 0x47)
        then i
        else syncOffset_loop fuel' data (i + 1) scanwindow
      else -1
  end.

Definition _syncOffset (data : list Z) : Z :=
  let scanwindow := Z.min 1000 (Z.of_nat (length data) - 3 * 188) in
  syncOffset_loop (Z.to_nat scanwindow) data 0 scanwindow.

Definition probe (data : list Z) : bool :=
  negb (_syncOffset data <? 0).

(** ** [push] *)

(** The local variables of [push] that survive a packet. *)
Record PushLocals : Type := mkPushLocals {
  l_videoData : option PesStream;
  l_id3Data : option PesStream;
  l_unknownPIDs : bool;
  l_pmtParsed : bool;
  l_videoPID : option Z;
  l_videoStreamType : option Z;
  l_aacId : option Z;
  l_id3Id : option Z;
  l_pmtId : option Z
}.

(** How the body of the packet loop ends: at [start += 188] with the
    given [start], or with a [return] from [push]. *)
Inductive Step : Type :=
  | Next (start : Z) (l : PushLocals)
  | Return.

(** [acc.data.push(data.subarray(offset, start + 188));
     acc.size += start + 188 - offset] *)
Definition pes_append (acc : PesStream) (data : list Z) (offset : jsnum) (start : Z)
    : PesStream :=
  mkPesStream (stream_data acc ++ [subarray data offset (Int (start + 188))])
              (num_add (stream_size acc) (num_sub (Int (start + 188)) offset)).

(** [pid === x] for a local [x] holding a number or [undefined]. *)
Definition pid_is (pid : jsnum) (x : option Z) : bool :=
  match x with Some v => num_eq pid (Int v) | None => false end.

(** [pid === v] for a host value. *)
Definition pid_is_val (pid : jsnum) (v : JSVal) : bool :=
  match v with VNum n => num_eq pid n | _ => false end.

(** ToBoolean of a codec string that may be undefined. *)
Definition str_truthy (s : option string) : bool :=
  match s with Some s => negb (bool_decide (s = "")) | None => false end.

(** [name.p = v] on a host value: undefined, null and (in strict code)
    primitives throw; the write to an object is not visible to the
    demuxer. *)
Definition host_set_property (name : string) : M unit :=
  v ← resolve name;
  match v with
  | VStream _ | VObject => mret tt
  | _ => throw (TypeError ("cannot set property of " +:+ name))
  end.

Section push.
(** The video parsers bound at the head of [push]; a parser receives
    what [_parsePES] returned, [null] included.  ([parseAACPES] and
    [parseMPEGPES] are bound there too, and no live statement calls
    them.) *)
Context (parseHEVCPES parseAVCPES : option Pes -> M unit).

(** [remux(level, sn, data)] *)
Definition remux (level sn : Z) (data : list Z) : M unit :=
  d ← get_this;
  remuxer_remux (RemuxCodecs level sn (_aacTrack d) (_videoTrack d)
                   (_id3Track d) (_txtTrack d) (contiguous d) data).

(** The dispatch on [videoStreamType]; [false] is the unsupported
    stream type. *)
Definition parse_video (videoStreamType : option Z) (pes : option Pes) : M bool :=
  if bool_decide (videoStreamType = Some HEVC) then parseHEVCPES pes;; mret true
  else if bool_decide (videoStreamType = Some AVC) then parseAVCPES pes;; mret true
  else mret false.

(** [case videoPID:] *)
Definition push_video (data : list Z) (codecsOnly : bool) (level sn : Z)
    (stt : bool) (offset : jsnum) (start : Z) (l : PushLocals) : M Step :=
  let accumulate (vd : option PesStream) : M Step :=
    let vd := match vd with
              | Some acc => Some (pes_append acc data offset start)
              | None => None
              end in
    mret (Next start (mkPushLocals vd (l_id3Data l) (l_unknownPIDs l) (l_pmtParsed l)
                        (l_videoPID l) (l_videoStreamType l) (l_aacId l) (l_id3Id l)
                        (l_pmtId l))) in
  if stt then
    returned ←
      match l_videoData l with
      | Some vd =>
          pesData ← lift (_parsePES vd);
          supported ← parse_video (l_videoStreamType l) pesData;
          if negb supported then mret true            (* logger.error; return *)
          else if codecsOnly then
            d ← get_this;
            vt ← field "this._videoTrack" (_videoTrack d);
            allCodecs ←
              (if str_truthy (trk_codec vt) then
                 if bool_decide (l_aacId l = Some (-1)) then mret true
                 else at_ ← field "this._aacTrack" (_aacTrack d);
                      mret (str_truthy (trk_codec at_))
               else mret false);
            if allCodecs : bool then remux level sn data;; mret true
            else mret false
          else mret false
      | None => mret false
      end;
    if returned : bool then mret Return
    else accumulate (Some (mkPesStream [] (Int 0)))
  else accumulate (l_videoData l).

(** [case audioId:]; [aacData] is declared and never assigned, so the
    block under [if (aacData)] does not run. *)
Definition push_audio (data : list Z) (stt : bool) (offset : jsnum) (start : Z)
    (l : PushLocals) : M Step :=
  (if stt then assign "audioData" (VStream (mkPesStream [] (Int 0))) else mret tt);;
  audioData ← resolve "audioData";
  (if val_truthy audioData then
     match audioData with
     | VStream acc => assign "audioData" (VStream (pes_append acc data offset start))
     | _ => throw (TypeError "audioData.data is undefined")
     end
   else mret tt);;
  mret (Next start l).

(** [case id3Id:] *)
Definition push_id3 (data : list Z) (stt : bool) (offset : jsnum) (start : Z)
    (l : PushLocals) : M Step :=
  id3Data ←
    (if stt then
       match l_id3Data l with
       | Some acc =>
           pes ← lift (_parsePES acc);
           match pes with Some pes => _parseID3PES pes | None => mret tt end
       | None => mret tt
       end;;
       mret (Some (mkPesStream [] (Int 0)))
     else mret (l_id3Data l));
  let id3Data := match id3Data with
                 | Some acc => Some (pes_append acc data offset start)
                 | None => None
                 end in
  mret (Next start (mkPushLocals (l_videoData l) id3Data (l_unknownPIDs l)
                      (l_pmtParsed l) (l_videoPID l) (l_videoStreamType l)
                      (l_aacId l) (l_id3Id l) (l_pmtId l))).

(** [if (stt) offset += data[offset] + 1] *)
Definition skip_pointer_field (data : list Z) (stt : bool) (offset : jsnum) : jsnum :=
  if stt then num_add offset (num_add (num_of (elem_at data offset)) (Int 1))
  else offset.

(** [case 0:] *)
Definition push_pat (data : list Z) (stt : bool) (offset : jsnum) (start : Z)
    (l : PushLocals) : M Step :=
  let offset := skip_pointer_field data stt offset in
  let pmtId := _parsePAT data offset in
  modify_this (set_pmtId (Some pmtId));;
  mret (Next start (mkPushLocals (l_videoData l) (l_id3Data l) (l_unknownPIDs l)
                      (l_pmtParsed l) (l_videoPID l) (l_videoStreamType l)
                      (l_aacId l) (l_id3Id l) (Some pmtId))).

(** [case pmtId:] *)
Definition push_pmt (data : list Z) (syncOffset : Z) (stt : bool) (offset : jsnum)
    (start : Z) (l : PushLocals) : M Step :=
  let offset := skip_pointer_field data stt offset in
  let parsedPIDs := _parsePMT data offset in
  d ← get_this;
  vt ← field "this._videoTrack" (_videoTrack d);
  modify_this (set_videoTrack (Some (set_trk_PID (Some (pmt_videoPID parsedPIDs)) vt)));;
  d ← get_this;
  vt ← field "this._videoTrack" (_videoTrack d);
  modify_this (set_videoTrack
    (Some (set_trk_streamType (Some (pmt_videoStreamType parsedPIDs)) vt)));;
  d ← get_this;
  at_ ← field "this._aacTrack" (_aacTrack d);
  modify_this (set_aacTrack (Some (set_trk_id (Some (pmt_aac parsedPIDs)) at_)));;
  d ← get_this;
  it ← field "this._id3Track" (_id3Track d);
  modify_this (set_id3Track (Some (set_trk_id (Some (pmt_id3 parsedPIDs)) it)));;
  let rewind := l_unknownPIDs l && negb (l_pmtParsed l) in
  modify_this (set_pmtParsed (Some true));;
  mret (Next (if rewind then syncOffset - 188 else start)
          (mkPushLocals (l_videoData l) (l_id3Data l)
             (if rewind then false else l_unknownPIDs l) true
             (Some (pmt_videoPID parsedPIDs)) (Some (pmt_videoStreamType parsedPIDs))
             (Some (pmt_aac parsedPIDs)) (Some (pmt_id3 parsedPIDs)) (l_pmtId l))).

(** The body of [for (start = syncOffset; start < len; start += 188)]. *)
Definition push_packet (data : list Z) (syncOffset : Z) (codecsOnly : bool)
    (level sn : Z) (start : Z) (l : PushLocals) : M Step :=
  if bool_decide (elem data start = Some 0x47) then
    let b1 := int_of (elem data (start + 1)) in
    let stt := negb (js_and b1 0x40 =? 0) in
    let pid := num_add (Int (js_shl (js_and b1 0x1f) 8)) (num_of (elem data (start + 2))) in
    let atf := js_sar (js_and (int_of (elem data (start + 3))) 0x30) 4 in
    let offset :=
      if 1 <? atf then num_add (Int (start + 5)) (num_of (elem data (start + 4)))
      else Int (start + 4) in
    if (1 <? atf) && num_eq offset (Int (start + 188)) then mret (Next start l)
    else if pid_is pid (l_videoPID l) then
      push_video data codecsOnly level sn stt offset start l
    else
      audioId ← resolve "audioId";
      if pid_is_val pid audioId then push_audio data stt offset start l
      else if pid_is pid (l_id3Id l) then push_id3 data stt offset start l
      else if num_eq pid (Int 0) then push_pat data stt offset start l
      else if pid_is pid (l_pmtId l) then push_pmt data syncOffset stt offset start l
      else if num_eq pid (Int 17) || num_eq pid (Int 0x1fff) then mret (Next start l)
      else mret (Next start (mkPushLocals (l_videoData l) (l_id3Data l) true
                               (l_pmtParsed l) (l_videoPID l) (l_videoStreamType l)
                               (l_aacId l) (l_id3Id l) (l_pmtId l)))
  else
    trigger (mkErrorData MEDIA_ERROR FRAG_PARSING_ERROR false
               "TS packet did not start with 0x47");;
    mret (Next start l).

(** The packet loop; [None] is a [return] from inside it.  The loop
    rewinds at most once, which bounds its turns. *)
Fixpoint push_loop (fuel : nat) (data : list Z) (syncOffset len : Z)
    (codecsOnly : bool) (level sn : Z) (start : Z) (l : PushLocals)
    : M (option PushLocals) :=
  match fuel with
  | O => mret (Some l)
  | S fuel' =>
      if start <? len then
        s ← push_packet data syncOffset codecsOnly level sn start l;
        match s with
        | Next start' l' =>
            push_loop fuel' data syncOffset len codecsOnly level sn (start' + 188) l'
        | Return => mret None
        end
      else mret (Some l)
  end.

(** The statements after the loop: the last PES of each track, then
    the remuxer. *)
Definition push_flush (timeOffset : Z) (l : PushLocals) : M unit :=
  match l_videoData l with
  | Some vd =>
      pes ← lift (_parsePES vd);
      parse_video (l_videoStreamType l) pes;; mret tt
  | None => mret tt
  end;;
  parsed ←
    match l_id3Data l with
    | Some acc => lift (_parsePES acc)
    | None => mret None
    end;
  match parsed with
  | Some pes => _parseID3PES pes;; host_set_property "id3Track"
  | None => host_set_property "id3Track"
  end;;
  d ← get_this;
  if sampleAes d then
    audioTrack ← resolve "audioTrack";
    avcTrack ← resolve "avcTrack";
    id3Track ← resolve "id3Track";
    contiguous ← resolve "contiguous";
    accurateTimeOffset ← resolve "accurateTimeOffset";
    throw (TypeError "this.decryptAndRemux is not a function")
  else
    field "this.remuxer" (remuxer d);;
    audioTrack ← resolve "audioTrack";
    avcTrack ← resolve "avcTrack";
    id3Track ← resolve "id3Track";
    contiguous ← resolve "contiguous";
    accurateTimeOffset ← resolve "accurateTimeOffset";
    remuxer_remux (RemuxFragment audioTrack avcTrack id3Track (_txtTrack d)
                     timeOffset contiguous accurateTimeOffset).

Definition push (data : list Z) (audioCodec videoCodec : option string)
    (timeOffset cc level sn duration : Z) : M unit :=
  let len := Z.of_nat (length data) in
  d ← get_this;
  r ← field "this.remuxer" (remuxer d);
  let codecsOnly := passthrough r in
  contiguous ← resolve "contiguous";              (* this.contiguous = contiguous *)
  modify_this (set_contiguous (Some contiguous));;
  d ← get_this;
  vt ← field "this._videoTrack" (_videoTrack d);
  at_ ← field "this._aacTrack" (_aacTrack d);
  it ← field "this._id3Track" (_id3Track d);
  let l := {| l_videoData := None; l_id3Data := None; l_unknownPIDs := false;
              l_pmtParsed := default false (pmtParsed d);
              l_videoPID := trk_PID vt; l_videoStreamType := trk_streamType vt;
              l_aacId := trk_id at_; l_id3Id := trk_id it; l_pmtId := _pmtId d |} in
  let syncOffset := _syncOffset data in
  let len := len - Z.rem (len + syncOffset) 188 in
  end_of_loop ←
    push_loop (2 * Z.to_nat (len / 188 + 2)) data syncOffset len codecsOnly level sn
              syncOffset l;
  match end_of_loop with
  | Some l => push_flush timeOffset l
  | None => mret tt
  end.
End push.

(** ** NAL scanners *)

(** ToBoolean of a number that may be undefined. *)
Definition opt_truthy (v : option Z) : bool :=
  match v with Some z => negb (z =? 0) | None => false end.

(** Replace the last element of an array. *)
Definition set_last {A} (x : A) (l : list A) : list A :=
  take (length l - 1) l ++ [x].

(** The last NAL unit of the last sample of [track], with the sample:
    [undefined] units throw when read. *)
Definition last_unit_of (track : Track VideoSample)
    : M (option (VideoSample * NalUnit)) :=
  match last (trk_samples track) with
  | None => mret None                                     (* samples.length is 0 *)
  | Some lastavcSample =>
      match last (vs_units lastavcSample) with
      | None => throw (TypeError "lastUnit is undefined")
      | Some lastUnit => mret (Some (lastavcSample, lastUnit))
      end
  end.

(** [track] with the data of its last unit replaced and [delta] added to
    [lastavcSample.units.length] and [track.len]. *)
Definition update_last_unit (track : Track VideoSample) (lastavcSample : VideoSample)
    (lastUnit : NalUnit) (data : list Z) (delta : Z) : Track VideoSample :=
  let lastUnit := mkNalUnit data (nal_type lastUnit) (nal_state lastUnit) in
  let lastavcSample :=
    mkVideoSample (set_last lastUnit (vs_units lastavcSample))
      (vs_units_length lastavcSample + delta)
      (vs_pts lastavcSample) (vs_dts lastavcSample) (vs_key lastavcSample) in
  set_trk_len (trk_len track + delta)
    (set_trk_samples (set_last lastavcSample (trk_samples track)) track).

(** The local variables of the scan loops. *)
Record ScanLocals : Type := mkScanLocals {
  sc_state : option Z;
  sc_lastUnitStart : option Z;
  sc_lastUnitType : option Z;
  sc_units : list NalUnit
}.

(** [_parseHEVCNALu], first start code of the call: strip the start-code
    bytes that ended the previous PES, then hand the bytes before the
    start code to the previous unit. *)
Definition hevc_first_start_code (array : list Z) (i : Z) (state : Z) : M unit :=
  d ← get_this;
  let lastState := avcNaluState d in
  (if opt_truthy lastState && (i <=? 4 - int_of lastState) then
     track ← field "this._videoTrack" (_videoTrack d);
     lu ← last_unit_of track;
     match lu with
     | Some (lastavcSample, lastUnit) =>
         if opt_truthy (nal_state lastUnit) then
           let data :=
             subarray (nal_data lastUnit) (Int 0)
               (Int (Z.of_nat (length (nal_data lastUnit)) - int_of lastState)) in
           modify_this (set_videoTrack (Some
             (update_last_unit track lastavcSample lastUnit data (- int_of lastState))))
         else mret tt
     | None => mret tt
     end
   else mret tt);;
  let overflow := i - state - 1 in
  if 0 <? overflow then
    d ← get_this;
    track ← field "this._avcTrack" (_avcTrack d);
    lu ← last_unit_of track;
    match lu with
    | Some (lastavcSample, lastUnit) =>
        let data := nal_data lastUnit ++ subarray array (Int 0) (Int overflow) in
        modify_this (set_avcTrack (Some
          (update_last_unit track lastavcSample lastUnit data overflow)))
    | None => mret tt
    end
  else mret tt.

(** The [while (i < len)] loop of [_parseHEVCNALu]; [i] is the index of
    the byte read in this turn. *)
Fixpoint parseHEVCNALu_loop (fuel : nat) (array : list Z) (i : Z) (l : ScanLocals)
    : M ScanLocals :=
  match fuel with
  | O => mret l
  | S fuel' =>
      let len := Z.of_nat (length array) in
      if i <? len then
        let value := elem array i in
        let i := i + 1 in
        let with_state (s : Z) :=
          mkScanLocals (Some s) (sc_lastUnitStart l) (sc_lastUnitType l) (sc_units l) in
        l' ←
          (if bool_decide (sc_state l = Some 0) then
             mret (if bool_decide (value = Some 0) then with_state 1 else l)
           else if bool_decide (sc_state l = Some 1) then
             mret (if bool_decide (value = Some 0) then with_state 2 else with_state 0)
           else if bool_decide (sc_state l = Some 2) || bool_decide (sc_state l = Some 3) then
             let state := int_of (sc_state l) in
             if bool_decide (value = Some 0) then mret (with_state 3)
             else if bool_decide (value = Some 1) && (i <? len) then
               let unitType := js_and (Z.shiftr (int_of (elem array i)) 1) 0x3F in
               units ←
                 (if opt_truthy (sc_lastUnitStart l) then
                    mret (sc_units l ++
                      [mkNalUnit
                         (subarray array (num_of (sc_lastUnitStart l)) (Int (i - state - 1)))
                         (sc_lastUnitType l) None])
                  else
                    hevc_first_start_code array i state;; mret (sc_units l));
               mret (mkScanLocals (Some 0) (Some i) (Some unitType) units)
             else mret (with_state 0)
           else mret l);                                  (* default: break *)
        parseHEVCNALu_loop fuel' array i l'
      else mret l
  end.

Definition _parseHEVCNALu (array : list Z) : M (list NalUnit) :=
  d ← get_this;
  let len := Z.of_nat (length array) in
  l ← parseHEVCNALu_loop (length array) array 0
         (mkScanLocals (avcNaluState d) None None []);
  if opt_truthy (sc_lastUnitStart l) then
    let unit :=
      mkNalUnit (subarray array (num_of (sc_lastUnitStart l)) (Int len))
        (sc_lastUnitType l) (sc_state l) in
    modify_this (set_avcNaluState (sc_state l));;
    mret (sc_units l ++ [unit])
  else mret (sc_units l).

(** The loop of [_parseAVCNALu]; here [state] and [lastUnitStart] are
    numbers.  The class has no method [_getLastNalUnit]: the call made
    at the first start code of a PES throws. *)
Fixpoint parseAVCNALu_loop (fuel : nat) (array : list Z) (i : Z)
    (state lastUnitStart : Z) (lastUnitType : option Z) (units : list NalUnit)
    : M (Z * Z * option Z * list NalUnit) :=
  match fuel with
  | O => mret (state, lastUnitStart, lastUnitType, units)
  | S fuel' =>
      let len := Z.of_nat (length array) in
      if i <? len then
        let value := int_of (elem array i) in
        let i := i + 1 in
        if state =? 0 then
          parseAVCNALu_loop fuel' array i (if value =? 0 then 1 else 0)
            lastUnitStart lastUnitType units
        else if state =? 1 then
          parseAVCNALu_loop fuel' array i (if value =? 0 then 2 else 0)
            lastUnitStart lastUnitType units
        else if value =? 0 then
          parseAVCNALu_loop fuel' array i 3 lastUnitStart lastUnitType units
        else if value =? 1 then
          units ←
            (if 0 <=? lastUnitStart then
               mret (units ++
                 [mkNalUnit (subarray array (Int lastUnitStart) (Int (i - state - 1)))
                    lastUnitType None])
             else throw (TypeError "this._getLastNalUnit is not a function"));
          if i <? len then
            let unitType := js_and (int_of (elem array i)) 0x1f in
            parseAVCNALu_loop fuel' array i 0 i (Some unitType) units
          else
            parseAVCNALu_loop fuel' array i (-1) lastUnitStart lastUnitType units
        else
          parseAVCNALu_loop fuel' array i 0 lastUnitStart lastUnitType units
      else mret (state, lastUnitStart, lastUnitType, units)
  end.

Definition _parseAVCNALu (array : list Z) : M (list NalUnit) :=
  d ← get_this;
  let len := Z.of_nat (length array) in
  track ← field "this._avcTrack" (_avcTrack d);          (* track.naluState *)
  let state := if opt_truthy (trk_naluState track)
               then int_of (trk_naluState track) else 0 in
  let '(i, state, lastUnitStart, lastUnitType) :=
    if state =? -1
    then (1, 0, 0, Some (js_and (int_of (elem array 0)) 0x1f))
    else (0, state, -1, None) in
  r ← parseAVCNALu_loop (length array) array i state lastUnitStart lastUnitType [];
  let '(state, lastUnitStart, lastUnitType, units) := r in
  let units :=
    if (0 <=? lastUnitStart) && (0 <=? state)
    then units ++ [mkNalUnit (subarray array (Int lastUnitStart) (Int len))
                     lastUnitType (Some state)]
    else units in
  (if bool_decide (units = [])
   then throw (TypeError "this._getLastNalUnit is not a function")
   else mret tt);;
  d ← get_this;
  track ← field "this._avcTrack" (_avcTrack d);
  modify_this (set_avcTrack (Some (set_trk_naluState (Some state) track)));;
  mret units.

(** ** [_parseAACPES] *)

(** Modelled from the spec: [ADTS.isHeader] of the module [./adts], which
    is not part of the sources at hand.  The spec describes an ADTS
    header by its syncword 0xFFFx: a byte 0xFF followed by a byte whose
    high four bits are set. *)
Definition ADTS_isHeader (data : list Z) (offset : Z) : bool :=
  bool_decide (elem data offset = Some 0xFF) &&
  (js_and (int_of (elem data (offset + 1))) 0xF0 =? 0xF0).

Section parseAACPES.
(** The functions of the ADTS module.  [initTrackConfig] and
    [appendFrame] receive the track object and the observer and may
    change them; [appendFrame] returns [frame.length] and
    [frame.sample.pts], or a falsy frame. *)
Context (isHeader : list Z -> Z -> bool).
Context (initTrackConfig :
           option (Track AudioSample) -> list Z -> Z -> option string -> M unit).
Context (getFrameDuration : option Z -> Q).
Context (appendFrame :
           option (Track AudioSample) -> list Z -> Z -> option Q -> Z -> M (option (Z * Q))).

(** [for (offset = startOffset; offset < len - 1; offset++)
       if (ADTS.isHeader(data, offset)) break;] *)
Fixpoint aac_find_header (fuel : nat) (data : list Z) (offset len : Z) : Z :=
  match fuel with
  | O => offset
  | S fuel' =>
      if offset <? len - 1 then
        if isHeader data offset then offset
        else aac_find_header fuel' data (offset + 1) len
      else offset
  end.

(** The [if (offset)] block: the error report.  [false] is the early
    [return] of the fatal case. *)
Definition aac_report (offset len : Z) : M bool :=
  if negb (offset =? 0) then
    let fatal := negb (offset <? len - 1) in
    let reason :=
      if fatal then "no ADTS header found in AAC PES"
      else "AAC PES did not start with ADTS header,offset:" +:+ pretty offset in
    trigger (mkErrorData MEDIA_ERROR FRAG_PARSING_ERROR fatal reason);;
    mret (negb fatal)
  else mret true.

(** [while (offset < len)]: the frame scan; it returns the final
    [offset] and [stamp].  A frame has a positive length. *)
Fixpoint aac_scan (fuel : nat) (track : option (Track AudioSample)) (data : list Z)
    (len : Z) (pts : option Q) (offset frameIndex : Z) (stamp : option Q)
    : M (Z * option Q) :=
  match fuel with
  | O => mret (offset, stamp)
  | S fuel' =>
      if offset <? len then
        if isHeader data offset && (offset + 5 <? len) then
          frame ← appendFrame track data offset pts frameIndex;
          match frame with
          | Some (frame_length, sample_pts) =>
              aac_scan fuel' track data len pts (offset + frame_length)
                (frameIndex + 1) (Some sample_pts)
          | None => mret (offset, stamp)
          end
        else aac_scan fuel' track data len pts (offset + 1) frameIndex stamp
      else mret (offset, stamp)
  end.

(** The statements from [ADTS.initTrackConfig] to the end, entered
    with the offset of the first header. *)
Definition aac_frames (track : option (Track AudioSample)) (data : list Z)
    (pts : option Q) (aacOverFlow : option (list Z)) (aacLastPTS : option Q)
    (offset : Z) : M unit :=
  let len := Z.of_nat (length data) in
  d ← get_this;
  initTrackConfig track data offset (audioCodec d);;
  tr ← field "track" track;                              (* track.samplerate *)
  let frameDuration := getFrameDuration (trk_samplerate tr) in
  let pts :=
    match aacOverFlow, aacLastPTS with
    | Some _, Some last =>
        if Qeq_bool last 0 then pts
        else
          let newPTS := Qplus last frameDuration in
          match pts with
          | Some p => if Qle_bool (Qabs (Qminus newPTS p)) 1 then pts else Some newPTS
          | None => pts
          end
    | _, _ => pts
    end in
  r ← aac_scan (Z.to_nat len) track data len pts offset 0 None;
  let '(offset, stamp) := r in
  let aacOverFlow :=
    if offset <? len then Some (subarray data (Int offset) (Int len)) else None in
  modify_this (set_aacOverFlow aacOverFlow);;
  modify_this (set_aacLastPTS stamp).

Definition _parseAACPES (pes : option Pes) : M unit :=
  d ← get_this;
  let track := _audioTrack d in
  pes ← field "pes" pes;                                 (* pes.data *)
  let data := pes_data pes in
  let pts := option_map inject_Z (pes_pts pes) in
  let aacOverFlow := aacOverFlow d in
  let aacLastPTS := aacLastPTS d in
  let data := match aacOverFlow with
              | Some over => over ++ data
              | None => data
              end in
  let len := Z.of_nat (length data) in
  let offset := aac_find_header (length data) data 0 len in
  continue ← aac_report offset len;
  if continue : bool
  then aac_frames track data pts aacOverFlow aacLastPTS offset
  else mret tt.
End parseAACPES.

(** The bytes [_parseAACPES] scans: the pending overflow, then the PES
    payload. *)
Definition aac_input (w : World) (pes : Pes) : list Z :=
  match aacOverFlow (this w) with
  | Some over => over ++ pes_data pes
  | None => pes_data pes
  end.

(** The rest of [_parseAACPES] once the header search stopped at
    [offset], with the variables the call set up from [pes] when it
    started in the world [w0]. *)
Definition aac_continue (isHeader : list Z -> Z -> bool)
    (initTrackConfig :
       option (Track AudioSample) -> list Z -> Z -> option string -> M unit)
    (getFrameDuration : option Z -> Q)
    (appendFrame :
       option (Track AudioSample) -> list Z -> Z -> option Q -> Z -> M (option (Z * Q)))
    (pes : Pes) (w0 : World) (offset : Z) : M unit :=
  aac_frames isHeader initTrackConfig getFrameDuration appendFrame
    (_audioTrack (this w0))
    (aac_input w0 pes)
    (option_map inject_Z (pes_pts pes))
    (aacOverFlow (this w0)) (aacLastPTS (this w0)) offset.

(** ** Definitions used in the statements *)

(** Removal of the elements of [l] whose index, counted from [src], is
    listed in [E]. *)
Fixpoint remove_at (src : nat) (E : list nat) (l : list Z) : list Z :=
  match l with
  | [] => []
  | x :: r =>
      if bool_decide (head E = Some src)
      then remove_at (S src) (tail E) r
      else x :: remove_at (S src) E r
  end.

(** Positions in increasing order, at least two apart, within
    [src, len). *)
Fixpoint epb_wf (src len : nat) (E : list nat) : Prop :=
  match E with
  | [] => True
  | p :: E' => (src <= p < len)%nat /\ epb_wf (p + 2) len E'
  end.

(** The bytes not yet handed out by [getByte]. *)
Definition pending (p : HEVCSpsParser) : list Z :=
  drop (length (sps_data p) - bytesAvailable p) (sps_data p).

(** Two readers agree when they hold the same bit cache and the pending
    bytes of the second are those of the first followed by zeros. *)
Definition zero_ext (p q : HEVCSpsParser) : Prop :=
  firstByte p = firstByte q /\ cache p = cache q /\ bitsInCache p = bitsInCache q /\
  (bytesAvailable p <= length (sps_data p))%nat /\
  (bytesAvailable q <= length (sps_data q))%nat /\
  exists k : nat, pending q = pending p ++ replicate k 0.

(** Every element is a byte, as in a [Uint8Array]. *)
Definition bytes_ok (l : list Z) : Prop := Forall (fun x => 0 <= x < 256) l.

(** The bytes of an accumulator, slice after slice. *)
Definition stream_bytes (s : PesStream) : list Z := concat (stream_data s).

(** Bytes 9..13 of a PES header carrying the 33-bit timestamp [p] in the
    marker layout: 4 prefix bits [hi], p[32..30], marker, p[29..15],
    marker, p[14..0], marker. *)
Definition pts_bytes (hi p : Z) : list Z :=
  [hi * 16 + 2 * (p / 2 ^ 30) + 1;
   (p / 2 ^ 22) mod 256;
   2 * ((p / 2 ^ 15) mod 128) + 1;
   (p / 2 ^ 7) mod 256;
   2 * (p mod 128) + 1].

(** The signed wrap of a 33-bit timestamp. *)
Definition wrap33 (p : Z) : Z := if 2 ^ 32 - 1 <? p then p - 2 ^ 33 else p.

(** A hand-made PES header: stream id 0xE0, length field 0, the given
    flags, a header of ten more bytes holding [p] as PTS and [dts] as
    DTS, then the payload. *)
Definition pes_packet (flags p dts : Z) (payload : list Z) : list Z :=
  [0; 0; 1; 0xE0; 0; 0; 0x80; flags; 10] ++ pts_bytes 3 p ++ pts_bytes 1 dts ++ payload.

(** A TS packet with the given header bytes and payload, padded with
    0xFF to 188 bytes. *)
Definition ts_packet (b1 b2 b3 : Z) (payload : list Z) : list Z :=
  take 188 ([0x47; b1; b2; b3] ++ payload ++ replicate 184 0xFF).

(** Three null packets (PID 0x1FFF) and one more byte: the shortest kind
    of buffer that [probe] accepts. *)
Definition ts_null3 : list Z :=
  ts_packet 0x1F 0xFF 0x10 [] ++ ts_packet 0x1F 0xFF 0x10 [] ++
  ts_packet 0x1F 0xFF 0x10 [] ++ [0].

(** A demuxer after [resetInitSegment], with a remuxer, on a host that
    binds none of the identifiers [push] leaves undeclared. *)
Definition fresh_world : World :=
  mkWorld (resetInitSegment VNull (Some "mp4a.40.2") (Some "hvc1") (Some 10)
             (new_demuxer (Some (mkRemuxer false []))))
          ∅.

(** A PMT section (pointer field first) listing an AAC stream on PID
    0x101, an ID3 stream on PID 0x102 and an HEVC stream on PID 0x100. *)
Definition pmt_payload : list Z :=
  [0x00;                                     (* pointer_field *)
   0x02; 0xB0; 0x1C; 0x00; 0x01; 0xC1; 0x00; 0x00;
   0xE1; 0x00;                               (* PCR PID *)
   0xF0; 0x00;                               (* program_info_length = 0 *)
   0x0F; 0xE1; 0x01; 0xF0; 0x00;             (* AAC,  PID 0x101 *)
   0x15; 0xE1; 0x02; 0xF0; 0x00;             (* ID3,  PID 0x102 *)
   0x24; 0xE1; 0x00; 0xF0; 0x00;             (* HEVC, PID 0x100 *)
   0x00; 0x00; 0x00; 0x00].                  (* CRC32 *)

(** The locals of [push] right after a reset, once the PAT named PID
    0x1000 as the PMT's. *)
Definition locals_after_pat : PushLocals :=
  mkPushLocals None None false false (Some (-1)) (Some (-1)) (Some (-1))
    (Some (-1)) (Some 0x1000).

(** A host that does bind the identifiers [push] leaves undeclared. *)
Definition binding_host : gmap string JSVal :=
  {[ "contiguous" := VBool true; "audioId" := VNum (Int 0x101);
     "audioData" := VUndefined; "id3Track" := VObject; "audioTrack" := VObject;
     "avcTrack" := VObject; "accurateTimeOffset" := VBool true ]}.

(** A PAT section (pointer field first) naming PID 0x1000 as the PMT of
    program 1. *)
Definition pat_payload : list Z :=
  [0x00;
   0x00; 0xB0; 0x0D; 0x00; 0x01; 0xC1; 0x00; 0x00;
   0x00; 0x01; 0xF0; 0x00;
   0x00; 0x00; 0x00; 0x00].

(** A PAT packet, a PMT packet, one ID3 PES on PID 0x102, one more byte. *)
Definition ts_pat_pmt_id3 : list Z :=
  ts_packet 0x40 0x00 0x10 pat_payload ++ ts_packet 0x50 0x00 0x10 pmt_payload ++
  ts_packet 0x41 0x02 0x10 (pes_packet 0x80 90000 0 [0x49; 0x44; 0x33]) ++ [0].

(** The world after [observer.trigger(Event.ERROR, e)]. *)
Definition with_error (e : ErrorData) (w : World) : World :=
  mkWorld (set_observer (observer (this w) ++ [ERROR e]) (this w)) (host w).

(** Two halves of an HEVC elementary stream, cut after the first byte of
    the 4-byte start code of its IDR NAL (type 19, header 0x26 0x01). *)
Definition hevc_half1 : list Z := [0; 0; 0; 1; 0x40; 0x01; 0xAA; 0].
Definition hevc_half2 : list Z := [0; 0; 1; 0x26; 0x01; 0xBB; 0xCC].

(** ** Definitions used in the statements on sync detection, the PSI
    tables and emulation prevention *)

(** Three sync bytes one packet apart, the first at offset [i]. *)
Definition sync_at (data : list Z) (i : Z) : Prop :=
  elem data i = Some 0x47 /\ elem data (i + 188) = Some 0x47 /\
  elem data (i + 2 * 188) = Some 0x47.

(** An entry of the stream table of a PMT: stream type, elementary PID
    and descriptor bytes. *)
Record PmtEntry : Type := mkPmtEntry {
  pe_type : Z;
  pe_pid : Z;
  pe_info : list Z
}.

(** The bytes of an entry as ISO/IEC 13818-1 lays them out: the type,
    three reserved bits and the 13-bit PID, four reserved bits and the
    12-bit length of the descriptors, the descriptors. *)
Definition pmt_entry_bytes (e : PmtEntry) : list Z :=
  [pe_type e;
   0xE0 + pe_pid e / 256; pe_pid e mod 256;
   0xF0 + Z.of_nat (length (pe_info e)) / 256; Z.of_nat (length (pe_info e)) mod 256]
  ++ pe_info e.

Definition pmt_table_bytes (entries : list PmtEntry) : list Z :=
  concat (map pmt_entry_bytes entries).

(** A whole PMT section: table id 2, section length, program number,
    version byte, section numbers, PCR PID, program descriptors, the
    stream table and the four bytes of the CRC. *)
Definition pmt_section (program pcr : Z) (program_info : list Z)
    (entries : list PmtEntry) (crc : list Z) : list Z :=
  let section_length :=
    9 + Z.of_nat (length program_info) + Z.of_nat (length (pmt_table_bytes entries)) + 4 in
  [0x02; 0xB0 + section_length / 256; section_length mod 256;
   program / 256; program mod 256; 0xC1; 0x00; 0x00;
   0xE0 + pcr / 256; pcr mod 256;
   0xF0 + Z.of_nat (length program_info) / 256; Z.of_nat (length program_info) mod 256]
  ++ program_info ++ pmt_table_bytes entries ++ crc.

Definition pmt_entry_ok (e : PmtEntry) : Prop :=
  0 <= pe_type e < 256 /\ 0 <= pe_pid e < 8192 /\ (length (pe_info e) < 4096)%nat.

Definition is_video_entry (e : PmtEntry) : bool :=
  (pe_type e =? 0x24) || (pe_type e =? 0x1b).

Definition is_id3_entry (e : PmtEntry) : bool := pe_type e =? 0x15.

(** Emulation prevention as an encoder applies it to a payload: after
    two zero bytes a byte of value 0 to 3 is preceded by 0x03.  [zeros]
    counts the zero bytes that end the output so far. *)
Fixpoint escape_epb (zeros : nat) (payload : list Z) : list Z :=
  match payload with
  | [] => []
  | b :: r =>
      if bool_decide (zeros = 2%nat) && (0 <=? b) && (b <=? 3)
      then 3 :: b :: escape_epb (if b =? 0 then 1%nat else O) r
      else b :: escape_epb (if b =? 0 then S zeros else O) r
  end.

(** What [_parsePMT] is expected to return on a table: the PID and type
    of its first HEVC or AVC entry and the PID of its first ID3 entry,
    -1 where there is none; [aac] stays -1 and no [audio] property
    appears. *)
Definition pmt_first (entries : list PmtEntry) : PmtResult :=
  {| pmt_aac := -1;
     pmt_videoPID := from_option pe_pid (-1) (find is_video_entry entries);
     pmt_videoStreamType := from_option pe_type (-1) (find is_video_entry entries);
     pmt_id3 := from_option pe_pid (-1) (find is_id3_entry entries);
     pmt_audio := None |}.

(** The bytes [l] stand at offset [o] of [data]. *)
Definition bytes_at (data : list Z) (o : Z) (l : list Z) : Prop :=
  forall (k : nat) (x : Z), l !! k = Some x -> elem data (o + Z.of_nat k) = Some x.

(** What one turn of the loop does with a well-formed entry. *)
Definition pmt_absorb (r : PmtResult) (e : PmtEntry) : PmtResult :=
  if is_id3_entry e then
    if pmt_id3 r =? -1
    then mkPmtResult (pmt_aac r) (pmt_videoPID r) (pmt_videoStreamType r) (pe_pid e) (pmt_audio r)
    else r
  else if is_video_entry e then
    if pmt_videoPID r =? -1
    then mkPmtResult (pmt_aac r) (pe_pid e) (pe_type e) (pmt_id3 r) (pmt_audio r)
    else r
  else r.


(** The array [dst] after the bytes [w] were written from index [i] on,
    or the RangeError of a write past its end. *)
Definition written_at (w dst : list Z) (i : nat) : outcome (list Z) :=
  if bool_decide (i + length w <= length dst)%nat
  then Returned (take i dst ++ w ++ drop (i + length w) dst)
  else Thrown (RangeError "offset is out of bounds").

(** ** [HEVCSpsParser]: Exp-Golomb codes and the sequence parameter set *)

(** The loop [while (bit === 0) { i++; bit = this.readBits(1); }] of
    [readUE].  It runs for as long as the reader hands out zero bits:
    [None] stands for a loop that is still running after [fuel] turns. *)
Fixpoint readUE_zeros (fuel : nat) (i bit : Z) (p : HEVCSpsParser)
    : option (Z * HEVCSpsParser) :=
  match fuel with
  | O => None
  | S fuel' =>
      if bit =? 0 then
        let '(bit, p) := readBits 1 p in
        readUE_zeros fuel' (i + 1) bit p
      else Some (i, p)
  end.

(** [readUE()] *)
Definition readUE (fuel : nat) (p : HEVCSpsParser) : option (Z * HEVCSpsParser) :=
  let '(bit, p) := readBits 1 p in
  '(i, p) ← readUE_zeros fuel 0 bit p;
  let '(val, p) := readBits i p in
  Some (js_shl 1 i - 1 + val, p).

(** The two loops of [readProfileTierLevel] over the sub-layers: the
    presence flags [(subLayerProfilePresentFlag[j],
    subLayerLevelPresentFlag[j])], then the data they announce. *)
Fixpoint read_sub_layer_flags (n : nat) (p : HEVCSpsParser)
    : list (Z * Z) * HEVCSpsParser :=
  match n with
  | O => ([], p)
  | S n' =>
      let '(profilePresent, p) := readBits 1 p in
      let '(levelPresent, p) := readBits 1 p in
      let '(flags, p) := read_sub_layer_flags n' p in
      ((profilePresent, levelPresent) :: flags, p)
  end.

Definition skip_sub_layer (flag : Z * Z) (p : HEVCSpsParser) : HEVCSpsParser :=
  let p :=
    if negb (flag.1 =? 0) then
      skipBits 12 (skipBits 16 (skipBits 16 (skipBits 4 (skipBits 16 (skipBits 16
        (skipBits 5 (skipBits 1 (skipBits 2 p))))))))
    else p in
  if negb (flag.2 =? 0) then skipBits 8 p else p.

(** [readProfileTierLevel(maxSubLayersMinus1)] *)
Definition readProfileTierLevel (maxSubLayersMinus1 : Z) (p : HEVCSpsParser)
    : HEVCSpsParser :=
  let p := skipBits 2 p in            (* profile_space *)
  let p := skipBits 1 p in            (* tierFlag *)
  let p := skipBits 5 p in            (* profileIdc *)
  let p := skipBits 16 p in
  let p := skipBits 16 p in
  let p := skipBits 1 p in            (* progressiveSourceFlag *)
  let p := skipBits 1 p in            (* interlacedSourceFlag *)
  let p := skipBits 1 p in            (* nonPackedConstraintFlag *)
  let p := skipBits 1 p in            (* frameOnlyConstraintFlag *)
  let p := skipBits 16 p in           (* reserved zero bits *)
  let p := skipBits 16 p in
  let p := skipBits 12 p in
  let p := skipBits 8 p in            (* level_idc *)
  let '(flags, p) := read_sub_layer_flags (Z.to_nat maxSubLayersMinus1) p in
  let p :=
    if negb (maxSubLayersMinus1 =? 0)
    then skipBits ((8 - maxSubLayersMinus1) * 2) p else p in
  fold_left (fun p flag => skip_sub_layer flag p) flags p.

(** The object returned by [readSPSHEVC]. *)
Record SpsConfig : Type := mkSpsConfig {
  sps_width : Z;
  sps_height : Z;
  sps_chromaFormatIdc : Z;
  sps_bitDepthLumaMinus8 : Z;
  sps_bitDepthChromaMinus8 : Z
}.

(** [readSPSHEVC()].  The class has no method [skipUE]: the call made
    when the conformance-window flag is 1 throws.  [None] stands for a
    call of [readUE] that is still looping after [fuel] turns. *)
Definition readSPSHEVC (fuel : nat) (p : HEVCSpsParser) : option (outcome SpsConfig) :=
  let '(_, p) := readBits 8 p in                      (* NAL header *)
  let '(_, p) := readBits 8 p in                      (* NAL header *)
  let '(vpsId, p) := readBits 4 p in
  let '(maxSubLayersMinus1, p) := readBits 3 p in
  let '(tINf, p) := readBits 1 p in
  let p := readProfileTierLevel maxSubLayersMinus1 p in
  '(spsId, p) ← readUE fuel p;
  '(chromaFormatIdc, p) ← readUE fuel p;
  let p := if chromaFormatIdc =? 3 then skipBits 1 p else p in
  '(width, p) ← readUE fuel p;
  '(height, p) ← readUE fuel p;
  let '(conformanceWindowFlag, p) := readBits 1 p in
  if conformanceWindowFlag =? 1
  then Some (Thrown (TypeError "this.skipUE is not a function"))
  else
    '(bitDepthLumaMinus8, p) ← readUE fuel p;
    '(bitDepthChromaMinus8, p) ← readUE fuel p;
    Some (Returned (mkSpsConfig width height chromaFormatIdc
                      bitDepthLumaMinus8 bitDepthChromaMinus8)).

(** ** Definitions used in the statements on the bit reader *)

(** [f (n - 1), ..., f 1, f 0]: bits listed from the most significant
    one down. *)
Fixpoint bits_down (f : Z -> bool) (n : nat) : list bool :=
  match n with
  | O => []
  | S m => f (Z.of_nat m) :: bits_down f m
  end.

(** The eight bits of a byte and the bits of a byte sequence, in the
    order in which a bit stream presents them. *)
Definition byte_bits (b : Z) : list bool := bits_down (Z.testbit b) 8.

Definition bytes_bits (l : list Z) : list bool := concat (map byte_bits l).

(** The number a bit string spells, most significant bit first. *)
Definition bits_value (bs : list bool) : Z :=
  fold_left (fun acc b => 2 * acc + Z.b2z b) bs 0.

(** The [n]-bit spelling of [x]. *)
Definition to_bits (n : nat) (x : Z) : list bool := bits_down (Z.testbit x) n.

(** Bit [t] of the reader's window: [firstByte] below the 32 bits of
    [cache]. *)
Definition wbit (p : HEVCSpsParser) (t : Z) : bool :=
  if t <? 8 then Z.testbit (firstByte p) t else Z.testbit (cache p) (t - 8).

(** The bits the reader has fetched and not yet handed out, then all the
    bits it will hand out before running off its data. *)
Definition cached_bits (p : HEVCSpsParser) : list bool :=
  bits_down (wbit p) (Z.to_nat (bitsInCache p)).

Definition upcoming (p : HEVCSpsParser) : list bool :=
  cached_bits p ++ bytes_bits (pending p).

(** No 0x03 follows two zero bytes. *)
Fixpoint no_epb (l : list Z) : bool :=
  match l with
  | a :: l1 =>
      match l1 with
      | b :: c :: _ => negb ((a =? 0) && (b =? 0) && (c =? 3)) && no_epb l1
      | _ => true
      end
  | [] => true
  end.

(** A reader whose data are bytes, with a byte in [firstByte], and such
    that neither the two bytes fetched last nor the bytes to come hold
    an emulation-prevention pattern. *)
Definition reader_wf (p : HEVCSpsParser) : Prop :=
  0 <= bitsInCache p /\ 0 <= firstByte p < 256 /\
  (bytesAvailable p <= length (sps_data p))%nat /\
  bytes_ok (sps_data p) /\
  no_epb (js_and (cache p) 0xff :: firstByte p :: pending p) = true.

(** A reader between two calls (at most seven bits are cached) that is
    about to hand out the bits [bs], and then more. *)
Definition reads (p : HEVCSpsParser) (bs : list bool) : Prop :=
  reader_wf p /\ bitsInCache p <= 7 /\ exists rest, upcoming p = bs ++ rest.

(** The Exp-Golomb code word of [v]: the binary spelling of [v + 1],
    preceded by as many zeros as it has bits after the first. *)
Definition ue_bits (v : Z) : list bool :=
  let n := Z.to_nat (Z.log2 (v + 1)) in
  replicate n false ++ to_bits (S n) (v + 1).

(** The values a run of calls is expected to return on the bit string
    [bs]: each call takes the next [nbits] bits. *)
Fixpoint fields_of (cs : list reader_call) (bs : list bool) : list (option Z) :=
  match cs with
  | [] => []
  | ReadBits n :: cs' =>
      Some (bits_value (take (Z.to_nat n) bs)) :: fields_of cs' (drop (Z.to_nat n) bs)
  | SkipBits n :: cs' => None :: fields_of cs' (drop (Z.to_nat n) bs)
  end.

Definition call_size (c : reader_call) : Z :=
  match c with ReadBits n => n | SkipBits n => n end.

(** A reader that has only zero bits left: those it has cached and all
    its pending bytes. *)
Definition zero_tail (p : HEVCSpsParser) : Prop :=
  0 <= bitsInCache p <= 8 /\ 0 <= firstByte p < 256 /\
  firstByte p mod 2 ^ bitsInCache p = 0 /\
  (bytesAvailable p <= length (sps_data p))%nat /\
  Forall (fun b => b = 0) (pending p).

(** The number of bits a run of calls asks for. *)
Definition calls_size (cs : list reader_call) : Z :=
  foldr (fun c acc => call_size c + acc) 0 cs.













(** ** The other methods of [TSDemuxer] *)





(** [resetTimeStamp()] has an empty body. *)
Definition resetTimeStamp : M unit := mret tt.

(** [destroy()]; [_initPTS] and [_initDTS], which it clears, are fields
    no other method reads. *)
Definition destroy : M unit := modify_this (set_duration (Some 0)).


(** ** Definitions used in the statements on [push] *)

(** Every value the computation [m] can return satisfies [P]. *)
Definition returns_only {A} (m : M A) (P : A -> Prop) : Prop :=
  forall (w w' : World) (a : A), m w = (w', Returned a) -> P a.

(** What a turn of the packet loop may do to [start] and [pmtParsed]
    when it is entered at [start] with the locals [l]: keep [start]
    without clearing [pmtParsed], or rewind to the first packet, which
    requires [pmtParsed] to be false and sets it. *)
Definition turn_ok (syncOffset start : Z) (l : PushLocals) (s : Step) : Prop :=
  match s with
  | Next start' l' =>
      (start' = start /\ (l_pmtParsed l = true -> l_pmtParsed l' = true)) \/
      (start' = syncOffset - 188 /\ l_pmtParsed l = false /\ l_pmtParsed l' = true)
  | Return => True
  end.

(** The turns the packet loop needs to run from [start] to [len]. *)
Definition turns_left (len start : Z) : Z := Z.max 0 ((len - start + 187) / 188).

(** ** [_parseHEVCPES] *)

Definition set_trk_nbNalu {S} (v : option Z) (t : Track S) : Track S :=
  mkTrack (trk_container t) (trk_type t) (trk_id t) (trk_streamType t) (trk_PID t)
    (trk_sequenceNumber t) (trk_samples t) (trk_len t) v (trk_dropped t)
    (trk_codec t) (trk_samplerate t) (trk_naluState t).
Definition set_trk_dropped {S} (v : option Z) (t : Track S) : Track S :=
  mkTrack (trk_container t) (trk_type t) (trk_id t) (trk_streamType t) (trk_PID t)
    (trk_sequenceNumber t) (trk_samples t) (trk_len t) (trk_nbNalu t) v
    (trk_codec t) (trk_samplerate t) (trk_naluState t).
Definition set_trk_codec {S} (v : option string) (t : Track S) : Track S :=
  mkTrack (trk_container t) (trk_type t) (trk_id t) (trk_streamType t) (trk_PID t)
    (trk_sequenceNumber t) (trk_samples t) (trk_len t) (trk_nbNalu t) (trk_dropped t)
    v (trk_samplerate t) (trk_naluState t).

(** The properties that [_parseHEVCPES] adds to the video track: the
    parameter sets seen last, and what the sequence parameter set says.
    They are kept beside the track, and are [None] on a track that
    [resetInitSegment] has just made. *)
Record HevcProps : Type := mkHevcProps {
  hp_vps : option (list (list Z));
  hp_sps : option (list (list Z));
  hp_pps : option (list (list Z));
  hp_width : option Z;
  hp_height : option Z;
  hp_duration : option Z;
  hp_chromaFormatIdc : option Z;
  hp_bitDepthLumaMinus8 : option Z;
  hp_bitDepthChromaMinus8 : option Z
}.

Definition no_props : HevcProps :=
  mkHevcProps None None None None None None None None None.

(** What the closures of [_parseHEVCPES] share: the track object, its
    added properties, and the variables [units2], [length] and [key]. *)
Record HevcLocals : Type := mkHevcLocals {
  hl_track : Track VideoSample;
  hl_props : HevcProps;
  hl_units2 : list NalUnit;
  hl_length : Z;
  hl_key : bool
}.

(** [v += k] and [v++] on a counter: an undefined counter becomes NaN
    and stays so, both are [None]. *)
Definition counter_add (v : option Z) (k : Z) : option Z := (fun n => n + k) <$> v.

(** The closure [pushAccesUnit].  [config] is [None] when [this.config]
    is undefined or null, and else the value of its property
    [forceKeyFrameOnDiscontinuity]. *)
Definition pushAccesUnit (config : option JSVal) (pes : Pes) (l : HevcLocals)
    : HevcLocals * outcome unit :=
  if bool_decide (hl_units2 l = []) then (l, Returned tt)
  else
    match config with
    | None => (l, Thrown (TypeError "this.config is undefined"))
    | Some forceKeyFrameOnDiscontinuity =>
        let track := hl_track l in
        let track :=
          if negb (val_truthy forceKeyFrameOnDiscontinuity) || hl_key l
             || bool_decide (is_Some (hp_sps (hl_props l)))
          then
            let avcSample :=
              mkVideoSample (hl_units2 l) (hl_length l) (pes_pts pes) (pes_dts pes)
                (hl_key l) in
            set_trk_nbNalu
              (counter_add (trk_nbNalu track) (Z.of_nat (length (hl_units2 l))))
              (set_trk_len (trk_len track + hl_length l)
                 (set_trk_samples (trk_samples track ++ [avcSample]) track))
          else set_trk_dropped (counter_add (trk_dropped track) 1) track in
        (mkHevcLocals track (hl_props l) [] 0 (hl_key l), Returned tt)
    end.

(** The unit types of the switch: slices that set [key], the other
    types that are kept, and the four that have a case of their own. *)
Definition hevc_key_types : list Z := [1; 3; 5; 7; 9; 19; 20; 21].
Definition hevc_plain_types : list Z := [0; 2; 4; 6; 8; 16; 17; 18; 36; 37; 38; 39; 40].
Definition VPS : Z := 32.
Definition SPS : Z := 33.
Definition PPS : Z := 34.
Definition AUD : Z := 35.

Definition set_hl_key (l : HevcLocals) : HevcLocals :=
  mkHevcLocals (hl_track l) (hl_props l) (hl_units2 l) (hl_length l) true.

Definition set_hl_props (v : HevcProps) (l : HevcLocals) : HevcLocals :=
  mkHevcLocals (hl_track l) v (hl_units2 l) (hl_length l) (hl_key l).

(** The [switch (unit.type)] of the callback given to [units.forEach]:
    the effects of the case taken, and the value it leaves in [push].
    [None] stands for a call of [readSPSHEVC] that does not return
    within [fuel] turns of a loop of [readUE]. *)
Definition hevc_switch (fuel : nat) (config : option JSVal) (duration : option Z)
    (pes : Pes) (unit : NalUnit) (l : HevcLocals) : option (HevcLocals * outcome bool) :=
  let p := hl_props l in
  match nal_type unit with
  | Some t =>
      if bool_decide (t ∈ hevc_key_types) then Some (set_hl_key l, Returned true)
      else if bool_decide (t ∈ hevc_plain_types) then Some (l, Returned true)
      else if t =? VPS then
        Some (set_hl_props
                (mkHevcProps (Some [nal_data unit]) (hp_sps p) (hp_pps p) (hp_width p)
                   (hp_height p) (hp_duration p) (hp_chromaFormatIdc p)
                   (hp_bitDepthLumaMinus8 p) (hp_bitDepthChromaMinus8 p)) l,
              Returned true)
      else if t =? SPS then
        let l :=
          set_hl_props
            (mkHevcProps (hp_vps p) (Some [nal_data unit]) (hp_pps p) (hp_width p)
               (hp_height p) (hp_duration p) (hp_chromaFormatIdc p)
               (hp_bitDepthLumaMinus8 p) (hp_bitDepthChromaMinus8 p)) l in
        match readSPSHEVC fuel (HEVCSpsParser_new (nal_data unit)) with
        | None => None
        | Some (Thrown e) => Some (l, Thrown e)
        | Some (Returned config) =>
            Some (mkHevcLocals (set_trk_codec (Some "hev1.1.6.L93.B0") (hl_track l))
                    (mkHevcProps (hp_vps p) (Some [nal_data unit]) (hp_pps p)
                       (Some (sps_width config)) (Some (sps_height config)) duration
                       (Some (sps_chromaFormatIdc config))
                       (Some (sps_bitDepthLumaMinus8 config))
                       (Some (sps_bitDepthChromaMinus8 config)))
                    (hl_units2 l) (hl_length l) (hl_key l),
                  Returned true)
        end
      else if t =? PPS then
        Some (set_hl_props
                (mkHevcProps (hp_vps p) (hp_sps p) (Some [nal_data unit]) (hp_width p)
                   (hp_height p) (hp_duration p) (hp_chromaFormatIdc p)
                   (hp_bitDepthLumaMinus8 p) (hp_bitDepthChromaMinus8 p)) l,
              Returned true)
      else if t =? AUD then
        match pushAccesUnit config pes l with
        | (l, Returned _) => Some (l, Returned false)
        | (l, Thrown e) => Some (l, Thrown e)
        end
      else Some (l, Returned false)
  | None => Some (l, Returned false)
  end.

(** The callback: the switch, then [if (push) { units2.push(unit);
    length += unit.data.byteLength; }]. *)
Definition hevc_unit (fuel : nat) (config : option JSVal) (duration : option Z)
    (pes : Pes) (unit : NalUnit) (l : HevcLocals)
    : option (HevcLocals * outcome Datatypes.unit) :=
  match hevc_switch fuel config duration pes unit l with
  | None => None
  | Some (l, Thrown e) => Some (l, Thrown e)
  | Some (l, Returned push) =>
      Some (if push : bool
            then mkHevcLocals (hl_track l) (hl_props l) (hl_units2 l ++ [unit])
                   (hl_length l + Z.of_nat (length (nal_data unit))) (hl_key l)
            else l,
            Returned tt)
  end.

(** [units.forEach(unit => ...)] *)
Fixpoint hevc_forEach (fuel : nat) (config : option JSVal) (duration : option Z)
    (pes : Pes) (units : list NalUnit) (l : HevcLocals)
    : option (HevcLocals * outcome unit) :=
  match units with
  | [] => Some (l, Returned tt)
  | unit :: units =>
      match hevc_unit fuel config duration pes unit l with
      | Some (l, Returned _) => hevc_forEach fuel config duration pes units l
      | r => r
      end
  end.

(** [_parseHEVCPES(pes)] on a track whose added properties are [props]:
    the world and the properties it leaves, and how it ends; [None] when
    it does not return.  With no unit found the payload is appended to
    the last unit of the last sample; else the units are sorted into
    access units, closed at each access unit delimiter and at the end. *)
Definition _parseHEVCPES (fuel : nat) (config : option JSVal) (pes : option Pes)
    (props : HevcProps) (w : World) : option (World * HevcProps * outcome unit) :=
  let declarations : M (Pes * list NalUnit * Track VideoSample) :=
    d ← get_this;
    field "this._videoTrack" (_videoTrack d);;
    pes ← field "pes" pes;
    units ← _parseHEVCNALu (pes_data pes);
    d ← get_this;
    track ← field "this._videoTrack" (_videoTrack d);
    track ←
      (if bool_decide (units = []) then
         lu ← last_unit_of track;
         match lu with
         | Some (lastavcSample, lastUnit) =>
             let track :=
               update_last_unit track lastavcSample lastUnit
                 (nal_data lastUnit ++ pes_data pes)
                 (Z.of_nat (length (pes_data pes))) in
             modify_this (set_videoTrack (Some track));;
             mret track
         | None => mret track
         end
       else mret track);
    mret (pes, units, track) in
  match declarations w with
  | (w, Thrown e) => Some (w, props, Thrown e)
  | (w, Returned (pes, units, track)) =>
      let store (l : HevcLocals) : World :=
        mkWorld (set_videoTrack (Some (hl_track l)) (this w)) (host w) in
      match hevc_forEach fuel config (_duration (this w)) pes units
              (mkHevcLocals track props [] 0 false) with
      | None => None
      | Some (l, Thrown e) => Some (store l, hl_props l, Thrown e)
      | Some (l, Returned _) =>
          let '(l, r) := pushAccesUnit config pes l in
          Some (store l, hl_props l, r)
      end
  end.

(** ** Definitions used in the statements on the HEVC path *)

(** The start codes of a byte stream, of three or four bytes. *)
Definition start_code (long : bool) : list Z :=
  if long then [0; 0; 0; 1] else [0; 0; 1].

(** A byte stream: every NAL unit behind a start code. *)
Definition nal_stream (nals : list (bool * list Z)) : list Z :=
  concat (map (fun x => start_code x.1 ++ x.2) nals).

(** No [00 00 00] and no [00 00 01] in [l]. *)
Fixpoint no_start_code (l : list Z) : bool :=
  match l with
  | a :: l1 =>
      match l1 with
      | b :: c :: _ =>
          negb ((a =? 0) && (b =? 0) && ((c =? 0) || (c =? 1))) && no_start_code l1
      | _ => true
      end
  | [] => true
  end.

(** A NAL unit as emulation prevention leaves it: bytes, none of the two
    patterns above, and a last byte that is not 0. *)
Definition nal_ok (n : list Z) : Prop :=
  bytes_ok n /\ no_start_code n = true /\ exists b, last n = Some b /\ b <> 0.

(** The field [nal_unit_type] of the NAL header: bits 1 to 6 of its
    first byte. *)
Definition nal_unit_type (n : list Z) : Z := (default 0 (head n) / 2) mod 64.

(** The units of a stream as the scanner reports them: the one left open
    at the end carries the scanner's state. *)
Fixpoint scanned_units (nals : list (list Z)) : list NalUnit :=
  match nals with
  | [] => []
  | n :: ns =>
      match ns with
      | [] => [mkNalUnit n (Some (nal_unit_type n)) (Some 0)]
      | _ :: _ => mkNalUnit n (Some (nal_unit_type n)) None :: scanned_units ns
      end
  end.

(** The unit types as [_parseHEVCPES] sorts them. *)
Definition is_aud (u : NalUnit) : bool := bool_decide (nal_type u = Some AUD).

Definition is_sps (u : NalUnit) : bool := bool_decide (nal_type u = Some SPS).

Definition hevc_is_key (u : NalUnit) : bool :=
  match nal_type u with
  | Some t => bool_decide (t ∈ hevc_key_types)
  | None => false
  end.

Definition hevc_kept (u : NalUnit) : bool :=
  match nal_type u with
  | Some t => bool_decide (t ∈ hevc_key_types ++ hevc_plain_types ++ [VPS; SPS; PPS])
  | None => false
  end.

Definition units_size (us : list NalUnit) : Z :=
  foldr (fun u a => Z.of_nat (length (nal_data u)) + a) 0 us.

(** The units of a PES in groups: a group ends before each access unit
    delimiter and at the end of the PES. *)
Fixpoint split_at_aud (units : list NalUnit) : list (list NalUnit) :=
  match units with
  | [] => [[]]
  | u :: units =>
      if is_aud u then [] :: split_at_aud units
      else match split_at_aud units with
           | g :: groups => (u :: g) :: groups
           | [] => [[u]]
           end
  end.

(** The access units of a PES with time stamps [pes]: every group that
    has a unit of a kept type makes one, of the kept units of the group.
    It is a key frame when the PES has a key slice in this group or in
    an earlier one; with [mandatory] it is pushed only if it is one, or
    if a sequence parameter set has been seen by the end of the group,
    [sps] telling whether the track had one before.  The boolean is
    [true] for an access unit that is pushed. *)
Fixpoint access_units (pes : Pes) (mandatory key sps : bool)
    (groups : list (list NalUnit)) : list (bool * VideoSample) :=
  match groups with
  | [] => []
  | g :: groups =>
      let key := key || existsb hevc_is_key g in
      let sps := sps || existsb is_sps g in
      let units := List.filter hevc_kept g in
      match units with
      | [] => access_units pes mandatory key sps groups
      | _ :: _ =>
          (negb mandatory || key || sps,
           mkVideoSample units (units_size units) (pes_pts pes) (pes_dts pes) key)
          :: access_units pes mandatory key sps groups
      end
  end.

(** The samples of the access units that are pushed. *)
Definition pushed (au : list (bool * VideoSample)) : list VideoSample :=
  (List.filter fst au).*2.

(** Whether the sequence parameter set [n] can be read. *)
Definition sps_readable (fuel : nat) (n : list Z) : Prop :=
  exists config, readSPSHEVC fuel (HEVCSpsParser_new n) = Some (Returned config).

(** The units of a list of samples, in order. *)
Definition samples_units (samples : list VideoSample) : list NalUnit :=
  concat (vs_units <$> samples).

(** What the access units [au] of a PES do to the video track: the
    samples pushed are appended, [len] grows by the size of their units
    and [nbNalu] by their number, [dropped] by the number of access
    units that are not pushed. *)
Definition track_after (au : list (bool * VideoSample)) (track track' : Track VideoSample)
    : Prop :=
  trk_samples track' = trk_samples track ++ pushed au /\
  trk_len track' = trk_len track + units_size (samples_units (pushed au)) /\
  trk_nbNalu track'
  = counter_add (trk_nbNalu track) (Z.of_nat (length (samples_units (pushed au)))) /\
  trk_dropped track'
  = counter_add (trk_dropped track) (Z.of_nat (length au) - Z.of_nat (length (pushed au))).

(** Examples: NAL units of the types 35 (access unit delimiter), 32, 34,
    19 and 1, the two parameter sets above with their emulation
    prevention bytes, a PES that holds a key frame and the picture after
    it, and a demuxer after [resetInitSegment] whose scanner state is 0. *)
Definition aud_nal : list Z := [0x46; 0x01; 0x50].
Definition vps_nal : list Z := [0x40; 0x01; 0x0c; 0x01; 0xff].
Definition pps_nal : list Z := [0x44; 0x01; 0xc1; 0x72].
Definition idr_nal : list Z := [0x26; 0x01; 0xaf; 0x08].
Definition trail_nal : list Z := [0x02; 0x01; 0xd0; 0x80].

Definition sps_720p_nal : list Z :=
  [0x42; 0x01; 0x03; 0x01; 0x60; 0x00; 0x00; 0x03; 0x00; 0x90; 0x01; 0x01; 0x01; 0x01;
   0x01; 0x5d; 0xc0; 0x00; 0x21; 0x12; 0x34; 0x56; 0x78; 0x9a; 0xbc; 0xde; 0xf1; 0x23;
   0x45; 0x5d; 0xa0; 0x02; 0x80; 0x80; 0x2d; 0x16].

Definition sps_1080p_nal : list Z :=
  [0x42; 0x01; 0x01; 0x01; 0x60; 0x00; 0x00; 0x03; 0x00; 0x90; 0x01; 0x01; 0x01; 0x01;
   0x01; 0x5d; 0xa0; 0x03; 0xc0; 0x80; 0x10; 0xe7; 0xca].

Definition key_frame_nals (sps : list Z) : list (bool * list Z) :=
  [(true, aud_nal); (true, vps_nal); (true, sps); (true, pps_nal); (false, idr_nal);
   (true, aud_nal); (false, trail_nal)].

Definition key_frame_pes (sps : list Z) : Pes :=
  mkPes (nal_stream (key_frame_nals sps)) (Some 183600) (Some 180000) (Int 0).

Definition scanning_world : World :=
  mkWorld
    (set_avcNaluState (Some 0)
       (resetInitSegment VUndefined None None (Some 900000) (new_demuxer None)))
    ∅.

(** * Theorems *)

(** ** Text-track insertion (C7) *)

Lemma pts_sortedb_spec (arr : list Cea608Sample) :
  pts_sortedb arr = true <-> pts_sorted arr.
Proof.
  induction arr as [|a [|b r] IH].
  - split; [|done]. intros _ i j x y _ Hi. by rewrite lookup_nil in Hi.
  - split; [|done]. intros _ [|i] [|j] x y Hij Hi Hj; simplify_eq/=; lia.
  - cbn [pts_sortedb]. rewrite andb_true_iff, IH, Z.leb_le. split.
    + intros [Hab Hs] [|i] [|j] x y Hij Hi Hj; simplify_eq/=; try lia.
      * destruct j as [|j]; simplify_eq/=; [done|].
        etrans; [exact Hab|]. apply (Hs 0%nat (S j) b y); [lia|done|done].
      * apply (Hs i j x y); [lia|done|done].
    + intros Hs. split.
      * apply (Hs 0%nat 1%nat a b); [lia|done|done].
      * intros i j x y Hij Hi Hj. apply (Hs (S i) (S j) x y); [lia|done|done].
Qed.


(** C7 (code defect), evaluated on the code: on the sorted track with PTS 1, 5, 9 the
    insertion of a sample with PTS 3 returns the track 1, 5, 3, 9, which
    is not in non-decreasing PTS order. *)
Theorem insertSampleInOrder_breaks_order :
  let s := fun p => mkCea608 3 p [] in
  pts_sorted [s 1; s 5; s 9] /\
  _insertSampleInOrder [s 1; s 5; s 9] (s 3) = [s 1; s 5; s 3; s 9] /\
  ~ pts_sorted (_insertSampleInOrder [s 1; s 5; s 9] (s 3)).
Proof.
  cbv zeta. split; [|split].
  - by apply pts_sortedb_spec.
  - reflexivity.
  - intros Hs. apply pts_sortedb_spec in Hs. discriminate Hs.
Qed.

(** ** Emulation-prevention bytes (C6) *)

Lemma epb_wf_mono (src src' len : nat) (E : list nat) :
  (src' <= src)%nat -> epb_wf src len E -> epb_wf src' len E.
Proof. destruct E as [|p E]; cbn; [done|]. intros ? [? ?]. split; [lia|done]. Qed.

Lemma epb_wf_head (src len : nat) (E : list nat) :
  epb_wf (S src) len E -> head E <> Some src.
Proof. destruct E as [|p E]; cbn; [done|]. intros [? _] [= ->]. lia. Qed.

Lemma epb_wf_length (src len : nat) (E : list nat) :
  epb_wf src len E -> E <> [] -> (src + 2 * length E <= len + 1)%nat.
Proof.
  revert src. induction E as [|p E IH]; intros src; cbn; [done|].
  intros [Hp Hwf] _. destruct E as [|q E]; [cbn; lia|].
  specialize (IH _ Hwf ltac:(done)). cbn [length] in *. lia.
Qed.

Lemma discardEPB_scan_wf (fuel : nat) (data : list Z) (i : nat) :
  epb_wf (i + 2) (length data) (discardEPB_scan fuel data i).
Proof.
  revert i. induction fuel as [|fuel IH]; intros i; cbn; [done|].
  case_bool_decide; [|done].
  destruct (_ && _).
  - cbn. split; [lia|]. replace (i + 2 + 2)%nat with (i + 2 + 2)%nat by lia. apply IH.
  - eapply epb_wf_mono; [|apply IH]. lia.
Qed.

Lemma remove_at_nil (src : nat) (l : list Z) : remove_at src [] l = l.
Proof. revert src. induction l as [|x l IH]; intros src; cbn; [done|]. by rewrite IH. Qed.

Lemma discardEPB_copy_remove (n : nat) (data : list Z) (E : list nat) (src : nat) :
  epb_wf src (length data) E ->
  (n + length E + src = length data)%nat ->
  discardEPB_copy n data E src = remove_at src E (drop src data).
Proof.
  revert E src. induction n as [|n IH]; intros E src Hwf Hlen.
  - cbn. destruct E as [|p E].
    + rewrite drop_ge by (cbn in Hlen; lia). done.
    + pose proof (epb_wf_length _ _ _ Hwf ltac:(done)) as Hb.
      cbn [length] in *. destruct Hwf as [Hp _].
      assert (E = []) as -> by (destruct E; [done|cbn in *; lia]).
      assert (p = src) as -> by (cbn in *; lia).
      destruct (lookup_lt_is_Some_2 data src ltac:(lia)) as [x Hx].
      rewrite (drop_S _ _ _ Hx). rewrite drop_ge by (cbn in *; lia).
      cbn. by rewrite bool_decide_true.
  - destruct (lookup_lt_is_Some_2 data src ltac:(lia)) as [x Hx].
    rewrite (drop_S _ _ _ Hx). cbn [discardEPB_copy remove_at].
    case_bool_decide as Hh.
    + destruct E as [|p E]; [done|]. cbn in Hh. simplify_eq.
      cbn [tail length] in *. destruct Hwf as [_ Hwf].
      destruct (lookup_lt_is_Some_2 data (S src) ltac:(lia)) as [y Hy].
      rewrite (drop_S _ _ _ Hy). cbn [remove_at].
      rewrite bool_decide_false.
      2:{ apply epb_wf_head with (len := length data).
          eapply epb_wf_mono; [|exact Hwf]. lia. }
      rewrite Hy. cbn [int_of]. f_equal.
      apply IH; [|lia]. eapply epb_wf_mono; [|exact Hwf]. lia.
    + rewrite Hx. cbn [int_of]. f_equal.
      apply IH; [|lia].
      destruct E as [|p E]; [done|]. cbn in *. destruct Hwf as [? ?].
      split; [|done]. assert (p <> src) by congruence. lia.
Qed.

Lemma strip_epb_short (l : list Z) : (length l <= 2)%nat -> strip_epb l = l.
Proof. destruct l as [|a [|b [|c r]]]; cbn; try done. lia. Qed.

Lemma strip_epb_three (r : list Z) : strip_epb (3 :: r) = 3 :: strip_epb r.
Proof. cbn [strip_epb]. destruct r as [|b [|c r]]; done. Qed.

Lemma remove_at_keep (src : nat) (E : list nat) (x : Z) (r : list Z) :
  head E <> Some src -> remove_at src E (x :: r) = x :: remove_at (S src) E r.
Proof. intros H. cbn [remove_at]. by rewrite bool_decide_false. Qed.

Lemma strip_epb_triple (r : list Z) :
  strip_epb (0 :: 0 :: 3 :: r) = 0 :: 0 :: strip_epb r.
Proof. done. Qed.

Lemma strip_epb_other (a b c : Z) (r : list Z) :
  ~ (a = 0 /\ b = 0 /\ c = 3) ->
  strip_epb (a :: b :: c :: r) = a :: strip_epb (b :: c :: r).
Proof.
  intros H. change (strip_epb (a :: b :: c :: r)) with
    (if (a =? 0) && (b =? 0) && (c =? 3)
     then a :: b :: strip_epb r else a :: strip_epb (b :: c :: r)).
  destruct (Z.eqb_spec a 0), (Z.eqb_spec b 0), (Z.eqb_spec c 3); cbn [andb]; tauto.
Qed.

Lemma remove_at_scan_strip (fuel : nat) (data : list Z) (i : nat) :
  (length data <= i + fuel)%nat ->
  remove_at i (discardEPB_scan fuel data i) (drop i data) = strip_epb (drop i data).
Proof.
  revert i. induction fuel as [|fuel IH]; intros i Hf.
  - rewrite drop_ge by lia. done.
  - cbn [discardEPB_scan]. case_bool_decide as Hi.
    2:{ rewrite remove_at_nil, strip_epb_short; [done|]. rewrite length_drop. lia. }
    destruct (lookup_lt_is_Some_2 data i ltac:(lia)) as [a Ha].
    destruct (lookup_lt_is_Some_2 data (i + 1) ltac:(lia)) as [b Hb].
    destruct (lookup_lt_is_Some_2 data (i + 2) ltac:(lia)) as [c Hc].
    pose proof (IH (i + 2)%nat ltac:(lia)) as IH2.
    pose proof (IH (i + 1)%nat ltac:(lia)) as IH1.
    pose proof (discardEPB_scan_wf fuel data (i + 2)) as W2.
    pose proof (discardEPB_scan_wf fuel data (i + 1)) as W1.
    rewrite (drop_S _ _ _ Ha). replace (S i) with (i + 1)%nat in * by lia.
    rewrite (drop_S _ _ _ Hb) in *. replace (S (i + 1)) with (i + 2)%nat in * by lia.
    rewrite (drop_S _ _ _ Hc) in *. replace (S (i + 2)) with (i + 3)%nat in * by lia.
    rewrite Ha, Hb, Hc.
    set (r := drop (i + 3) data) in *.
    destruct (decide (a = 0 /\ b = 0 /\ c = 3)) as [(-> & -> & ->)|Hn].
    + rewrite !bool_decide_true by done. cbn [andb].
      rewrite strip_epb_triple.
      rewrite remove_at_keep by (cbn; intros [=]; lia).
      rewrite remove_at_keep by (cbn; intros [=]; lia).
      replace (S (S i)) with (i + 2)%nat by lia.
      cbn [remove_at head tail]. rewrite bool_decide_true by done.
      f_equal. f_equal.
      rewrite strip_epb_three in IH2. rewrite remove_at_keep in IH2.
      2:{ apply epb_wf_head with (len := length data).
          eapply epb_wf_mono; [|exact W2]. lia. }
      replace (S (i + 2)) with (i + 3)%nat in * by lia.
      by simplify_eq.
    + rewrite strip_epb_other by done.
      replace (bool_decide (Some a = Some 0) && bool_decide (Some b = Some 0)
               && bool_decide (Some c = Some 3)) with false.
      2:{ symmetry. apply not_true_is_false. intros Ht.
          apply andb_true_iff in Ht as [Ht H3]. apply andb_true_iff in Ht as [H1 H2].
          apply bool_decide_eq_true in H1, H2, H3. naive_solver. }
      rewrite remove_at_keep.
      2:{ apply epb_wf_head with (len := length data).
          eapply epb_wf_mono; [|exact W1]. lia. }
      f_equal. replace (S i) with (i + 1)%nat by lia. exact IH1.
Qed.

Lemma discardEPB_spec (data : list Z) :
  discardEPB data = match data with [] => [] | h :: t => h :: strip_epb t end.
Proof.
  destruct data as [|h t]; [done|].
  unfold discardEPB.
  pose proof (remove_at_scan_strip (length (h :: t)) (h :: t) 1 ltac:(lia)) as Hs.
  pose proof (discardEPB_scan_wf (length (h :: t)) (h :: t) 1) as Hwf.
  cbn [drop] in Hs. rewrite drop_0 in Hs.
  destruct (discardEPB_scan (length (h :: t)) (h :: t) 1) as [|p E] eqn:HE.
  - rewrite remove_at_nil in Hs. by rewrite <- Hs.
  - pose proof (epb_wf_length _ _ _ Hwf ltac:(done)) as Hb.
    rewrite discardEPB_copy_remove.
    + rewrite drop_0. cbn [remove_at]. rewrite bool_decide_false.
      2:{ apply epb_wf_head with (len := length (h :: t)).
          eapply epb_wf_mono; [|exact Hwf]. lia. }
      by rewrite Hs.
    + eapply epb_wf_mono; [|exact Hwf]. lia.
    + cbn [length] in *. lia.
Qed.

Lemma strip_epb_id (l : list Z) :
  (forall k, ~ epb_at l k) -> strip_epb l = l.
Proof.
  induction l as [|a l IH]; [done|]. intros Hno.
  assert (strip_epb l = l) as Hl.
  { apply IH. intros k Hk. apply (Hno (S k)). exact Hk. }
  cbn [strip_epb]. destruct l as [|b [|c r]]; [done|by rewrite Hl|].
  destruct ((a =? 0) && (b =? 0) && (c =? 3)) eqn:Ht; [|by rewrite Hl].
  exfalso. apply (Hno 0%nat).
  apply andb_true_iff in Ht as [Ht Hc]. apply andb_true_iff in Ht as [Ha Hb].
  apply Z.eqb_eq in Ha, Hb, Hc. subst. by repeat split.
Qed.

(** C6 (amended): [discardEPB] leaves byte 0 alone and, from offset 1 on,
    removes exactly the 0x03 of every 0x00 0x00 0x03 triple, all other
    bytes staying in order; it returns its input when no triple begins
    at an offset of 1 or more. *)
Theorem discardEPB_strips_from_offset_1 (data : list Z) :
  discardEPB data = match data with [] => [] | h :: t => h :: strip_epb t end /\
  ((forall k, (1 <= k)%nat -> ~ epb_at data k) -> discardEPB data = data).
Proof.
  split; [apply discardEPB_spec|].
  intros Hno. rewrite discardEPB_spec. destruct data as [|h t]; [done|].
  rewrite strip_epb_id; [done|].
  intros k Hk. apply (Hno (S k)); [lia|exact Hk].
Qed.

(** C6, counterexample: the triple at offset 0 of 00 00 03 01 is kept,
    although stripping every triple would give 00 00 01. *)
Lemma discardEPB_keeps_triple_at_0 :
  epb_at [0; 0; 3; 1] 0 /\
  discardEPB [0; 0; 3; 1] = [0; 0; 3; 1] /\
  strip_epb [0; 0; 3; 1] = [0; 0; 1] /\
  discardEPB [0; 0; 3; 1] <> strip_epb [0; 0; 3; 1].
Proof. repeat split; by vm_compute. Qed.

(** ** The HEVC bit reader (C10) *)

Lemma subarray_nat (a : list Z) (b e : nat) :
  (b <= e <= length a)%nat ->
  subarray a (Int (Z.of_nat b)) (Int (Z.of_nat e)) = take (e - b) (drop b a).
Proof.
  intros H. unfold subarray, rel_index.
  destruct (Z.ltb_spec (Z.of_nat b) 0); [lia|].
  destruct (Z.ltb_spec (Z.of_nat e) 0); [lia|].
  rewrite !Z.min_l by lia. rewrite Nat2Z.id. f_equal. lia.
Qed.

Lemma getByte_past_end (p : HEVCSpsParser) :
  bytesAvailable p = 0%nat ->
  (getByte p).1 = 0 /\ bytesAvailable (getByte p).2 = 0%nat.
Proof.
  intros H0. unfold getByte. rewrite H0. cbn [fst snd bytesAvailable Nat.min].
  rewrite subarray_nat by lia.
  replace (_ - 0 + 0 - (_ - 0))%nat with 0%nat by lia.
  by rewrite take_0.
Qed.

Lemma getByte_pending (p : HEVCSpsParser) :
  (bytesAvailable p <= length (sps_data p))%nat ->
  (getByte p).1 = default 0 (head (pending p)) /\
  pending (getByte p).2 = tail (pending p) /\
  (bytesAvailable (getByte p).2 <= length (sps_data (getByte p).2))%nat /\
  firstByte (getByte p).2 = firstByte p /\
  cache (getByte p).2 = cache p /\
  bitsInCache (getByte p).2 = bitsInCache p.
Proof.
  intros Hle. unfold getByte, pending.
  cbn [fst snd sps_data bytesAvailable firstByte cache bitsInCache].
  rewrite subarray_nat by lia.
  destruct (bytesAvailable p) as [|n] eqn:Hn.
  - cbn [Nat.min].
    replace (_ - 0 + 0 - (_ - 0))%nat with 0%nat by lia.
    rewrite take_0. cbn. rewrite Nat.sub_0_r, drop_all. repeat split; try done; lia.
  - replace (Nat.min 1 (S n)) with 1%nat by lia.
    set (pos := (length (sps_data p) - S n)%nat).
    replace (pos + 1 - pos)%nat with 1%nat by lia.
    destruct (lookup_lt_is_Some_2 (sps_data p) pos ltac:(lia)) as [x Hx].
    rewrite (drop_S _ _ _ Hx). cbn [take app lookup list_lookup head tail int_of].
    replace (length (sps_data p) - (S n - 1))%nat with (S pos) by lia.
    repeat split; try done. lia.
Qed.

Lemma zero_ext_getByte (p q : HEVCSpsParser) :
  zero_ext p q ->
  (getByte p).1 = (getByte q).1 /\ zero_ext (getByte p).2 (getByte q).2.
Proof.
  intros (Hf & Hc & Hb & Hp & Hq & k & Hk).
  destruct (getByte_pending p Hp) as (Vp & Pp & Lp & Fp & Cp & Bp).
  destruct (getByte_pending q Hq) as (Vq & Pq & Lq & Fq & Cq & Bq).
  assert (default 0 (head (pending q)) = default 0 (head (pending p)) /\
          exists k', tail (pending q) = tail (pending p) ++ replicate k' 0) as [Hv Ht].
  { rewrite Hk. destruct (pending p) as [|x r].
    - destruct k as [|k]; cbn; split; try done; [by exists 0%nat|by exists k].
    - cbn. split; [done|by exists k]. }
  split; [congruence|].
  unfold zero_ext. rewrite Fp, Fq, Cp, Cq, Bp, Bq, Pp, Pq. done.
Qed.

Lemma zero_ext_read_step (p q : HEVCSpsParser) :
  zero_ext p q -> zero_ext (read_step p) (read_step q).
Proof.
  intros H. unfold read_step.
  destruct (zero_ext_getByte p q H) as [Hv H1].
  destruct (getByte p) as [b1 p1], (getByte q) as [b1' q1]. cbn [fst snd] in *. subst b1'.
  pose proof H1 as (Hf & Hc & Hb & _).
  rewrite <- Hf, <- Hc.
  destruct ((b1 =? 3) && (firstByte p1 =? 0) && (js_and (cache p1) 255 =? 0)).
  - destruct (zero_ext_getByte p1 q1 H1) as [Hv2 H2].
    destruct (getByte p1) as [b2 p2], (getByte q1) as [b2' q2]. cbn [fst snd] in *. subst b2'.
    destruct H2 as (Hf2 & Hc2 & Hb2 & Hl2 & Hl2' & Hk2). unfold zero_ext, pending in *. cbn.
    rewrite Hf2, Hc2, Hb2. done.
  - destruct H1 as (Hf1 & Hc1 & Hb1 & Hl1 & Hl1' & Hk1). unfold zero_ext, pending in *. cbn.
    rewrite Hf1, Hc1, Hb1. done.
Qed.

Lemma zero_ext_read_loop (fuel : nat) (nbits : Z) (p q : HEVCSpsParser) :
  zero_ext p q -> zero_ext (read_loop fuel nbits p) (read_loop fuel nbits q).
Proof.
  revert p q. induction fuel as [|fuel IH]; intros p q H; cbn [read_loop]; [done|].
  pose proof H as (_ & _ & Hb & _). rewrite <- Hb.
  destruct (bitsInCache p <? nbits); [|done].
  by apply IH, zero_ext_read_step.
Qed.

Lemma zero_ext_read (nbits : Z) (p q : HEVCSpsParser) :
  zero_ext p q -> zero_ext (read nbits p) (read nbits q).
Proof.
  intros H. unfold read. pose proof H as (_ & _ & Hb & _). rewrite <- Hb.
  by apply zero_ext_read_loop.
Qed.

Lemma zero_ext_set_bitsInCache (v : Z) (p q : HEVCSpsParser) :
  zero_ext p q -> zero_ext (set_bitsInCache v p) (set_bitsInCache v q).
Proof. intros (? & ? & ? & ? & ? & ?). unfold zero_ext, pending in *. cbn. done. Qed.

Lemma zero_ext_skipBits (nbits : Z) (p q : HEVCSpsParser) :
  zero_ext p q -> zero_ext (skipBits nbits p) (skipBits nbits q).
Proof.
  intros H. unfold skipBits. apply (zero_ext_read nbits) in H.
  pose proof H as (_ & _ & Hb & _). rewrite <- Hb. by apply zero_ext_set_bitsInCache.
Qed.

Lemma zero_ext_readBits (nbits : Z) (p q : HEVCSpsParser) :
  zero_ext p q ->
  (readBits nbits p).1 = (readBits nbits q).1 /\
  zero_ext (readBits nbits p).2 (readBits nbits q).2.
Proof.
  intros H. unfold readBits. apply (zero_ext_read nbits) in H.
  pose proof H as (Hf & Hc & Hb & _). rewrite <- Hf, <- Hc, <- Hb. cbn [fst snd].
  split; [done|]. by apply zero_ext_set_bitsInCache.
Qed.

Lemma zero_ext_run_calls (cs : list reader_call) (p q : HEVCSpsParser) :
  zero_ext p q -> (run_calls cs p).1 = (run_calls cs q).1.
Proof.
  revert p q. induction cs as [|[n|n] cs IH]; intros p q H; [done| |].
  - cbn [run_calls]. destruct (zero_ext_readBits n p q H) as [Hv H1].
    destruct (readBits n p) as [v p1], (readBits n q) as [v' q1]. cbn [fst snd] in *.
    specialize (IH p1 q1 H1).
    destruct (run_calls cs p1), (run_calls cs q1). cbn in *. congruence.
  - cbn [run_calls]. specialize (IH _ _ (zero_ext_skipBits n p q H)).
    destruct (run_calls cs (skipBits n p)), (run_calls cs (skipBits n q)).
    cbn in *. congruence.
Qed.

Lemma zero_ext_new (data : list Z) (k : nat) :
  zero_ext (HEVCSpsParser_new data) (HEVCSpsParser_new (data ++ replicate k 0)).
Proof.
  unfold zero_ext, pending. cbn. rewrite !Nat.sub_diag, !drop_0.
  repeat split; try done. by exists k.
Qed.

(** The loop of [read] ends with its condition false: the turns allotted
    to it were enough. *)
Lemma bitsInCache_read_step (p : HEVCSpsParser) :
  bitsInCache (read_step p) = bitsInCache p + 8.
Proof.
  unfold read_step. unfold getByte at 1. cbn [bitsInCache firstByte cache].
  match goal with |- context [if ?c then _ else _] => destruct c end; reflexivity.
Qed.

Lemma read_loop_exit (fuel : nat) (nbits : Z) (p : HEVCSpsParser) :
  nbits <= bitsInCache p + 8 * Z.of_nat fuel ->
  nbits <= bitsInCache (read_loop fuel nbits p).
Proof.
  revert p. induction fuel as [|fuel IH]; intros p H; cbn [read_loop]; [lia|].
  destruct (Z.ltb_spec (bitsInCache p) nbits); [|lia].
  apply IH. rewrite bitsInCache_read_step. lia.
Qed.

Lemma read_exit (nbits : Z) (p : HEVCSpsParser) :
  nbits <= bitsInCache (read nbits p).
Proof.
  unfold read. apply read_loop_exit.
  destruct (Z.le_gt_cases nbits (bitsInCache p)) as [Hle|Hgt]; [lia|].
  rewrite Z2Nat.id by (apply Z.div_pos; lia).
  pose proof (Z.mul_succ_div_gt (nbits - bitsInCache p + 7) 8 ltac:(lia)). lia.
Qed.

(** C10: past the end of its input the reader is total.  Once
    [bytesAvailable] is 0, [getByte] returns 0 and consumes nothing; the
    slice it copies into its one-byte array never exceeds one byte, so
    the copy cannot throw; the loop of [read] always ends with enough
    bits cached; and any run of [readBits] and [skipBits] calls returns
    the same values on [data] as on [data] followed by [k] zero bytes. *)
Theorem hevc_reader_total_past_end (data : list Z) (cs : list reader_call) (k : nat) :
  (forall p, bytesAvailable p = 0%nat ->
     (getByte p).1 = 0 /\ bytesAvailable (getByte p).2 = 0%nat) /\
  (forall p,
     let position := (length (sps_data p) - bytesAvailable p)%nat in
     (length (subarray (sps_data p) (Int (Z.of_nat position))
                (Int (Z.of_nat (position + Nat.min 1 (bytesAvailable p))))) <= 1)%nat) /\
  (forall nbits p, nbits <= bitsInCache (read nbits p)) /\
  (run_calls cs (HEVCSpsParser_new data)).1
  = (run_calls cs (HEVCSpsParser_new (data ++ replicate k 0))).1.
Proof.
  split; [apply getByte_past_end|]. split; [|split; [apply read_exit|]].
  - intros p position. unfold subarray, rel_index.
    destruct (Z.ltb_spec (Z.of_nat position) 0); [lia|].
    destruct (Z.ltb_spec (Z.of_nat (position + Nat.min 1 (bytesAvailable p))) 0); [lia|].
    rewrite length_take. lia.
  - apply zero_ext_run_calls, zero_ext_new.
Qed.

(** ** PES parsing (C3, C5) *)

Lemma to_int32_small (z : Z) : - 2 ^ 31 <= z < 2 ^ 31 -> to_int32 z = z.
Proof. intros H. unfold to_int32. rewrite Z.mod_small; lia. Qed.

Lemma elem_lookup (a : list Z) (i : nat) : elem a (Z.of_nat i) = a !! i.
Proof. unfold elem. destruct (Z.ltb_spec (Z.of_nat i) 0); [lia|]. by rewrite Nat2Z.id. Qed.

Lemma int_of_elem_byte (b : list Z) (i : Z) :
  bytes_ok b -> 0 <= int_of (elem b i) < 256.
Proof.
  intros Hb. unfold elem. destruct (i <? 0); [cbn; lia|].
  destruct (b !! Z.to_nat i) as [x|] eqn:Hx; [|cbn; lia].
  cbn [int_of]. eapply Forall_lookup_1 in Hb; [|exact Hx]. exact Hb.
Qed.

Lemma byte_cases (P : Z -> bool) :
  forallb P (seqZ 0 256) = true -> forall x, 0 <= x < 256 -> P x = true.
Proof.
  intros H x Hx. rewrite forallb_forall in H. apply H.
  apply list_elem_of_In, elem_of_seqZ. lia.
Qed.

Lemma js_and_byte_0E (x : Z) : 0 <= x < 256 -> js_and x 0x0E = 2 * ((x / 2) mod 8).
Proof.
  intros Hx. apply Z.eqb_eq.
  apply (byte_cases (fun x => js_and x 0x0E =? 2 * ((x / 2) mod 8))); [by vm_compute|done].
Qed.

Lemma js_and_byte_FE (x : Z) : 0 <= x < 256 -> js_and x 0xFE = 2 * (x / 2).
Proof.
  intros Hx. apply Z.eqb_eq.
  apply (byte_cases (fun x => js_and x 0xFE =? 2 * (x / 2))); [by vm_compute|done].
Qed.

Lemma js_and_byte_FF (x : Z) : 0 <= x < 256 -> js_and x 0xFF = x.
Proof.
  intros Hx. apply Z.eqb_eq.
  apply (byte_cases (fun x => js_and x 0xFF =? x)); [by vm_compute|done].
Qed.

Lemma js_shl_byte_8 (x : Z) : 0 <= x < 256 -> js_shl x 8 = x * 256.
Proof.
  intros Hx. apply Z.eqb_eq.
  apply (byte_cases (fun x => js_shl x 8 =? x * 256)); [by vm_compute|done].
Qed.

Lemma js_shl_byte_16 (x : Z) : 0 <= x < 256 -> js_shl x 16 = x * 65536.
Proof.
  intros Hx. apply Z.eqb_eq.
  apply (byte_cases (fun x => js_shl x 16 =? x * 65536)); [by vm_compute|done].
Qed.

(** The reconstruction formula inverts the marker layout. *)
Lemma read_timestamp_pts_bytes (b : list Z) (o : nat) (hi p : Z) :
  0 <= p < 2 ^ 33 -> 0 <= hi < 16 ->
  take 5 (drop o b) = pts_bytes hi p ->
  read_timestamp b (Z.of_nat o) = wrap33 p.
Proof.
  intros Hp Hhi Hb. unfold wrap33, pts_bytes in *.
  change (2 ^ 30) with 1073741824 in *. change (2 ^ 22) with 4194304 in *.
  change (2 ^ 15) with 32768 in *. change (2 ^ 7) with 128 in *.
  change (2 ^ 32 - 1) with 4294967295. change (2 ^ 33) with 8589934592 in *.
  set (bs := [_; _; _; _; _]) in *.
  assert (forall k x, bs !! k = Some x -> elem b (Z.of_nat o + Z.of_nat k) = Some x) as Hk.
  { intros k x Hx. rewrite <- Nat2Z.inj_add, elem_lookup.
    rewrite <- Hb in Hx. apply lookup_take_Some in Hx as [Hx _].
    by rewrite lookup_drop in Hx. }
  pose proof (Hk 0%nat _ eq_refl) as H0. pose proof (Hk 1%nat _ eq_refl) as H1.
  pose proof (Hk 2%nat _ eq_refl) as H2. pose proof (Hk 3%nat _ eq_refl) as H3.
  pose proof (Hk 4%nat _ eq_refl) as H4.
  change (Z.of_nat 0) with 0 in H0. rewrite Z.add_0_r in H0.
  change (Z.of_nat 1) with 1 in H1. change (Z.of_nat 2) with 2 in H2.
  change (Z.of_nat 3) with 3 in H3. change (Z.of_nat 4) with 4 in H4.
  unfold read_timestamp. rewrite H0, H1, H2, H3, H4.
  cbn [int_of].
  rewrite js_and_byte_0E, !js_and_byte_FE, !js_and_byte_FF
    by (Z.div_mod_to_equations; lia).
  match goal with |- (if _ <? ?t then _ else _) = _ => assert (t = p) as -> end.
  { Z.div_mod_to_equations. lia. }
  done.
Qed.

Lemma merge_head_spec (d : list Z) (ds : list (list Z)) :
  let '(frag, rest) := merge_head d ds in
  frag ++ concat rest = d ++ concat ds /\ ((19 <= length frag)%nat \/ rest = []).
Proof.
  revert d. induction ds as [|next ds IH]; intros d; cbn [merge_head].
  - split; [done|by right].
  - destruct (Nat.ltb_spec (length d) 19).
    + specialize (IH (d ++ next)). destruct (merge_head (d ++ next) ds) as [frag rest].
      destruct IH as [IH1 IH2]. split; [|done]. rewrite IH1. cbn. by rewrite <- app_assoc.
    + split; [done|by left].
Qed.

(** Header bytes are read from the merged head slice, which agrees with
    the whole accumulator on its first 19 bytes. *)
Lemma merge_head_elem (d : list Z) (ds : list (list Z)) (i : Z) :
  i < 19 -> elem (merge_head d ds).1 i = elem (d ++ concat ds) i.
Proof.
  intros Hi. pose proof (merge_head_spec d ds) as H.
  destruct (merge_head d ds) as [frag rest]. destruct H as [<- H]. cbn [fst].
  unfold elem. destruct (Z.ltb_spec i 0); [done|].
  destruct H as [H| ->].
  - rewrite lookup_app_l by lia. done.
  - cbn. by rewrite app_nil_r.
Qed.

Lemma subarray_from (a : list Z) (p : Z) :
  0 <= p <= Z.of_nat (length a) ->
  subarray a (Int p) (Int (Z.of_nat (length a))) = drop (Z.to_nat p) a.
Proof.
  intros Hp. unfold subarray, rel_index.
  destruct (Z.ltb_spec p 0); [lia|].
  destruct (Z.ltb_spec (Z.of_nat (length a)) 0); [lia|].
  rewrite !Z.min_l by lia.
  apply take_ge. rewrite length_drop. lia.
Qed.

Lemma pes_reassemble_spec (frags : list (list Z)) (p : Z) (dst : list Z) (i : nat) :
  0 <= p <= Z.of_nat (length (concat frags)) ->
  Z.of_nat (length dst) = Z.of_nat i + Z.of_nat (length (concat frags)) - p ->
  pes_reassemble frags (Int p) dst i
  = Returned (take i dst ++ drop (Z.to_nat p) (concat frags)).
Proof.
  revert p dst i. induction frags as [|frag rest IH]; intros p dst i Hp Hlen.
  - cbn in *. rewrite take_ge by lia. by rewrite drop_nil, app_nil_r.
  - cbn [pes_reassemble concat] in *. rewrite length_app in *.
    destruct (Z.eqb_spec p 0) as [->|Hp0].
    + unfold typed_set. rewrite bool_decide_true by lia.
      rewrite IH; [|lia|rewrite !length_app, length_take, length_drop; lia].
      f_equal. cbn [Z.to_nat]. rewrite !drop_0.
      rewrite app_assoc, take_app_length'; [by rewrite <- app_assoc|].
      rewrite length_app, length_take. lia.
    + destruct (Z.ltb_spec (Z.of_nat (length frag)) p) as [Hlt|Hge].
      * rewrite IH by lia. f_equal. f_equal.
        rewrite drop_app_ge by lia. f_equal. lia.
      * rewrite subarray_from by lia. unfold typed_set. rewrite length_drop.
        rewrite bool_decide_true by lia.
        rewrite IH; [|lia|rewrite !length_app, length_take, !length_drop; lia].
        f_equal. cbn [Z.to_nat]. rewrite drop_0.
        rewrite (drop_app_le frag) by lia.
        rewrite app_assoc, take_app_length'; [by rewrite <- app_assoc|].
        rewrite length_app, length_take, length_drop. lia.
Qed.

(** The three header bytes spell 0x000001 exactly when the prefix read by
    the code is 1. *)
Lemma pes_prefix_one (b : list Z) :
  bytes_ok b ->
  num_add (Int (js_shl (int_of (elem b 0)) 16 + js_shl (int_of (elem b 1)) 8))
          (num_of (elem b 2)) = Int 1
  <-> take 3 b = [0; 0; 1].
Proof.
  intros Hb.
  rewrite js_shl_byte_16, js_shl_byte_8 by (by apply int_of_elem_byte).
  destruct b as [|x0 [|x1 [|x2 r]]]; try (cbn; split; intros [=]; lia).
  apply Forall_cons in Hb as [H0 Hb]. apply Forall_cons in Hb as [H1 Hb].
  apply Forall_cons in Hb as [H2 _].
  cbn. split; intros [=]; [|by subst].
  assert (x0 = 0 /\ x1 = 0 /\ x2 = 1) as (-> & -> & ->) by lia. done.
Qed.

Lemma pes_timestamps_ext (f b : list Z) :
  (forall i, i < 19 -> elem f i = elem b i) -> pes_timestamps f = pes_timestamps b.
Proof.
  intros H. unfold pes_timestamps, read_timestamp.
  rewrite !H by lia. done.
Qed.

(** What [_parsePES] computes, read off the concatenation [b] of the
    accumulated slices. *)
Section parsePES_on_bytes.
Context (s : PesStream) (d0 : list Z) (ds : list (list Z)).
Hypothesis Hdata : stream_data s = d0 :: ds.
Context (size : Z).
Hypothesis Hsz : stream_size s = Int size.
Hypothesis Hsize : size <> 0.
Hypothesis Hbytes : bytes_ok (stream_bytes s).


Context (h l : Z).
Hypothesis Hpre : take 3 (stream_bytes s) = [0; 0; 1].
Hypothesis Hh : elem (stream_bytes s) 4 = Some h.
Hypothesis Hl : elem (stream_bytes s) 5 = Some l.


Lemma parsePES_ok (hdr : Z) :
  h * 256 + l = 0 \/ h * 256 + l <= size - 6 ->
  elem (stream_bytes s) 8 = Some hdr ->
  size = Z.of_nat (length (stream_bytes s)) ->
  9 + hdr <= size ->
  _parsePES s = Returned (Some
    {| pes_data := drop (Z.to_nat (9 + hdr)) (stream_bytes s);
       pes_pts := (pes_timestamps (stream_bytes s)).1;
       pes_dts := (pes_timestamps (stream_bytes s)).2;
       pes_len := Int (if h * 256 + l =? 0 then 0 else h * 256 + l - (hdr + 3)) |}).
Proof using Hdata Hsz Hsize Hbytes Hpre Hh Hl.
  intros Hfit H8 Hlen Hhdr. unfold _parsePES.
  rewrite Hsz. cbn [num_eq num_sub]. destruct (Z.eqb_spec size 0); [done|].
  pose proof (int_of_elem_byte _ 4 Hbytes) as Hb4.
  pose proof (int_of_elem_byte _ 8 Hbytes) as Hb8.
  unfold stream_bytes in *. rewrite Hdata in *. cbn [concat] in *.
  pose proof (merge_head_elem d0 ds) as He.
  pose proof (merge_head_spec d0 ds) as Hm.
  destruct (merge_head d0 ds) as [frag rest]. cbn [fst] in He. destruct Hm as [Hm _].
  rewrite !He by lia.
  apply pes_prefix_one in Hpre; [|done]. rewrite Hpre.
  rewrite (pes_timestamps_ext frag (d0 ++ concat ds)) by done.
  rewrite Hh, Hl, H8 in *. cbn [int_of num_of num_add num_sub] in *.
  rewrite js_shl_byte_8 by done. cbn [truthy num_gt].
  replace (negb (h * 256 + l =? 0) && (size - 6 <? h * 256 + l)) with false.
  2:{ symmetry. apply andb_false_iff.
      destruct Hfit as [->|Hle]; [by left|right]. by apply Z.ltb_ge. }
  destruct (pes_timestamps (d0 ++ concat ds)) as [pts dts]. cbn [fst snd].
  unfold new_Uint8Array.
  destruct (Z.ltb_spec (size - (hdr + 9)) 0); [lia|].
  rewrite pes_reassemble_spec.
  - cbn [take app concat]. rewrite Hm. replace (hdr + 9) with (9 + hdr) by lia.
    rewrite take_0. cbn [app].
    destruct (Z.eqb_spec (h * 256 + l) 0) as [->|]; done.
  - cbn [concat]. rewrite Hm. lia.
  - rewrite length_replicate. cbn [concat]. rewrite Hm. lia.
Qed.
End parsePES_on_bytes.

Lemma bytes_ok_check (l : list Z) :
  forallb (fun x => (0 <=? x) && (x <? 256)) l = true -> bytes_ok l.
Proof.
  intros H. apply Forall_forall. intros x Hx.
  rewrite forallb_forall in H. apply list_elem_of_In, H in Hx.
  apply andb_true_iff in Hx as [H1 H2]. apply Z.leb_le in H1. apply Z.ltb_lt in H2. lia.
Qed.

Lemma stream_data_nonempty (s : PesStream) :
  stream_data s <> [] -> exists d0 ds, stream_data s = d0 :: ds.
Proof. destruct (stream_data s) as [|d0 ds]; [done|]. by exists d0, ds. Qed.





(** C3 (amended): a header that carries the 33-bit value [p] in bytes
    9..13, in the marker layout, with a PTS/DTS flag set, parses to
    pts = p (p - 2^33 above 2^32 - 1) whenever the DTS flag 0x40 is
    clear, and also when it is set unless that value exceeds the DTS of
    bytes 14..18 by more than 60 * 90000, in which case pts is the DTS. *)
Theorem parsePES_pts_roundtrip (s : PesStream) (size p hi flags hdr h l : Z) :
  stream_size s = Int size ->
  size = Z.of_nat (length (stream_bytes s)) ->
  bytes_ok (stream_bytes s) ->
  take 3 (stream_bytes s) = [0; 0; 1] ->
  elem (stream_bytes s) 4 = Some h -> elem (stream_bytes s) 5 = Some l ->
  h * 256 + l = 0 \/ h * 256 + l <= size - 6 ->
  elem (stream_bytes s) 7 = Some flags -> js_and flags 0xC0 <> 0 ->
  elem (stream_bytes s) 8 = Some hdr -> 9 + hdr <= size ->
  0 <= p < 2 ^ 33 -> 0 <= hi < 16 ->
  take 5 (drop 9 (stream_bytes s)) = pts_bytes hi p ->
  exists pes,
    _parsePES s = Returned (Some pes) /\
    pes_pts pes = Some
      (if js_and flags 0x40 =? 0 then wrap33 p
       else if 60 * 90000 <? wrap33 p - read_timestamp (stream_bytes s) 14
            then read_timestamp (stream_bytes s) 14
            else wrap33 p) /\
    (p <= 2 ^ 32 - 1 -> wrap33 p = p) /\
    (2 ^ 32 - 1 < p -> wrap33 p = p - 2 ^ 33).
Proof.
  intros Hsz Hlen Hb Hpre Hh Hl Hfit H7 Hfl H8 Hhdr Hp Hhi Hpts.
  assert (stream_data s <> []) as Hne.
  { intros Hnil. unfold stream_bytes in Hpre. by rewrite Hnil in Hpre. }
  destruct (stream_data_nonempty s Hne) as (d0 & ds & Hd).
  pose proof (int_of_elem_byte _ 8 Hb) as Hb8. rewrite H8 in Hb8. cbn [int_of] in Hb8.
  eexists. split; [|split; [|split]].
  - apply (parsePES_ok s d0 ds Hd size Hsz ltac:(lia) Hb h l Hpre Hh Hl hdr); done.
  - cbn [pes_pts]. unfold pes_timestamps. rewrite H7. cbn [int_of].
    destruct (Z.eqb_spec (js_and flags 192) 0); [done|]. cbn [negb].
    pose proof (read_timestamp_pts_bytes (stream_bytes s) 9 hi p Hp Hhi Hpts) as Hrt.
    change (Z.of_nat 9) with 9 in Hrt. rewrite Hrt.
    destruct (js_and flags 64 =? 0); cbn [negb fst]; [done|].
    by destruct (_ <? _).
  - unfold wrap33. destruct (Z.ltb_spec (2 ^ 32 - 1) p); lia.
  - unfold wrap33. destruct (Z.ltb_spec (2 ^ 32 - 1) p); lia.
Qed.

Lemma parsePES_pts_roundtrip_witness :
  let s := mkPesStream [pes_packet 0x80 8589934591 0 [0xAA]] (Int 20) in
  exists pes, _parsePES s = Returned (Some pes) /\ pes_pts pes = Some (-1).
Proof.
  cbv zeta.
  destruct (parsePES_pts_roundtrip (mkPesStream [pes_packet 0x80 8589934591 0 [0xAA]] (Int 20))
              20 8589934591 3 0x80 10 0 0
              eq_refl eq_refl ltac:(by apply bytes_ok_check) eq_refl eq_refl eq_refl
              (or_introl eq_refl) eq_refl ltac:(by vm_compute) eq_refl ltac:(done)
              ltac:(done) ltac:(done) eq_refl)
    as (pes & Hp & Hpts & _).
  exists pes. split; [exact Hp|]. rewrite Hpts. reflexivity.
Defined.

(** C3, counterexample: with both flags set (0xC0), p = 6000000 in bytes
    9..13 and a DTS of 0 in bytes 14..18, the PTS returned is 0. *)
Lemma parsePES_pts_replaced_by_dts :
  let b := pes_packet 0xC0 6000000 0 [0xAA] in
  take 5 (drop 9 b) = pts_bytes 3 6000000 /\
  elem b 7 = Some 0xC0 /\
  _parsePES (mkPesStream [b] (Int 20))
  = Returned (Some (mkPes [0xAA] (Some 0) (Some 0) (Int 0))) /\
  Some 0 <> Some 6000000.
Proof. cbv zeta. repeat split; try done; by vm_compute. Qed.

(** ** [push], the PMT and the track identifiers (C1, C4, C8) *)

Lemma parsePMT_entry_aac (data : list Z) (offset : jsnum) (r : PmtResult) :
  pmt_audio r = None ->
  pmt_aac (parsePMT_entry data offset r) = pmt_aac r /\
  pmt_audio (parsePMT_entry data offset r) = None.
Proof.
  intros Ha. unfold parsePMT_entry. rewrite Ha.
  repeat case_bool_decide; try done;
    repeat match goal with |- context [if ?c then _ else _] => destruct c end; done.
Qed.

Lemma parsePMT_loop_aac (fuel : nat) (data : list Z) (offset tableEnd : jsnum)
    (r : PmtResult) :
  pmt_audio r = None ->
  pmt_aac (parsePMT_loop fuel data offset tableEnd r) = pmt_aac r /\
  pmt_audio (parsePMT_loop fuel data offset tableEnd r) = None.
Proof.
  revert offset r. induction fuel as [|fuel IH]; intros offset r Ha; cbn [parsePMT_loop]; [done|].
  destruct (num_lt offset tableEnd); [|done].
  destruct (parsePMT_entry_aac data offset r Ha) as [H1 H2].
  destruct (IH (num_add offset (Int (field16 data (num_add offset (Int 3)) 15 + 5)))
              _ H2) as [H3 H4].
  split; [congruence|done].
Qed.

(** The AAC branch tests [result.audio === -1] on an object that has no
    [audio] property: it never fires, and [aac] keeps its initial -1. *)
Lemma parsePMT_aac (data : list Z) (offset : jsnum) :
  pmt_aac (_parsePMT data offset) = -1 /\ pmt_audio (_parsePMT data offset) = None.
Proof. unfold _parsePMT. by apply parsePMT_loop_aac. Qed.

(** On byte data every entry advances the offset, so the turns allotted
    to the loop of [_parsePMT] are enough: one more changes nothing. *)
Lemma field16_nonneg (data : list Z) (o : jsnum) :
  bytes_ok data -> 0 <= field16 data o 0x0F.
Proof.
  intros Hb. unfold field16.
  assert (forall i, 0 <= int_of (elem_at data i) < 256) as Hi.
  { intros [|z]; cbn [elem_at int_of]; [lia|].
    unfold elem. destruct (z <? 0); [cbn; lia|].
    destruct (data !! Z.to_nat z) as [x|] eqn:Hx; cbn [int_of]; [|lia].
    eapply Forall_lookup_1 in Hb; [|exact Hx]. exact Hb. }
  pose proof (Hi o) as H1. pose proof (Hi (num_add o (Int 1))) as H2.
  unfold js_or. apply Z.lor_nonneg. split.
  - assert (0 <= js_and (int_of (elem_at data o)) 15 < 16) as Ha.
    { unfold js_and. rewrite !to_int32_small by lia.
      change 15 with (Z.ones 4). rewrite Z.land_ones by lia.
      apply Z.mod_pos_bound. lia. }
    unfold js_shl. rewrite (to_int32_small (js_and _ _)) by lia.
    change (8 mod 32) with 8. rewrite Z.shiftl_mul_pow2 by lia.
    change (2 ^ 8) with 256.
    rewrite (to_int32_small (_ * 256)) by lia. rewrite to_int32_small by lia. lia.
  - rewrite to_int32_small by lia. lia.
Qed.

Lemma parsePMT_loop_step (fuel : nat) (data : list Z) (offset tableEnd : jsnum)
    (r : PmtResult) :
  parsePMT_loop (S fuel) data offset tableEnd r
  = if num_lt offset tableEnd
    then parsePMT_loop fuel data
           (num_add offset (Int (field16 data (num_add offset (Int 3)) 0x0F + 5)))
           tableEnd (parsePMT_entry data offset r)
    else r.
Proof. reflexivity. Qed.

Lemma parsePMT_loop_fuel (fuel : nat) (data : list Z) (o e : Z) (r : PmtResult) :
  bytes_ok data ->
  e - o <= Z.of_nat fuel ->
  parsePMT_loop (S fuel) data (Int o) (Int e) r = parsePMT_loop fuel data (Int o) (Int e) r.
Proof.
  intros Hb. revert o r. induction fuel as [|fuel IH]; intros o r Hf.
  - cbn [parsePMT_loop num_lt num_gt]. destruct (Z.ltb_spec o e); [lia|done].
  - rewrite (parsePMT_loop_step (S fuel)), (parsePMT_loop_step fuel data (Int o)).
    cbn [num_lt num_gt num_add].
    destruct (Z.ltb_spec o e); [|done].
    pose proof (field16_nonneg data (Int (o + 3)) Hb).
    apply IH. lia.
Qed.

(** [push] reads the identifier [contiguous] right after its variable
    declarations; where the host does not bind it, the call ends there. *)
Lemma push_contiguous_unbound
    (parseHEVCPES parseAVCPES : option Pes -> M unit)
    (w : World) (r : Remuxer) (data : list Z) (audioCodec videoCodec : option string)
    (timeOffset cc level sn duration : Z) :
  remuxer (this w) = Some r ->
  host w !! "contiguous" = None ->
  push parseHEVCPES parseAVCPES data audioCodec videoCodec
       timeOffset cc level sn duration w
  = (w, Thrown (ReferenceError "contiguous")).
Proof.
  intros Hr Hc. unfold push, mbind, M_bind, get_this.
  rewrite Hr. unfold field, mret, M_ret, resolve. by rewrite Hc.
Qed.

(** C1 (code defect), evaluated on the code: on every buffer that
    [probe] accepts, [push] throws a ReferenceError for the undeclared
    identifier [contiguous] before it looks at a packet; the demuxer, the
    observer and the remuxer are left as they were. *)
Theorem push_throws_on_probed_buffer
    (parseHEVCPES parseAVCPES : option Pes -> M unit)
    (w : World) (r : Remuxer) (data : list Z) (audioCodec videoCodec : option string)
    (timeOffset cc level sn duration : Z) :
  probe data = true ->
  remuxer (this w) = Some r ->
  host w !! "contiguous" = None ->
  push parseHEVCPES parseAVCPES data audioCodec videoCodec
       timeOffset cc level sn duration w
  = (w, Thrown (ReferenceError "contiguous")).
Proof. intros _. apply push_contiguous_unbound. Qed.

Lemma push_throws_witness :
  probe ts_null3 = true /\
  push (fun _ => mret tt) (fun _ => mret tt) ts_null3
       (Some "mp4a.40.2") (Some "hvc1") 0 0 0 0 10 fresh_world
  = (fresh_world, Thrown (ReferenceError "contiguous")).
Proof.
  split; [by vm_compute|].
  apply (push_throws_on_probed_buffer _ _ fresh_world (mkRemuxer false [])).
  - by vm_compute.
  - reflexivity.
  - reflexivity.
Defined.

(** C4 (code defect), evaluated on the code: whatever the section,
    [_parsePMT] returns [aac] = -1 and creates no [audio] property; on a
    PMT whose first entry is an AAC stream on PID 0x101, the PMT branch
    of [push] therefore stores -1 as the audio track's PID. *)
Theorem parsePMT_never_reports_audio_pid :
  (forall (data : list Z) (offset : jsnum),
     pmt_aac (_parsePMT data offset) = -1 /\ pmt_audio (_parsePMT data offset) = None) /\
  (let data := ts_packet 0x50 0x00 0x10 pmt_payload in
   elem data 17 = Some 0x0F /\ field16 data (Int 18) 0x1F = 0x101 /\
   match push_pmt data 0 true (Int 4) 0 locals_after_pat fresh_world with
   | (w', Returned (Next _ l')) =>
       l_aacId l' = Some (-1) /\ trk_id <$> _aacTrack (this w') = Some (Some (-1))
   | _ => False
   end).
Proof.
  split; [apply parsePMT_aac|].
  cbv zeta. split; [by vm_compute|]. split; [by vm_compute|]. by vm_compute.
Qed.

(** C8 (code defect), evaluated on the code: [resetInitSegment] gives the
    audio, ID3 and text tracks the id -1 and the video track no id at
    all, not the constants 0, 1, 2, 3 that [createTrack] would assign;
    and the PMT branch of [push] overwrites the ID3 track's id with the
    PID 0x102 found in the PMT. *)
Theorem track_ids_follow_pmt_not_the_constants :
  (forall (initSegment : JSVal) (audioCodec videoCodec : option string)
          (duration : option Z) (d : Demuxer),
     let d' := resetInitSegment initSegment audioCodec videoCodec duration d in
     trk_id <$> _videoTrack d' = Some None /\
     trk_id <$> _aacTrack d' = Some (Some (-1)) /\
     trk_id <$> _id3Track d' = Some (Some (-1)) /\
     trk_id <$> _txtTrack d' = Some (Some (-1))) /\
  (ct_id (createTrack "video" 0) = Some 0 /\ ct_id (createTrack "audio" 0) = Some 1 /\
   ct_id (createTrack "id3" 0) = Some 2 /\ ct_id (createTrack "text" 0) = Some 3) /\
  (let data := ts_packet 0x50 0x00 0x10 pmt_payload in
   trk_id <$> _id3Track (this fresh_world) = Some (Some (-1)) /\
   trk_id <$> _id3Track (this (push_pmt data 0 true (Int 4) 0 locals_after_pat fresh_world).1)
     = Some (Some 0x102)).
Proof.
  split; [|split].
  - intros. by cbv.
  - by vm_compute.
  - cbv zeta. split; by vm_compute.
Qed.

(** Where the host does bind those identifiers the packet loop runs: on
    a PAT, a PMT and one ID3 PES, [push] learns the PMT PID, stores the
    ID3 PID in the ID3 track's id, queues the ID3 sample and calls the
    remuxer once, without any error. *)
Example push_on_a_binding_host :
  let r := push (fun _ => mret tt) (fun _ => mret tt) ts_pat_pmt_id3 None None
             0 0 0 0 10 (mkWorld (this fresh_world) binding_host) in
  probe ts_pat_pmt_id3 = true /\
  r.2 = Returned tt /\
  observer (this r.1) = [] /\
  _pmtId (this r.1) = Some 0x1000 /\
  trk_id <$> _id3Track (this r.1) = Some (Some 0x102) /\
  (length ∘ trk_samples) <$> _id3Track (this r.1) = Some 1%nat /\
  (length ∘ remux_calls) <$> remuxer (this r.1) = Some 1%nat.
Proof. cbv zeta. repeat split; by vm_compute. Qed.

(** ** The NAL scanners (C2) *)

Lemma parseHEVCNALu_loop_undefined (fuel : nat) (array : list Z) (i : Z)
    (l : ScanLocals) (w : World) :
  sc_state l = None ->
  parseHEVCNALu_loop fuel array i l w = (w, Returned l).
Proof.
  intros Hs. revert i. induction fuel as [|fuel IH]; intros i; cbn [parseHEVCNALu_loop]; [done|].
  destruct (i <? Z.of_nat (length array)); [|done].
  rewrite Hs. cbn [bool_decide decide_rel orb].
  rewrite !bool_decide_false by done. cbn [orb].
  unfold mbind, M_bind, mret, M_ret. apply IH.
Qed.

(** With [avcNaluState] undefined the scanner's switch never leaves its
    default branch: no unit is found, whatever the bytes. *)
Lemma parseHEVCNALu_undefined_state (array : list Z) (w : World) :
  avcNaluState (this w) = None ->
  _parseHEVCNALu array w = (w, Returned []).
Proof.
  intros Hs. unfold _parseHEVCNALu, mbind, M_bind, get_this.
  rewrite parseHEVCNALu_loop_undefined by (by rewrite Hs). by rewrite Hs.
Qed.

Lemma parseAVCNALu_no_track (array : list Z) (w : World) :
  _avcTrack (this w) = None ->
  _parseAVCNALu array w = (w, Thrown (TypeError "this._avcTrack")).
Proof.
  intros Ht. unfold _parseAVCNALu, mbind, M_bind, get_this. by rewrite Ht.
Qed.

(** C2 (code defect), evaluated on the code: after a reset no sample
    comes out, split or not.  [push] throws on the first half, on the
    second and on the whole; [_parseHEVCNALu] reads [avcNaluState], which
    nothing initialises, and reports no unit in either half nor in the
    whole, so the IDR NAL whose start code straddles the cut is lost;
    [_parseAVCNALu] reads [_avcTrack], which nothing assigns, and
    throws. *)
Theorem nal_split_yields_no_unit
    (parseHEVCPES parseAVCPES : option Pes -> M unit) (b1 b2 : list Z) :
  (forall b, push parseHEVCPES parseAVCPES b None None 0 0 0 0 10 fresh_world
             = (fresh_world, Thrown (ReferenceError "contiguous"))) /\
  _parseHEVCNALu b1 fresh_world = (fresh_world, Returned []) /\
  _parseHEVCNALu b2 fresh_world = (fresh_world, Returned []) /\
  _parseHEVCNALu (b1 ++ b2) fresh_world = (fresh_world, Returned []) /\
  _parseAVCNALu b1 fresh_world = (fresh_world, Thrown (TypeError "this._avcTrack")) /\
  (_parseHEVCNALu hevc_half1 fresh_world).2 = Returned [] /\
  (_parseHEVCNALu hevc_half2 fresh_world).2 = Returned [] /\
  js_and (Z.shiftr (int_of (elem (hevc_half1 ++ hevc_half2) 11)) 1) 0x3F = 19.
Proof.
  split.
  { intros b. by apply (push_contiguous_unbound _ _ fresh_world (mkRemuxer false [])). }
  split; [by apply parseHEVCNALu_undefined_state|].
  split; [by apply parseHEVCNALu_undefined_state|].
  split; [by apply parseHEVCNALu_undefined_state|].
  split; [by apply parseAVCNALu_no_track|].
  split; [by rewrite parseHEVCNALu_undefined_state|].
  split; [by rewrite parseHEVCNALu_undefined_state|].
  by vm_compute.
Qed.

(** ** The ADTS error report of [_parseAACPES] (C9) *)

Section aac_header_search.
Context (isHeader : list Z -> Z -> bool).


End aac_header_search.

Section aac_report_cases.
Context (isHeader : list Z -> Z -> bool).
Context (initTrackConfig :
             option (Track AudioSample) -> list Z -> Z -> option string -> M unit).
Context (getFrameDuration : option Z -> Q).
Context (appendFrame :
             option (Track AudioSample) -> list Z -> Z -> option Q -> Z -> M (option (Z * Q))).
Context (pes : Pes) (w : World).

Lemma parseAACPES_unfold :
  _parseAACPES isHeader initTrackConfig getFrameDuration appendFrame (Some pes) w
  = match aac_report (aac_find_header isHeader (length (aac_input w pes))
                        (aac_input w pes) 0 (Z.of_nat (length (aac_input w pes))))
            (Z.of_nat (length (aac_input w pes))) w with
    | (w', Returned true) =>
        aac_continue isHeader initTrackConfig getFrameDuration appendFrame pes w
          (aac_find_header isHeader (length (aac_input w pes)) (aac_input w pes) 0
             (Z.of_nat (length (aac_input w pes)))) w'
    | (w', Returned false) => (w', Returned tt)
    | (w', Thrown e) => (w', Thrown e)
    end.
Proof.
  unfold _parseAACPES, aac_continue, aac_input, mbind, M_bind, get_this, field, mret, M_ret.
  destruct (aacOverFlow (this w)); cbn beta iota zeta;
    match goal with |- context [aac_report ?o ?l w] => destruct (aac_report o l w) as [w' [[]|]] end;
    done.
Qed.




End aac_report_cases.


(** ** Sync detection *)

Lemma sync_at_test (data : list Z) (i : Z) :
  bool_decide (elem data i = Some 0x47) &&
  bool_decide (elem data (i + 188) = Some 0x47) &&
  bool_decide (elem data (i + 2 * 188) = Some 0x47) = true <-> sync_at data i.
Proof.
  unfold sync_at. rewrite !andb_true_iff, !bool_decide_eq_true. tauto.
Qed.

Lemma syncOffset_loop_spec (fuel : nat) (data : list Z) (i w : Z) :
  w - i <= Z.of_nat fuel ->
  let r := syncOffset_loop fuel data i w in
  (r = -1 /\ forall j, i <= j < w -> ~ sync_at data j) \/
  (i <= r < w /\ sync_at data r /\ forall j, i <= j < r -> ~ sync_at data j).
Proof.
  revert i. induction fuel as [|fuel IH]; intros i Hf; cbn [syncOffset_loop].
  - left. split; [done|]. intros j Hj. lia.
  - destruct (Z.ltb_spec i w) as [Hlt|Hge].
    2:{ left. split; [done|]. intros j Hj. lia. }
    destruct (_ && _) eqn:Ht.
    + right. apply sync_at_test in Ht. split; [lia|]. split; [done|]. intros j Hj. lia.
    + assert (~ sync_at data i) as Hn.
      { intros Hs. apply sync_at_test in Hs. congruence. }
      destruct (IH (i + 1) ltac:(lia)) as [[Hr Hno]|(Hr & Hs & Hno)].
      * left. split; [done|]. intros j Hj.
        destruct (decide (j = i)) as [->|]; [done|]. apply Hno. lia.
      * right. split; [lia|]. split; [done|]. intros j Hj.
        destruct (decide (j = i)) as [->|]; [done|]. apply Hno. lia.
Qed.

Lemma syncOffset_spec (data : list Z) :
  let w := Z.min 1000 (Z.of_nat (length data) - 3 * 188) in
  (_syncOffset data = -1 /\ forall j, 0 <= j < w -> ~ sync_at data j) \/
  (0 <= _syncOffset data < w /\ sync_at data (_syncOffset data) /\
   forall j, 0 <= j < _syncOffset data -> ~ sync_at data j).
Proof.
  cbv zeta. unfold _syncOffset. apply syncOffset_loop_spec. lia.
Qed.

Lemma probe_spec (data : list Z) :
  probe data = true <->
  exists i, 0 <= i < Z.min 1000 (Z.of_nat (length data) - 3 * 188) /\ sync_at data i.
Proof.
  unfold probe. pose proof (syncOffset_spec data) as H. cbv zeta in H.
  destruct H as [[Hr Hno]|(Hr & Hs & _)].
  - rewrite Hr. split; [done|]. intros (i & Hi & Hsync). by apply Hno in Hsync.
  - destruct (Z.ltb_spec (_syncOffset data) 0); [lia|]. split; [|done].
    intros _. by exists (_syncOffset data).
Qed.

(** X1: [_syncOffset] returns the least offset, within the first
    min(1000, length - 564) bytes, at which three sync bytes 0x47 stand
    one packet apart, and -1 when that window holds no such offset. *)
Theorem syncOffset_is_first_sync (data : list Z) :
  let w := Z.min 1000 (Z.of_nat (length data) - 3 * 188) in
  (_syncOffset data = -1 /\ forall j, 0 <= j < w -> ~ sync_at data j) \/
  (0 <= _syncOffset data < w /\ sync_at data (_syncOffset data) /\
   forall j, 0 <= j < _syncOffset data -> ~ sync_at data j).
Proof. apply syncOffset_spec. Qed.

(** X2: [probe] accepts a buffer exactly when three sync bytes stand one
    packet apart from some offset below min(1000, length - 564). *)
Theorem probe_iff_sync_in_window (data : list Z) :
  probe data = true <->
  exists i, 0 <= i < Z.min 1000 (Z.of_nat (length data) - 3 * 188) /\ sync_at data i.
Proof. apply probe_spec. Qed.

(** X3: a buffer of at most three packets (564 bytes) is never accepted
    by [probe], whatever it holds: the scan window is empty. *)
Theorem probe_rejects_three_packets (data : list Z) :
  (length data <= 3 * 188)%nat -> probe data = false.
Proof.
  intros Hlen. apply not_true_is_false. intros Hp.
  apply probe_spec in Hp as (i & Hi & _). lia.
Qed.

Lemma probe_rejects_three_packets_witness :
  let data := take 564 ts_null3 in
  length data = 564%nat /\ sync_at data 0 /\ probe data = false.
Proof.
  cbv zeta. split; [reflexivity|]. split; [by vm_compute|].
  apply probe_rejects_three_packets. vm_compute. lia.
Defined.

(** ** The PSI tables *)

Lemma land_low_byte (a b : Z) : 0 <= b < 256 -> Z.land (a * 256) b = 0.
Proof.
  intros Hb. apply Z.bits_inj'. intros n Hn. rewrite Z.land_spec, Z.bits_0.
  change 256 with (2 ^ 8). destruct (Z.lt_ge_cases n 8) as [Hlt|Hge].
  - by rewrite Z.mul_pow2_bits_low by lia.
  - rewrite <- (Z.mod_small b (2 ^ 8)) by (change (2 ^ 8) with 256; lia).
    rewrite Z.mod_pow2_bits_high by lia. apply andb_false_r.
Qed.

Lemma lor_low_byte (a b : Z) : 0 <= b < 256 -> Z.lor (a * 256) b = a * 256 + b.
Proof.
  intros Hb. pose proof (land_low_byte a b Hb) as H0.
  rewrite <- Z.lxor_lor by done. by rewrite Z.add_nocarry_lxor.
Qed.

Lemma js_and_byte_1F (x : Z) : 0 <= x < 256 -> js_and x 0x1F = x mod 32.
Proof.
  intros Hx. apply Z.eqb_eq.
  apply (byte_cases (fun x => js_and x 0x1F =? x mod 32)); [by vm_compute|done].
Qed.

Lemma js_and_byte_0F (x : Z) : 0 <= x < 256 -> js_and x 0x0F = x mod 16.
Proof.
  intros Hx. apply Z.eqb_eq.
  apply (byte_cases (fun x => js_and x 0x0F =? x mod 16)); [by vm_compute|done].
Qed.

(** The 16-bit field read by [(data[o] & mask) << 8 | data[o + 1]] on
    bytes. *)
Lemma field16_bytes (data : list Z) (o hi lo mask m : Z) :
  elem data o = Some hi -> elem data (o + 1) = Some lo ->
  0 <= hi < 256 -> 0 <= lo < 256 ->
  js_and hi mask = hi mod m -> 0 < m <= 256 ->
  field16 data (Int o) mask = (hi mod m) * 256 + lo.
Proof.
  intros Hhi Hlo Bhi Blo Hm Bm. unfold field16. cbn [elem_at num_add].
  rewrite Hhi, Hlo. cbn [int_of]. rewrite Hm.
  pose proof (Z.mod_pos_bound hi m ltac:(lia)) as Hr.
  unfold js_or, js_shl. rewrite (to_int32_small (hi mod m)) by lia.
  change (8 mod 32) with 8. rewrite Z.shiftl_mul_pow2 by lia. change (2 ^ 8) with 256.
  rewrite (to_int32_small (_ * 256)) by lia.
  rewrite !to_int32_small by lia. by apply lor_low_byte.
Qed.

Lemma elem_at_byte (data : list Z) (i : jsnum) :
  bytes_ok data -> 0 <= int_of (elem_at data i) < 256.
Proof.
  intros Hb. destruct i as [|z]; cbn [elem_at int_of]; [lia|]. by apply int_of_elem_byte.
Qed.

Lemma field16_range (data : list Z) (o : jsnum) (mask m : Z) :
  bytes_ok data ->
  (forall x, 0 <= x < 256 -> js_and x mask = x mod m) -> 0 < m <= 256 ->
  field16 data o mask
  = (int_of (elem_at data o) mod m) * 256 + int_of (elem_at data (num_add o (Int 1))).
Proof.
  intros Hb Hm Bm. unfold field16.
  pose proof (elem_at_byte data o Hb) as H1.
  pose proof (elem_at_byte data (num_add o (Int 1)) Hb) as H2.
  rewrite Hm by done.
  pose proof (Z.mod_pos_bound (int_of (elem_at data o)) m ltac:(lia)) as Hr.
  unfold js_or, js_shl. rewrite (to_int32_small (_ mod m)) by lia.
  change (8 mod 32) with 8. rewrite Z.shiftl_mul_pow2 by lia. change (2 ^ 8) with 256.
  rewrite (to_int32_small (_ * 256)) by lia.
  rewrite !to_int32_small by lia. by apply lor_low_byte.
Qed.

(** X4: on byte data [_parsePAT] returns the 13-bit number made of the
    low five bits of [data[offset + 10]] and of [data[offset + 11]], a
    PID between 0 and 8191; bytes beyond the end of the data count as 0,
    so an offset at which both bytes are missing gives PID 0. *)
Theorem parsePAT_reads_13_bits (data : list Z) (offset : jsnum) :
  bytes_ok data ->
  _parsePAT data offset
  = (int_of (elem_at data (num_add offset (Int 10))) mod 32) * 256
    + int_of (elem_at data (num_add offset (Int 11))) /\
  0 <= _parsePAT data offset < 8192 /\
  (elem_at data (num_add offset (Int 10)) = None ->
   elem_at data (num_add offset (Int 11)) = None -> _parsePAT data offset = 0).
Proof.
  intros Hb. unfold _parsePAT.
  rewrite (field16_range data _ 0x1F 32 Hb js_and_byte_1F ltac:(lia)).
  assert (num_add (num_add offset (Int 10)) (Int 1) = num_add offset (Int 11)) as ->.
  { destruct offset; cbn; [done|]. f_equal. lia. }
  pose proof (elem_at_byte data (num_add offset (Int 10)) Hb) as H1.
  pose proof (elem_at_byte data (num_add offset (Int 11)) Hb) as H2.
  pose proof (Z.mod_pos_bound (int_of (elem_at data (num_add offset (Int 10)))) 32 ltac:(lia)).
  split; [done|]. split; [lia|]. intros -> ->. done.
Qed.

Lemma parsePAT_reads_13_bits_witness :
  bytes_ok (ts_packet 0x40 0x00 0x10 pat_payload) /\
  _parsePAT (ts_packet 0x40 0x00 0x10 pat_payload) (Int 5) = 0x1000.
Proof.
  assert (bytes_ok (ts_packet 0x40 0x00 0x10 pat_payload)) as Hb by (by apply bytes_ok_check).
  split; [exact Hb|].
  destruct (parsePAT_reads_13_bits (ts_packet 0x40 0x00 0x10 pat_payload) (Int 5) Hb) as [-> _].
  reflexivity.
Defined.

Lemma bytes_at_app (data : list Z) (o : Z) (l1 l2 : list Z) :
  bytes_at data o (l1 ++ l2) ->
  bytes_at data o l1 /\ bytes_at data (o + Z.of_nat (length l1)) l2.
Proof.
  intros H. split.
  - intros k x Hk. apply H. by apply lookup_app_l_Some.
  - intros k x Hk. replace (o + Z.of_nat (length l1) + Z.of_nat k)
      with (o + Z.of_nat (length l1 + k)) by lia.
    apply H. rewrite lookup_app_r by lia. by replace (length l1 + k - length l1)%nat with k by lia.
Qed.

Lemma bytes_at_middle (pre l post : list Z) :
  bytes_at (pre ++ l ++ post) (Z.of_nat (length pre)) l.
Proof.
  intros k x Hk. rewrite <- Nat2Z.inj_add, elem_lookup.
  rewrite lookup_app_r by lia. replace (length pre + k - length pre)%nat with k by lia.
  by apply lookup_app_l_Some.
Qed.

Lemma bytes_at_elem (data : list Z) (o : Z) (l : list Z) (k : nat) (x : Z) :
  bytes_at data o l -> l !! k = Some x -> elem data (o + Z.of_nat k) = Some x.
Proof. intros H. apply H. Qed.

Lemma parsePMT_entry_at (data : list Z) (o : Z) (e : PmtEntry) (r : PmtResult) :
  pmt_entry_ok e -> pmt_audio r = None ->
  bytes_at data o (pmt_entry_bytes e) ->
  parsePMT_entry data (Int o) r = pmt_absorb r e /\
  field16 data (Int (o + 3)) 0x0F + 5 = Z.of_nat (length (pmt_entry_bytes e)).
Proof.
  intros (Ht & Hp & Hl) Ha Hat.
  pose proof (bytes_at_elem _ _ _ 0 _ Hat eq_refl) as H0.
  pose proof (bytes_at_elem _ _ _ 1 _ Hat eq_refl) as H1.
  pose proof (bytes_at_elem _ _ _ 2 _ Hat eq_refl) as H2.
  pose proof (bytes_at_elem _ _ _ 3 _ Hat eq_refl) as H3.
  pose proof (bytes_at_elem _ _ _ 4 _ Hat eq_refl) as H4.
  change (Z.of_nat 0) with 0 in H0. rewrite Z.add_0_r in H0.
  change (Z.of_nat 1) with 1 in H1. change (Z.of_nat 2) with 2 in H2.
  change (Z.of_nat 3) with 3 in H3. change (Z.of_nat 4) with 4 in H4.
  replace (o + 2) with (o + 1 + 1) in H2 by lia.
  replace (o + 4) with (o + 3 + 1) in H4 by lia.
  assert (field16 data (Int (o + 1)) 0x1F = pe_pid e) as Hpid.
  { rewrite (field16_bytes data (o + 1) _ _ 0x1F 32 H1 H2).
    - Z.div_mod_to_equations. lia.
    - Z.div_mod_to_equations. lia.
    - Z.div_mod_to_equations. lia.
    - apply js_and_byte_1F. Z.div_mod_to_equations. lia.
    - lia. }
  assert (field16 data (Int (o + 3)) 0x0F = Z.of_nat (length (pe_info e))) as Hlen.
  { rewrite (field16_bytes data (o + 3) _ _ 0x0F 16 H3 H4).
    - Z.div_mod_to_equations. lia.
    - Z.div_mod_to_equations. lia.
    - Z.div_mod_to_equations. lia.
    - apply js_and_byte_0F. Z.div_mod_to_equations. lia.
    - lia. }
  split.
  - unfold parsePMT_entry, pmt_absorb, is_id3_entry, is_video_entry.
    cbn [num_add elem_at]. rewrite Hpid, H0, Ha. cbn [int_of].
    rewrite (bool_decide_false (None = Some (-1))) by done.
    destruct (Z.eqb_spec (pe_type e) 0x15) as [E15|N15].
    { rewrite E15. rewrite bool_decide_false by done. rewrite bool_decide_true by done. done. }
    destruct (Z.eqb_spec (pe_type e) 0x24) as [E24|N24].
    { rewrite E24. rewrite !bool_decide_false by done. rewrite bool_decide_true by done. done. }
    destruct (Z.eqb_spec (pe_type e) 0x1b) as [E1b|N1b].
    { rewrite E1b. rewrite !bool_decide_false by done. rewrite bool_decide_true by done.
      cbn [orb]. done. }
    cbn [orb].
    destruct (decide (pe_type e = 0x0f)) as [E0f|N0f].
    { rewrite E0f. rewrite bool_decide_true by done. done. }
    rewrite !bool_decide_false by congruence. done.
  - rewrite Hlen. unfold pmt_entry_bytes. rewrite length_app. cbn [length]. lia.
Qed.

Lemma pmt_absorb_audio (r : PmtResult) (e : PmtEntry) :
  pmt_audio (pmt_absorb r e) = pmt_audio r.
Proof. unfold pmt_absorb. repeat (destruct (_ : bool)); done. Qed.

Lemma parsePMT_loop_table (entries : list PmtEntry) (fuel : nat) (data : list Z) (o : Z)
    (e_end : Z) (r : PmtResult) :
  Forall pmt_entry_ok entries -> pmt_audio r = None ->
  bytes_at data o (pmt_table_bytes entries) ->
  e_end = o + Z.of_nat (length (pmt_table_bytes entries)) ->
  (length entries <= fuel)%nat ->
  parsePMT_loop fuel data (Int o) (Int e_end) r = fold_left pmt_absorb entries r.
Proof.
  revert fuel o e_end r.
  induction entries as [|e es IH]; intros fuel o e_end r Hok Ha Hat -> Hf.
  - cbn [pmt_table_bytes map concat length fold_left]. rewrite Z.add_0_r.
    destruct fuel; cbn [parsePMT_loop num_lt num_gt]; [done|].
    by rewrite Z.ltb_irrefl.
  - destruct fuel as [|fuel]; [cbn in Hf; lia|].
    apply Forall_cons in Hok as [He Hes].
    unfold pmt_table_bytes in *. cbn [map concat] in *.
    apply bytes_at_app in Hat as [Hat1 Hat2].
    destruct (parsePMT_entry_at data o e r He Ha Hat1) as [Hent Hstep].
    rewrite parsePMT_loop_step. cbn [num_lt num_gt num_add].
    rewrite length_app.
    assert (5 <= Z.of_nat (length (pmt_entry_bytes e))) as H5.
    { unfold pmt_entry_bytes. rewrite length_app. cbn [length]. lia. }
    destruct (Z.ltb_spec o (o + Z.of_nat (length (pmt_entry_bytes e) + length (concat (map pmt_entry_bytes es)))));
      [|lia].
    rewrite Hent, Hstep. cbn [fold_left].
    apply IH; [done|by rewrite pmt_absorb_audio|done|lia|cbn in Hf; lia].
Qed.

Lemma pmt_absorb_first (entries : list PmtEntry) (r : PmtResult) :
  Forall pmt_entry_ok entries ->
  fold_left pmt_absorb entries r
  = {| pmt_aac := pmt_aac r;
       pmt_videoPID :=
         if pmt_videoPID r =? -1
         then from_option pe_pid (-1) (find is_video_entry entries) else pmt_videoPID r;
       pmt_videoStreamType :=
         if pmt_videoPID r =? -1
         then from_option pe_type (pmt_videoStreamType r) (find is_video_entry entries)
         else pmt_videoStreamType r;
       pmt_id3 :=
         if pmt_id3 r =? -1
         then from_option pe_pid (-1) (find is_id3_entry entries) else pmt_id3 r;
       pmt_audio := pmt_audio r |}.
Proof.
  revert r. induction entries as [|e es IH]; intros r Hok.
  - cbn. destruct r as [a v t i au]. cbn.
    destruct (Z.eqb_spec v (-1)) as [->|], (Z.eqb_spec i (-1)) as [->|]; done.
  - apply Forall_cons in Hok as [(Ht & Hp & _) Hes]. cbn [fold_left find].
    rewrite IH by done. unfold pmt_absorb, is_id3_entry, is_video_entry.
    destruct r as [a v t i au]. cbn [pmt_aac pmt_videoPID pmt_videoStreamType pmt_id3 pmt_audio].
    destruct (Z.eqb_spec (pe_type e) 0x15) as [E15|N15].
    { rewrite E15. cbn [Z.eqb orb Pos.eqb].
      destruct (Z.eqb_spec i (-1)) as [->|Hi]; cbn; [|by destruct (Z.eqb_spec i (-1))].
      destruct (Z.eqb_spec (pe_pid e) (-1)); [lia|]. done. }
    destruct ((pe_type e =? 0x24) || (pe_type e =? 0x1b)) eqn:Hv.
    { destruct (Z.eqb_spec v (-1)) as [->|Hv1]; cbn; [|by destruct (Z.eqb_spec v (-1))].
      destruct (Z.eqb_spec (pe_pid e) (-1)); [lia|]. done. }
    done.
Qed.

(** X5: on a well-formed PMT section standing at [offset] in the data,
    [_parsePMT] returns the PID and stream type of the first HEVC (0x24)
    or AVC (0x1b) entry of the stream table and the PID of its first ID3
    (0x15) entry, -1 where the table has none; program descriptors and
    the descriptors of each entry are skipped by their length fields. *)
Theorem parsePMT_first_video_and_id3 (pre post : list Z) (program pcr : Z)
    (program_info : list Z) (entries : list PmtEntry) (crc : list Z) :
  Forall pmt_entry_ok entries ->
  (length program_info < 4096)%nat ->
  9 + Z.of_nat (length program_info) + Z.of_nat (length (pmt_table_bytes entries)) + 4 < 4096 ->
  _parsePMT (pre ++ pmt_section program pcr program_info entries crc ++ post)
            (Int (Z.of_nat (length pre)))
  = pmt_first entries.
Proof.
  intros Hok Hpi Hsl.
  set (data := pre ++ _ ++ post).
  pose proof (bytes_at_middle pre (pmt_section program pcr program_info entries crc) post) as Hat.
  fold data in Hat. set (o := Z.of_nat (length pre)) in *.
  unfold pmt_section in Hat. cbv zeta in Hat.
  set (sl := 9 + Z.of_nat (length program_info) + Z.of_nat (length (pmt_table_bytes entries)) + 4) in *.
  pose proof (bytes_at_elem _ _ _ 1 _ Hat eq_refl) as H1.
  pose proof (bytes_at_elem _ _ _ 2 _ Hat eq_refl) as H2.
  pose proof (bytes_at_elem _ _ _ 10 _ Hat eq_refl) as H10.
  pose proof (bytes_at_elem _ _ _ 11 _ Hat eq_refl) as H11.
  change (Z.of_nat 1) with 1 in H1. change (Z.of_nat 2) with 2 in H2.
  change (Z.of_nat 10) with 10 in H10. change (Z.of_nat 11) with 11 in H11.
  replace (o + 2) with (o + 1 + 1) in H2 by lia.
  replace (o + 11) with (o + 10 + 1) in H11 by lia.
  assert (field16 data (Int (o + 1)) 0x0F = sl) as Hsec.
  { rewrite (field16_bytes data (o + 1) _ _ 0x0F 16 H1 H2).
    - Z.div_mod_to_equations. lia.
    - Z.div_mod_to_equations. lia.
    - Z.div_mod_to_equations. lia.
    - apply js_and_byte_0F. Z.div_mod_to_equations. lia.
    - lia. }
  assert (field16 data (Int (o + 10)) 0x0F = Z.of_nat (length program_info)) as Hpil.
  { rewrite (field16_bytes data (o + 10) _ _ 0x0F 16 H10 H11).
    - Z.div_mod_to_equations. lia.
    - Z.div_mod_to_equations. lia.
    - Z.div_mod_to_equations. lia.
    - apply js_and_byte_0F. Z.div_mod_to_equations. lia.
    - lia. }
  unfold _parsePMT. cbn [num_add num_sub]. rewrite Hsec, Hpil.
  change ([?a; ?b; ?c; ?d; ?e; ?f; ?g; ?h; ?i; ?j; ?k; ?l] ++ ?r) with
    ([a; b; c; d; e; f; g; h; i; j; k; l] ++ r) in Hat.
  apply bytes_at_app in Hat as [_ Hat]. apply bytes_at_app in Hat as [_ Hat].
  apply bytes_at_app in Hat as [Hat _]. cbn [length] in Hat.
  rewrite (parsePMT_loop_table entries _ data (o + (12 + Z.of_nat (length program_info)))
             _ (mkPmtResult (-1) (-1) (-1) (-1) None) Hok eq_refl).
  - rewrite pmt_absorb_first by done. done.
  - replace (o + (12 + Z.of_nat (length program_info)))
      with (o + Z.of_nat 12 + Z.of_nat (length program_info)) by lia. exact Hat.
  - unfold sl. lia.
  - assert (5 * Z.of_nat (length entries) <= Z.of_nat (length (pmt_table_bytes entries))) as H5.
    { clear. induction entries as [|e es IH]; [cbn; lia|].
      unfold pmt_table_bytes in *. cbn [map concat length].
      rewrite length_app. unfold pmt_entry_bytes at 1. rewrite length_app. cbn [length]. lia. }
    unfold sl. lia.
Qed.

Lemma parsePMT_first_video_and_id3_witness :
  _parsePMT (ts_packet 0x50 0x00 0x10 pmt_payload) (Int 5)
  = {| pmt_aac := -1; pmt_videoPID := 0x100; pmt_videoStreamType := 0x24;
       pmt_id3 := 0x102; pmt_audio := None |}.
Proof.
  pose proof (parsePMT_first_video_and_id3 [0x47; 0x50; 0x00; 0x10; 0x00]
                (replicate 151 0xFF) 1 0x100 []
                [mkPmtEntry 0x0F 0x101 []; mkPmtEntry 0x15 0x102 []; mkPmtEntry 0x24 0x100 []]
                [0; 0; 0; 0]) as H.
  apply H.
  - repeat constructor; cbn; lia.
  - cbn. lia.
  - cbn. lia.
Defined.

(** ** More on [_parsePES] *)

Lemma pes_timestamps_bound (frag : list Z) :
  match pes_timestamps frag with
  | (Some p, Some d) => p - d <= 60 * 90000
  | (None, None) => js_and (int_of (elem frag 7)) 0xC0 = 0
  | _ => False
  end.
Proof.
  unfold pes_timestamps.
  destruct (Z.eqb_spec (js_and (int_of (elem frag 7)) 192) 0) as [E|N]; cbn [negb]; [done|].
  destruct (js_and (int_of (elem frag 7)) 64 =? 0); cbn [negb]; [lia|].
  destruct (Z.ltb_spec (60 * 90000) (read_timestamp frag 9 - read_timestamp frag 14)); lia.
Qed.

Lemma parsePES_timestamps (s : PesStream) (pes : Pes) :
  _parsePES s = Returned (Some pes) ->
  exists frag, (pes_pts pes, pes_dts pes) = pes_timestamps frag.
Proof.
  unfold _parsePES. intros H.
  repeat (case_match; simplify_eq/=); eauto.
Qed.

(** X6: a PES record returned by [_parsePES] either carries no time
    stamp at all (neither PTS/DTS flag set) or carries both a PTS and a
    DTS, and then the PTS exceeds the DTS by at most 60 s (5400000 ticks
    of 90 kHz): a larger distance is removed by aligning the PTS on the
    DTS. *)
Theorem parsePES_pts_within_60s_of_dts (s : PesStream) (pes : Pes) :
  _parsePES s = Returned (Some pes) ->
  (pes_pts pes = None /\ pes_dts pes = None) \/
  (exists p d, pes_pts pes = Some p /\ pes_dts pes = Some d /\ p - d <= 60 * 90000).
Proof.
  intros H. destruct (parsePES_timestamps s pes H) as [frag Hf].
  pose proof (pes_timestamps_bound frag) as Hb. rewrite <- Hf in Hb.
  destruct (pes_pts pes) as [p|], (pes_dts pes) as [d|]; try done.
  - right. by exists p, d.
  - by left.
Qed.

Lemma parsePES_pts_within_60s_of_dts_witness :
  let s := mkPesStream [pes_packet 0xC0 6000000 0 [0xAA]] (Int 20) in
  exists pes, _parsePES s = Returned (Some pes) /\
    pes_pts pes = Some 0 /\ pes_dts pes = Some 0.
Proof.
  cbv zeta. eexists. split; [by vm_compute|].
  destruct (parsePES_pts_within_60s_of_dts
              (mkPesStream [pes_packet 0xC0 6000000 0 [0xAA]] (Int 20))
              (mkPes [0xAA] (Some 0) (Some 0) (Int 0)) ltac:(by vm_compute))
    as [[? _]|(p & d & Hp & Hd & _)]; [done|].
  split; reflexivity.
Defined.

Lemma written_at_step (f w dst : list Z) (i : nat) :
  (i <= length dst)%nat ->
  match typed_set dst f i with
  | Returned d => written_at w d (i + length f)
  | Thrown e => Thrown e
  end = written_at (f ++ w) dst i.
Proof.
  intros Hi. unfold typed_set, written_at. rewrite length_app.
  case_bool_decide as H1.
  - rewrite !length_app, length_take, length_drop.
    replace (i `min` length dst + (length f + (length dst - (i + length f))))%nat
      with (length dst) by lia.
    replace (i + (length f + length w))%nat with (i + length f + length w)%nat by lia.
    case_bool_decide as H2; [|done]. f_equal.
    assert (length (take i dst ++ f) = (i + length f)%nat) as Hl
      by (rewrite length_app, length_take; lia).
    rewrite (app_assoc (take i dst) f).
    rewrite take_app_length' by done.
    rewrite drop_app_ge by lia. rewrite Hl, drop_drop.
    rewrite <- !app_assoc.
    by replace (i + length f + (i + length f + length w - (i + length f)))%nat
      with (i + length f + length w)%nat by lia.
  - rewrite bool_decide_false by lia. done.
Qed.

Lemma written_at_nil (dst : list Z) (i : nat) :
  (i <= length dst)%nat -> written_at [] dst i = Returned dst.
Proof.
  intros Hi. unfold written_at. cbn [length]. rewrite bool_decide_true by lia.
  cbn [app]. rewrite Nat.add_0_r. by rewrite take_drop.
Qed.

Lemma typed_set_length (dst f d : list Z) (i : nat) :
  typed_set dst f i = Returned d -> length d = length dst /\ (i + length f <= length dst)%nat.
Proof.
  unfold typed_set. case_bool_decide; [|done]. intros [= <-].
  rewrite !length_app, length_take, length_drop. lia.
Qed.

Lemma pes_reassemble_all (frags : list (list Z)) (pso : jsnum) (dst : list Z) (i : nat) :
  pso = NaN \/ pso = Int 0 ->
  (i <= length dst)%nat ->
  pes_reassemble frags pso dst i = written_at (concat frags) dst i.
Proof.
  intros Hp. revert dst i. induction frags as [|f rest IH]; intros dst i Hi.
  - cbn. by rewrite written_at_nil.
  - cbn [concat]. rewrite <- written_at_step by done.
    destruct Hp as [-> | ->]; cbn [pes_reassemble Z.eqb];
      destruct (typed_set dst f i) as [d|e] eqn:Hs; try done;
      apply typed_set_length in Hs as [Hl Hb]; apply IH; lia.
Qed.

Lemma pes_reassemble_bytes (frags : list (list Z)) (p : Z) (dst : list Z) (i : nat) :
  0 <= p -> (i <= length dst)%nat ->
  pes_reassemble frags (Int p) dst i
  = written_at (drop (Z.to_nat p) (concat frags)) dst i.
Proof.
  revert p dst i. induction frags as [|f rest IH]; intros p dst i Hp Hi.
  - cbn. rewrite drop_nil. by rewrite written_at_nil.
  - destruct (Z.eqb_spec p 0) as [->|Hp0].
    { rewrite pes_reassemble_all by (done || by right). by rewrite drop_0. }
    cbn [pes_reassemble concat]. destruct (Z.eqb_spec p 0); [done|].
    destruct (Z.ltb_spec (Z.of_nat (length f)) p) as [Hlt|Hge].
    + rewrite IH by lia. f_equal. rewrite drop_app_ge by lia. f_equal. lia.
    + rewrite subarray_from by lia.
      rewrite (drop_app_le f) by lia. rewrite <- written_at_step by done.
      rewrite length_drop.
      destruct (typed_set dst (drop (Z.to_nat p) f) i) as [d|e] eqn:Hs; [|done].
      apply typed_set_length in Hs as [Hl Hb]. rewrite length_drop in Hb.
      rewrite pes_reassemble_all by (lia || by right).
      f_equal. lia.
Qed.

Lemma pes_reassemble_concat (frags : list (list Z)) (pso : jsnum) (dst : list Z) :
  match pso with Int p => 0 <= p | NaN => True end ->
  pes_reassemble frags pso dst 0 = pes_reassemble [concat frags] pso dst 0.
Proof.
  intros Hp. destruct pso as [|p].
  - rewrite !pes_reassemble_all by (lia || by left). cbn [concat]. by rewrite app_nil_r.
  - rewrite !pes_reassemble_bytes by lia. cbn [concat]. by rewrite app_nil_r.
Qed.

(** X7: what [_parsePES] returns depends only on the accumulated bytes
    and on the accumulated size, not on how the TS packets cut the PES
    into slices: an accumulator gives the same result (record, null or
    exception) as the accumulator that holds its bytes in one slice. *)
Theorem parsePES_independent_of_slicing (s : PesStream) :
  stream_data s <> [] ->
  bytes_ok (stream_bytes s) ->
  _parsePES s = _parsePES (mkPesStream [stream_bytes s] (stream_size s)).
Proof.
  intros Hne Hb. destruct (stream_data_nonempty s Hne) as (d0 & ds & Hd).
  unfold _parsePES. cbn [stream_size stream_data].
  destruct (num_eq (stream_size s) (Int 0)); [done|].
  unfold stream_bytes in *. rewrite Hd in *. cbn [concat merge_head] in *.
  pose proof (merge_head_elem d0 ds) as He.
  pose proof (merge_head_spec d0 ds) as Hm.
  destruct (merge_head d0 ds) as [frag rest]. cbn [fst] in He. destruct Hm as [Hm _].
  rewrite !He by lia. rewrite (pes_timestamps_ext frag (d0 ++ concat ds)) by done.
  set (B := d0 ++ concat ds) in *.
  destruct (num_add _ (num_of (elem B 2))) as [|[|[]|]]; try done.
  destruct (_ && _); [done|].
  destruct (pes_timestamps B) as [pts dts].
  destruct (new_Uint8Array _) as [dst|e]; [|done].
  rewrite (pes_reassemble_concat (frag :: rest)).
  - cbn [concat]. by rewrite Hm.
  - pose proof (int_of_elem_byte B 8 Hb) as H8.
    destruct (elem B 8); cbn [num_of num_add int_of] in *; [lia|done].
Qed.

Lemma parsePES_independent_of_slicing_witness :
  let b := pes_packet 0x80 126000 0 [0xAA; 0xBB] in
  _parsePES (mkPesStream [take 5 b; take 7 (drop 5 b); drop 12 b] (Int 21))
  = _parsePES (mkPesStream [b] (Int 21)).
Proof.
  cbv zeta.
  apply (parsePES_independent_of_slicing
           (mkPesStream [take 5 (pes_packet 0x80 126000 0 [0xAA; 0xBB]);
                         take 7 (drop 5 (pes_packet 0x80 126000 0 [0xAA; 0xBB]));
                         drop 12 (pes_packet 0x80 126000 0 [0xAA; 0xBB])] (Int 21))).
  - done.
  - by apply bytes_ok_check.
Defined.

(** ** More on [_insertSampleInOrder] *)










(** ** More on [discardEPB] *)

Lemma strip_epb_nonzero (a : Z) (l : list Z) :
  a <> 0 -> strip_epb (a :: l) = a :: strip_epb l.
Proof.
  intros Ha. cbn [strip_epb]. destruct l as [|b [|c r]]; try done.
  destruct (Z.eqb_spec a 0); [done|]. done.
Qed.

Lemma strip_epb_zero_nonzero (b : Z) (l : list Z) :
  b <> 0 -> strip_epb (0 :: b :: l) = 0 :: b :: strip_epb l.
Proof.
  intros Hb. destruct l as [|c r].
  - done.
  - rewrite strip_epb_other by lia. by rewrite strip_epb_nonzero.
Qed.

Lemma strip_escape_epb (payload : list Z) :
  strip_epb (escape_epb 0 payload) = payload /\
  strip_epb (0 :: escape_epb 1 payload) = 0 :: payload /\
  strip_epb (0 :: 0 :: escape_epb 2 payload) = 0 :: 0 :: payload.
Proof.
  induction payload as [|b p (IH0 & IH1 & IH2)]; [done|].
  cbn [escape_epb]. rewrite !(bool_decide_false (_ = 2%nat)) by lia.
  rewrite (bool_decide_true (2%nat = 2%nat)) by done. cbn [andb].
  destruct (Z.eqb_spec b 0) as [->|Hb].
  - cbn [Z.leb Z.compare andb]. split; [done|]. split; [done|].
    rewrite strip_epb_triple. by rewrite IH1.
  - split; [by rewrite strip_epb_nonzero, IH0|].
    split; [by rewrite strip_epb_zero_nonzero, IH0|].
    destruct ((0 <=? b) && (b <=? 3)) eqn:Hr.
    + rewrite strip_epb_triple. by rewrite strip_epb_nonzero, IH0.
    + assert (b <> 3).
      { intros ->. done. }
      rewrite strip_epb_other by lia. by rewrite strip_epb_zero_nonzero, IH0.
Qed.

(** X10: [discardEPB] undoes emulation prevention: for a NAL unit made
    of a header byte and a payload escaped as an encoder does (0x03
    inserted before any byte 0..3 that follows two zero bytes), it
    returns the header byte followed by the original payload. *)
Theorem discardEPB_undoes_escaping (h : Z) (payload : list Z) :
  discardEPB (h :: escape_epb 0 payload) = h :: payload.
Proof. rewrite discardEPB_spec. f_equal. apply strip_escape_epb. Qed.

(** ** The bit reader on well-formed data *)

Lemma to_int32_mod (z : Z) : to_int32 z mod 2 ^ 32 = z mod 2 ^ 32.
Proof.
  unfold to_int32. change (2 ^ 31) with 2147483648. change (2 ^ 32) with 4294967296.
  Z.div_mod_to_equations. lia.
Qed.

Lemma to_int32_range (z : Z) : - 2 ^ 31 <= to_int32 z < 2 ^ 31.
Proof.
  unfold to_int32. change (2 ^ 31) with 2147483648. change (2 ^ 32) with 4294967296.
  Z.div_mod_to_equations. lia.
Qed.

Lemma testbit_to_int32 (z u : Z) :
  0 <= u < 32 -> Z.testbit (to_int32 z) u = Z.testbit z u.
Proof.
  intros Hu. rewrite <- (Z.mod_pow2_bits_low (to_int32 z) 32 u) by lia.
  rewrite to_int32_mod. by rewrite Z.mod_pow2_bits_low by lia.
Qed.

Lemma testbit_byte_high (b u : Z) : 0 <= b < 256 -> 8 <= u -> Z.testbit b u = false.
Proof.
  intros Hb Hu. rewrite <- (Z.mod_small b (2 ^ 8)) by (change (2 ^ 8) with 256; lia).
  by rewrite Z.mod_pow2_bits_high by lia.
Qed.

Lemma bits_down_ext (f g : Z -> bool) (n : nat) :
  (forall t, 0 <= t < Z.of_nat n -> f t = g t) -> bits_down f n = bits_down g n.
Proof.
  induction n as [|n IH]; intros H; cbn [bits_down]; [done|].
  rewrite H by lia. f_equal. apply IH. intros t Ht. apply H. lia.
Qed.

Lemma bits_down_add (f : Z -> bool) (n m : nat) :
  bits_down f (n + m) = bits_down (fun t => f (t + Z.of_nat m)) n ++ bits_down f m.
Proof.
  induction n as [|n IH]; cbn [bits_down Nat.add app]; [done|].
  rewrite IH. f_equal. f_equal. lia.
Qed.

Lemma length_bits_down (f : Z -> bool) (n : nat) : length (bits_down f n) = n.
Proof. induction n as [|n IH]; cbn; [done|]. by rewrite IH. Qed.

Lemma length_bytes_bits (l : list Z) : length (bytes_bits l) = (8 * length l)%nat.
Proof.
  induction l as [|b l IH]; [done|]. unfold bytes_bits in *. cbn [map concat].
  rewrite length_app, IH. unfold byte_bits. rewrite length_bits_down. cbn [length]. lia.
Qed.

Lemma bits_value_acc (g : Z -> bool) (n : nat) (acc u : Z) :
  0 <= u ->
  Z.testbit (fold_left (fun a b => 2 * a + Z.b2z b) (bits_down g n) acc) u
  = if u <? Z.of_nat n then g u else Z.testbit acc (u - Z.of_nat n).
Proof.
  revert acc. induction n as [|n IH]; intros acc Hu.
  - cbn [bits_down fold_left]. destruct (Z.ltb_spec u (Z.of_nat 0)); [lia|].
    f_equal. lia.
  - cbn [bits_down fold_left]. rewrite IH by done.
    destruct (Z.ltb_spec u (Z.of_nat n)), (Z.ltb_spec u (Z.of_nat (S n))); try lia; [done| |].
    + assert (u = Z.of_nat n) as -> by lia. rewrite Z.sub_diag. apply Z.testbit_0_r.
    + replace (u - Z.of_nat n) with (Z.succ (u - Z.of_nat (S n))) by lia.
      apply Z.testbit_succ_r. lia.
Qed.

Lemma bits_value_testbit (g : Z -> bool) (n : nat) (u : Z) :
  0 <= u ->
  Z.testbit (bits_value (bits_down g n)) u = (u <? Z.of_nat n) && g u.
Proof.
  intros Hu. unfold bits_value. rewrite bits_value_acc by done.
  destruct (u <? Z.of_nat n); cbn [andb]; [done|]. apply Z.bits_0.
Qed.

Lemma bits_value_nonneg (bs : list bool) : 0 <= bits_value bs.
Proof.
  unfold bits_value.
  assert (forall acc, 0 <= acc -> 0 <= fold_left (fun a b => 2 * a + Z.b2z b) bs acc) as H.
  { induction bs as [|b bs IH]; intros acc Ha; cbn [fold_left]; [done|].
    apply IH. destruct b; cbn [Z.b2z]; lia. }
  apply H. lia.
Qed.

(** The window after one turn of [read]: the new byte below the old
    window. *)
Lemma wbit_shift (c fb d : Z) (t : Z) :
  0 <= fb < 256 -> 8 <= t < 40 ->
  Z.testbit (js_or (js_shl c 8) fb) (t - 8)
  = if t - 8 <? 8 then Z.testbit fb (t - 8) else Z.testbit c (t - 8 - 8).
Proof.
  intros Hfb Ht. unfold js_or, js_shl. change (8 mod 32) with 8.
  rewrite Z.lor_spec, !testbit_to_int32 by lia.
  destruct (Z.ltb_spec (t - 8) 8).
  - rewrite Z.shiftl_spec_low by lia. done.
  - rewrite Z.shiftl_spec by lia. rewrite testbit_to_int32 by lia.
    rewrite (testbit_byte_high fb) by lia. apply orb_false_r.
Qed.

Lemma js_and_ff_cache (c fb : Z) :
  0 <= fb < 256 -> js_and (js_or (js_shl c 8) fb) 0xff = fb.
Proof.
  intros Hfb. unfold js_and. rewrite (to_int32_small 255) by lia.
  apply Z.bits_inj'. intros u Hu. rewrite Z.land_spec.
  destruct (Z.lt_ge_cases u 8) as [Hlt|Hge].
  - rewrite testbit_to_int32 by lia.
    pose proof (wbit_shift c fb 0 (u + 8) Hfb ltac:(lia)) as H.
    replace (u + 8 - 8) with u in H by lia. rewrite H.
    destruct (Z.ltb_spec u 8); [|lia].
    change 255 with (Z.ones 8). rewrite Z.ones_spec_low by lia. apply andb_true_r.
  - change 255 with (Z.ones 8). rewrite Z.ones_spec_high by lia.
    rewrite (testbit_byte_high fb) by lia. apply andb_false_r.
Qed.

Lemma pending_bytes (p : HEVCSpsParser) (d : Z) (rest : list Z) :
  bytes_ok (sps_data p) -> pending p = d :: rest -> 0 <= d < 256.
Proof.
  unfold pending. intros Hb Hp.
  assert (d ∈ sps_data p) as Hin.
  { eapply list_elem_of_lookup_2 with (i := (length (sps_data p) - bytesAvailable p)%nat).
    rewrite <- (Nat.add_0_r (_ - _)%nat), <- lookup_drop, Hp. done. }
  unfold bytes_ok in Hb. rewrite Forall_forall in Hb. by apply Hb.
Qed.

(** One turn of the loop of [read] on well-formed data: the byte fetched
    joins the cached bits, nothing is skipped. *)
Lemma read_step_wf (p : HEVCSpsParser) (d : Z) (rest : list Z) :
  reader_wf p -> pending p = d :: rest -> bitsInCache p + 8 <= 40 ->
  reader_wf (read_step p) /\ pending (read_step p) = rest /\
  bitsInCache (read_step p) = bitsInCache p + 8 /\
  cached_bits (read_step p) = cached_bits p ++ byte_bits d.
Proof.
  intros (HB & Hfb & Hav & Hby & Hepb) Hp H40.
  pose proof (pending_bytes p d rest Hby Hp) as Hd.
  destruct (getByte_pending p Hav) as (Vp & Pp & Lp & Fp & Cp & Bp).
  assert (sps_data (getByte p).2 = sps_data p) as Dp by done.
  unfold read_step. destruct (getByte p) as [b1 p1]. cbn [fst snd] in *.
  rewrite Hp in Vp, Pp. cbn [head default tail id] in Vp, Pp. subst b1.
  rewrite Fp, Cp.
  assert ((d =? 3) && (firstByte p =? 0) && (js_and (cache p) 255 =? 0) = false) as ->.
  { rewrite Hp in Hepb. cbn [no_epb] in Hepb.
    apply andb_true_iff in Hepb as [Hn _]. apply negb_true_iff in Hn.
    destruct (d =? 3), (firstByte p =? 0), (js_and (cache p) 255 =? 0); done. }
  cbn [firstByte cache bitsInCache sps_data bytesAvailable].
  split; [|split; [|split]].
  - unfold reader_wf, pending.
    cbn [firstByte cache bitsInCache sps_data bytesAvailable].
    rewrite Bp, Fp, Cp. fold (pending p1). rewrite Pp.
    split; [lia|]. split; [done|]. split; [done|]. split; [by rewrite Dp|].
    rewrite js_and_ff_cache by done.
    rewrite Hp in Hepb. cbn [no_epb] in Hepb.
    by apply andb_true_iff in Hepb as [_ Hn].
  - unfold pending. cbn [sps_data bytesAvailable]. exact Pp.
  - lia.
  - unfold cached_bits. cbn [bitsInCache]. rewrite Bp.
    replace (Z.to_nat (bitsInCache p + 8)) with (Z.to_nat (bitsInCache p) + 8)%nat by lia.
    rewrite bits_down_add.
    assert (bits_down (wbit {| sps_data := sps_data p1; bytesAvailable := bytesAvailable p1;
                               bitsAvailable := bitsAvailable p1; firstByte := d;
                               cache := js_or (js_shl (cache p1) 8) (firstByte p1);
                               bitsInCache := bitsInCache p + 8 |}) 8
            = byte_bits d) as -> by done.
    f_equal. apply bits_down_ext. intros t Ht. unfold wbit at 1.
    cbn [firstByte cache]. change (Z.of_nat 8) with 8.
    destruct (Z.ltb_spec (t + 8) 8); [lia|].
    rewrite Fp, Cp.
    rewrite (wbit_shift (cache p) (firstByte p) 0 (t + 8)) by lia.
    unfold wbit. replace (t + 8 - 8) with t by lia. done.
Qed.

Lemma upcoming_read_step (p : HEVCSpsParser) (d : Z) (rest : list Z) :
  reader_wf p -> pending p = d :: rest -> bitsInCache p + 8 <= 40 ->
  upcoming (read_step p) = upcoming p.
Proof.
  intros Hwf Hp H40. destruct (read_step_wf p d rest Hwf Hp H40) as (_ & Pp & _ & Cb).
  unfold upcoming. rewrite Cb, Pp, Hp. unfold bytes_bits. cbn [map concat].
  by rewrite <- app_assoc.
Qed.

Lemma length_upcoming (p : HEVCSpsParser) :
  0 <= bitsInCache p ->
  Z.of_nat (length (upcoming p)) = bitsInCache p + 8 * Z.of_nat (length (pending p)).
Proof.
  intros HB. unfold upcoming, cached_bits.
  rewrite length_app, length_bits_down, length_bytes_bits. lia.
Qed.

Lemma read_loop_wf (fuel : nat) (n : Z) (p : HEVCSpsParser) :
  reader_wf p -> n <= 32 ->
  n <= Z.of_nat (length (upcoming p)) ->
  n <= bitsInCache p + 8 * Z.of_nat fuel ->
  let p' := read_loop fuel n p in
  reader_wf p' /\ upcoming p' = upcoming p /\ n <= bitsInCache p' /\
  (bitsInCache p' = bitsInCache p \/ bitsInCache p' < n + 8).
Proof.
  revert p. induction fuel as [|fuel IH]; intros p Hwf Hn Hlen Hf; cbn [read_loop].
  - cbv zeta. split; [done|]. split; [done|]. split; [lia|by left].
  - destruct (Z.ltb_spec (bitsInCache p) n) as [Hlt|Hge].
    2:{ cbv zeta. split; [done|]. split; [done|]. split; [lia|by left]. }
    pose proof Hwf as (HB & _).
    rewrite length_upcoming in Hlen by done.
    destruct (pending p) as [|d rest] eqn:Hp; [cbn [length] in Hlen; lia|].
    destruct (read_step_wf p d rest Hwf Hp ltac:(lia)) as (Hwf1 & Pp & Bp & Cb).
    pose proof (upcoming_read_step p d rest Hwf Hp ltac:(lia)) as Hup.
    destruct (IH (read_step p) Hwf1 Hn) as (Hwf' & Hup' & Hn' & Hb').
    + rewrite Hup, length_upcoming, Hp by done. lia.
    + lia.
    + cbv zeta. split; [done|]. split; [congruence|]. split; [done|].
      right. destruct Hb' as [-> | ?]; lia.
Qed.

Lemma read_wf (n : Z) (p : HEVCSpsParser) (bs : list bool) :
  reads p bs -> 0 <= n <= 32 -> n <= Z.of_nat (length bs) ->
  reader_wf (read n p) /\ upcoming (read n p) = upcoming p /\
  n <= bitsInCache (read n p) <= n + 7.
Proof.
  intros (Hwf & H7 & rest & Hup) Hn Hlen. pose proof Hwf as (HB & _).
  assert (n <= Z.of_nat (length (upcoming p))) as Hlen'.
  { rewrite Hup, length_app. lia. }
  destruct (read_loop_wf (Z.to_nat ((n - bitsInCache p + 7) / 8)) n p Hwf ltac:(lia) Hlen')
    as (Hwf' & Hup' & Hn' & Hb').
  - destruct (Z.le_gt_cases n (bitsInCache p)) as [Hle|Hgt]; [lia|].
    rewrite Z2Nat.id by (apply Z.div_pos; lia).
    pose proof (Z.mul_succ_div_gt (n - bitsInCache p + 7) 8 ltac:(lia)). lia.
  - unfold read. split; [done|]. split; [done|]. lia.
Qed.

Lemma mask_ones (n : Z) : 0 <= n <= 31 -> to_int32 (js_shl 1 n - 1) = Z.ones n.
Proof.
  intros Hn. apply Z.eqb_eq.
  assert (forallb (fun n => to_int32 (js_shl 1 n - 1) =? Z.ones n) (seqZ 0 32) = true) as H
    by (by vm_compute).
  rewrite forallb_forall in H. apply H. apply list_elem_of_In, elem_of_seqZ. lia.
Qed.

Lemma js_shl_1 (n : Z) : 0 <= n <= 30 -> js_shl 1 n = 2 ^ n.
Proof.
  intros Hn. apply Z.eqb_eq.
  assert (forallb (fun n => js_shl 1 n =? 2 ^ n) (seqZ 0 31) = true) as H by (by vm_compute).
  rewrite forallb_forall in H. apply H. apply list_elem_of_In, elem_of_seqZ. lia.
Qed.

(** The value [readBits] builds from the window. *)
Lemma readBits_window (fb c shift n : Z) :
  0 <= fb < 256 -> 0 <= shift <= 7 -> 0 <= n <= 31 ->
  js_and (js_or (js_sar fb shift) (js_shl c (8 - shift))) (js_shl 1 n - 1)
  = bits_value (bits_down
      (fun t => if t + shift <? 8 then Z.testbit fb (t + shift)
                else Z.testbit c (t + shift - 8)) (Z.to_nat n)).
Proof.
  intros Hfb Hs Hn. unfold js_and. rewrite mask_ones by done.
  apply Z.bits_inj'. intros u Hu.
  rewrite bits_value_testbit, Z.land_spec by done. rewrite Z2Nat.id by lia.
  destruct (Z.ltb_spec u n) as [Hlt|Hge].
  2:{ rewrite Z.ones_spec_high by lia. apply andb_false_r. }
  rewrite Z.ones_spec_low by lia. rewrite andb_true_r. cbn [andb].
  rewrite testbit_to_int32 by lia.
  unfold js_or, js_sar, js_shl. rewrite Z.lor_spec, !testbit_to_int32 by lia.
  rewrite (Z.mod_small shift 32), (Z.mod_small (8 - shift) 32) by lia.
  rewrite (to_int32_small fb) by lia.
  rewrite Z.shiftr_spec by lia.
  destruct (Z.ltb_spec (u + shift) 8).
  - rewrite Z.shiftl_spec_low by lia. apply orb_false_r.
  - rewrite testbit_byte_high by lia. cbn [orb].
    rewrite Z.shiftl_spec by lia. rewrite testbit_to_int32 by lia. f_equal. lia.
Qed.

Lemma reads_split (p : HEVCSpsParser) (n : Z) :
  0 <= n <= bitsInCache p ->
  cached_bits p
  = bits_down (fun t => wbit p (t + (bitsInCache p - n))) (Z.to_nat n)
    ++ bits_down (wbit p) (Z.to_nat (bitsInCache p - n)).
Proof.
  intros Hn. unfold cached_bits.
  replace (Z.to_nat (bitsInCache p)) with (Z.to_nat n + Z.to_nat (bitsInCache p - n))%nat by lia.
  rewrite bits_down_add. f_equal. apply bits_down_ext. intros t Ht. f_equal. lia.
Qed.

Lemma reader_wf_set_bits (v : Z) (p : HEVCSpsParser) :
  reader_wf p -> 0 <= v -> reader_wf (set_bitsInCache v p).
Proof. intros (? & ? & ? & ? & ?) Hv. unfold reader_wf, pending in *. cbn. done. Qed.

(** [readBits] and [skipBits] on a reader about to hand out [b1 ++ b2]:
    the value of [b1] is returned and [b2] is next. *)
Lemma readBits_reads (p : HEVCSpsParser) (b1 b2 : list bool) :
  reads p (b1 ++ b2) -> (length b1 <= 31)%nat ->
  (readBits (Z.of_nat (length b1)) p).1 = bits_value b1 /\
  reads (readBits (Z.of_nat (length b1)) p).2 b2.
Proof.
  intros Hr Hl. set (n := Z.of_nat (length b1)).
  destruct (read_wf n p (b1 ++ b2) Hr ltac:(lia)) as (Hwf & Hup & Hb).
  { rewrite length_app. lia. }
  destruct Hr as (_ & _ & rest & Hrest).
  unfold readBits. set (p1 := read n p) in *. cbn [fst snd].
  set (shift := bitsInCache p1 - n).
  pose proof Hwf as (HB & Hfb & _).
  assert (upcoming p1
          = bits_down (fun t => wbit p1 (t + shift)) (Z.to_nat n)
            ++ bits_down (wbit p1) (Z.to_nat shift) ++ bytes_bits (pending p1)) as Hsplit.
  { unfold upcoming. rewrite (reads_split p1 n) by lia. by rewrite <- app_assoc. }
  rewrite Hup, Hrest, <- app_assoc in Hsplit.
  apply app_inj_1 in Hsplit as [H1 H2].
  2:{ rewrite length_bits_down. lia. }
  split.
  - rewrite readBits_window by lia. by rewrite H1.
  - split; [by apply reader_wf_set_bits; [|lia]|]. cbn [bitsInCache set_bitsInCache].
    split; [lia|]. exists rest. rewrite H2. unfold upcoming, cached_bits, pending.
    cbn [bitsInCache set_bitsInCache sps_data bytesAvailable]. f_equal.
Qed.

Lemma skipBits_reads (p : HEVCSpsParser) (b1 b2 : list bool) :
  reads p (b1 ++ b2) -> (length b1 <= 32)%nat ->
  reads (skipBits (Z.of_nat (length b1)) p) b2.
Proof.
  intros Hr Hl. set (n := Z.of_nat (length b1)).
  destruct (read_wf n p (b1 ++ b2) Hr ltac:(lia)) as (Hwf & Hup & Hb).
  { rewrite length_app. lia. }
  destruct Hr as (_ & _ & rest & Hrest).
  unfold skipBits. set (p1 := read n p) in *.
  set (shift := bitsInCache p1 - n).
  pose proof Hwf as (HB & Hfb & _).
  assert (upcoming p1
          = bits_down (fun t => wbit p1 (t + shift)) (Z.to_nat n)
            ++ bits_down (wbit p1) (Z.to_nat shift) ++ bytes_bits (pending p1)) as Hsplit.
  { unfold upcoming. rewrite (reads_split p1 n) by lia. by rewrite <- app_assoc. }
  rewrite Hup, Hrest, <- app_assoc in Hsplit.
  apply app_inj_1 in Hsplit as [H1 H2].
  2:{ rewrite length_bits_down. lia. }
  split; [by apply reader_wf_set_bits; [|lia]|]. cbn [bitsInCache set_bitsInCache].
  split; [lia|]. exists rest. rewrite H2. unfold upcoming, cached_bits, pending.
  cbn [bitsInCache set_bitsInCache sps_data bytesAvailable]. f_equal.
Qed.

Lemma no_epb_cons (a : Z) (l : list Z) :
  a <> 0 -> no_epb l = true -> no_epb (a :: l) = true.
Proof.
  intros Ha Hl. cbn [no_epb]. destruct l as [|b [|c r]]; try done.
  destruct (Z.eqb_spec a 0); [done|]. cbn [andb negb]. exact Hl.
Qed.

Lemma reads_new (data : list Z) :
  bytes_ok data -> no_epb data = true ->
  reads (HEVCSpsParser_new data) (bytes_bits data).
Proof.
  intros Hb He. unfold reads, reader_wf, upcoming, cached_bits, pending.
  cbn [HEVCSpsParser_new bitsInCache firstByte cache sps_data bytesAvailable].
  rewrite Nat.sub_diag, drop_0.
  split; [|split; [lia|exists []; by rewrite app_nil_r]].
  split; [lia|]. split; [lia|]. split; [lia|]. split; [done|].
  change (js_and 255 255) with 255. apply no_epb_cons; [done|]. by apply no_epb_cons.
Qed.

Lemma reads_take_drop (p : HEVCSpsParser) (bs : list bool) (n : Z) :
  reads p bs -> 0 <= n <= Z.of_nat (length bs) ->
  reads p (take (Z.to_nat n) bs ++ drop (Z.to_nat n) bs) /\
  Z.of_nat (length (take (Z.to_nat n) bs)) = n.
Proof.
  intros Hr Hn. rewrite take_drop. split; [done|]. rewrite length_take. lia.
Qed.

Lemma calls_size_nonneg (cs : list reader_call) :
  Forall (fun c => 0 <= call_size c <= 31) cs -> 0 <= calls_size cs.
Proof.
  intros Hall. unfold calls_size. induction Hall as [|c cs Hc _ IH]; cbn [foldr]; lia.
Qed.

Lemma run_calls_fields (cs : list reader_call) (p : HEVCSpsParser) (bs : list bool) :
  reads p bs ->
  Forall (fun c => 0 <= call_size c <= 31) cs ->
  calls_size cs <= Z.of_nat (length bs) ->
  (run_calls cs p).1 = fields_of cs bs /\
  reads (run_calls cs p).2 (drop (Z.to_nat (calls_size cs)) bs).
Proof.
  revert p bs. induction cs as [|c cs IH]; intros p bs Hr Hall Hsz; [done|].
  apply Forall_cons in Hall as [Hc Hall].
  pose proof (calls_size_nonneg cs Hall) as Hpos.
  cbn [calls_size foldr] in *. fold (calls_size cs) in *.
  destruct c as [n|n]; cbn [call_size] in *.
  - destruct (reads_take_drop p bs n Hr ltac:(lia)) as [Hr' Hl].
    destruct (readBits_reads p _ _ Hr') as [Hv Hr2]; [lia|]. rewrite Hl in Hv, Hr2.
    cbn [run_calls fields_of]. destruct (readBits n p) as [v p1]. cbn [fst snd] in *.
    specialize (IH p1 (drop (Z.to_nat n) bs) Hr2 Hall).
    destruct (run_calls cs p1) as [vs p2]. cbn [fst snd] in *.
    destruct IH as [IH1 IH2]; [rewrite length_drop; lia|].
    rewrite Hv, IH1. split; [done|]. rewrite drop_drop in IH2.
    by replace (Z.to_nat (n + calls_size cs))
      with (Z.to_nat n + Z.to_nat (calls_size cs))%nat by lia.
  - destruct (reads_take_drop p bs n Hr ltac:(lia)) as [Hr' Hl].
    assert (length (take (Z.to_nat n) bs) <= 32)%nat as Hl32 by lia.
    pose proof (skipBits_reads p _ _ Hr' Hl32) as Hr2. rewrite Hl in Hr2.
    cbn [run_calls fields_of].
    specialize (IH (skipBits n p) (drop (Z.to_nat n) bs) Hr2 Hall).
    destruct (run_calls cs (skipBits n p)) as [vs p2]. cbn [fst snd] in *.
    destruct IH as [IH1 IH2]; [rewrite length_drop; lia|].
    rewrite IH1. split; [done|]. rewrite drop_drop in IH2.
    by replace (Z.to_nat (n + calls_size cs))
      with (Z.to_nat n + Z.to_nat (calls_size cs))%nat by lia.
Qed.

(** X11: on a byte array without emulation-prevention pattern, a run of
    [readBits] and [skipBits] calls of 0 to 31 bits each, within the
    data, walks through the bits of the array from the most significant
    bit of byte 0 on: every [readBits(n)] returns the number spelled by
    the next [n] bits, every [skipBits(n)] passes over [n] bits, and the
    reader is left in front of the bits that follow. *)
Theorem reader_returns_bit_fields (data : list Z) (cs : list reader_call) :
  bytes_ok data -> no_epb data = true ->
  Forall (fun c => 0 <= call_size c <= 31) cs ->
  calls_size cs <= 8 * Z.of_nat (length data) ->
  (run_calls cs (HEVCSpsParser_new data)).1 = fields_of cs (bytes_bits data) /\
  reads (run_calls cs (HEVCSpsParser_new data)).2
        (drop (Z.to_nat (calls_size cs)) (bytes_bits data)).
Proof.
  intros Hb He Hall Hsz. apply run_calls_fields; [by apply reads_new|done|].
  rewrite length_bytes_bits. lia.
Qed.

Lemma reader_returns_bit_fields_witness :
  (run_calls [ReadBits 4; SkipBits 7; ReadBits 13] (HEVCSpsParser_new [0xA5; 0x0F; 0xC3])).1
  = [Some 0xA; None; Some 0xFC3].
Proof.
  destruct (reader_returns_bit_fields [0xA5; 0x0F; 0xC3] [ReadBits 4; SkipBits 7; ReadBits 13])
    as [-> _].
  - by apply bytes_ok_check.
  - reflexivity.
  - repeat constructor; cbn; lia.
  - cbn. lia.
  - reflexivity.
Defined.

Lemma readBits_masked (n : Z) (p : HEVCSpsParser) :
  0 <= n <= 31 -> 0 <= (readBits n p).1 < 2 ^ n.
Proof.
  intros Hn. unfold readBits. cbn [fst]. unfold js_and.
  rewrite mask_ones by done. rewrite Z.land_ones by lia.
  apply Z.mod_pos_bound. apply Z.pow_pos_nonneg; lia.
Qed.

(** X12: whatever the state of the reader and whatever its data,
    [readBits(n)] with 0 <= n <= 31 returns a number between 0 and
    2^n - 1. *)
Theorem readBits_range (n : Z) (p : HEVCSpsParser) :
  0 <= n <= 31 -> 0 <= (readBits n p).1 < 2 ^ n.
Proof. apply readBits_masked. Qed.

Lemma readBits_range_witness :
  0 <= (readBits 31 (HEVCSpsParser_new [0xFF; 0xFF; 0xFF; 0xFF])).1 < 2 ^ 31.
Proof. apply readBits_range. lia. Defined.

(** ** Exp-Golomb codes *)

Lemma read_zero_tail (p : HEVCSpsParser) :
  zero_tail p ->
  let p1 := read 1 p in
  1 <= bitsInCache p1 <= 8 /\ 0 <= firstByte p1 < 256 /\
  firstByte p1 mod 2 ^ bitsInCache p1 = 0 /\
  (bytesAvailable p1 <= length (sps_data p1))%nat /\
  Forall (fun b => b = 0) (pending p1).
Proof.
  intros (HB & Hfb & Hz & Hav & Hp). cbv zeta. unfold read.
  destruct (decide (bitsInCache p = 0)) as [H0|H0].
  - rewrite H0. change (Z.to_nat ((1 - 0 + 7) / 8)) with 1%nat. cbn [read_loop].
    rewrite H0. cbn [Z.ltb Z.compare].
    destruct (getByte_pending p Hav) as (Vp & Pp & Lp & Fp & Cp & Bp).
    assert ((getByte p).1 = 0) as V0.
    { rewrite Vp. destruct (pending p) as [|d r]; [done|].
      apply Forall_cons in Hp as [-> _]. done. }
    assert (Forall (fun b => b = 0) (pending (getByte p).2)) as Hp1.
    { rewrite Pp. destruct (pending p) as [|d r]; [done|].
      apply Forall_cons in Hp as [_ Hp]. done. }
    assert (sps_data (getByte p).2 = sps_data p) as Dp by done.
    clear Vp.
    unfold read_step. destruct (getByte p) as [b1 p1]. cbn [fst snd] in *. subst b1.
    cbn [Z.eqb andb]. unfold pending in *.
    cbn [bitsInCache firstByte sps_data bytesAvailable].
    rewrite Bp, H0. repeat split; try done; lia.
  - assert (Z.to_nat ((1 - bitsInCache p + 7) / 8) = 0%nat \/
            exists k, Z.to_nat ((1 - bitsInCache p + 7) / 8) = S k) as [->|[k ->]]
      by (destruct (Z.to_nat _); eauto).
    + cbn [read_loop]. repeat split; try done; lia.
    + cbn [read_loop]. destruct (Z.ltb_spec (bitsInCache p) 1); [lia|].
      repeat split; try done; lia.
Qed.

Lemma readBits1_zero_tail (p : HEVCSpsParser) :
  zero_tail p -> (readBits 1 p).1 = 0 /\ zero_tail (readBits 1 p).2.
Proof.
  intros Hz. pose proof (read_zero_tail p Hz) as H. cbv zeta in H.
  unfold readBits. set (p1 := read 1 p) in *. cbn [fst snd].
  destruct H as (HB & Hfb & Hm & Hav & Hp).
  set (shift := bitsInCache p1 - 1).
  assert (firstByte p1 mod 2 ^ shift = 0 /\ Z.testbit (firstByte p1) shift = false) as [Hm' Hbit].
  { assert (2 ^ bitsInCache p1 = 2 * 2 ^ shift) as Hpow.
    { unfold shift. rewrite <- Z.pow_succ_r by lia. f_equal. lia. }
    assert (0 < 2 ^ shift) as Hpos by (apply Z.pow_pos_nonneg; lia).
    rewrite Hpow in Hm. apply Z.mod_divide in Hm; [|lia]. destruct Hm as [q Hq].
    split.
    - rewrite Hq. apply Z.mod_divide; [lia|]. exists (q * 2). lia.
    - assert (Z.b2z (Z.testbit (firstByte p1) shift) = 0) as Hb0.
      { rewrite Z.testbit_spec' by (unfold shift; lia). rewrite Hq.
        replace (q * (2 * 2 ^ shift)) with (q * 2 * 2 ^ shift) by lia.
        rewrite Z.div_mul by lia. apply Z.mod_divide; [lia|]. by exists q. }
      by destruct (Z.testbit (firstByte p1) shift). }
  split.
  - rewrite (readBits_window (firstByte p1) (cache p1) shift 1) by (unfold shift; lia).
    change (Z.to_nat 1) with 1%nat. cbn [bits_down bits_value fold_left].
    change (Z.of_nat 0) with 0. rewrite !Z.add_0_l.
    destruct (Z.ltb_spec shift 8); [|unfold shift in *; lia].
    rewrite Hbit. done.
  - unfold zero_tail, pending in *.
    cbn [set_bitsInCache bitsInCache firstByte sps_data bytesAvailable].
    fold shift. repeat split; try done; unfold shift; lia.
Qed.

Lemma readUE_zeros_zero_tail (fuel : nat) (i : Z) (p : HEVCSpsParser) :
  zero_tail p -> readUE_zeros fuel i 0 p = None.
Proof.
  revert i p. induction fuel as [|fuel IH]; intros i p Hz; cbn [readUE_zeros]; [done|].
  cbn [Z.eqb]. destruct (readBits1_zero_tail p Hz) as [Hv Hz'].
  destruct (readBits 1 p) as [bit p1]. cbn [fst snd] in *. subst bit. by apply IH.
Qed.

Lemma zero_tail_new (k : nat) : zero_tail (HEVCSpsParser_new (replicate k 0)).
Proof.
  unfold zero_tail, pending.
  cbn [HEVCSpsParser_new bitsInCache firstByte sps_data bytesAvailable].
  rewrite Nat.sub_diag, drop_0. repeat split; try done; try lia.
  by apply Forall_replicate.
Qed.

(** X13: [readUE] does not return when only zero bits are left: on a
    reader whose cached bits and pending bytes are all zero, and so on
    a fresh reader over an empty or all-zero array, the loop that counts
    leading zeros is still running after any number of turns. *)
Theorem readUE_loops_on_zero_tail (p : HEVCSpsParser) (k fuel : nat) :
  (zero_tail p -> readUE fuel p = None) /\
  readUE fuel (HEVCSpsParser_new (replicate k 0)) = None.
Proof.
  assert (forall q, zero_tail q -> readUE fuel q = None) as H.
  { intros q Hz. unfold readUE. destruct (readBits1_zero_tail q Hz) as [Hv Hz'].
    destruct (readBits 1 q) as [bit p1]. cbn [fst snd] in *. subst bit.
    by rewrite readUE_zeros_zero_tail. }
  split; [apply H|]. apply H, zero_tail_new.
Qed.

Lemma bits_value_to_bits (n : nat) (x : Z) :
  bits_value (to_bits n x) = x mod 2 ^ Z.of_nat n.
Proof.
  apply Z.bits_inj'. intros u Hu. unfold to_bits.
  rewrite bits_value_testbit by done.
  rewrite Z.testbit_mod_pow2 by lia. done.
Qed.

Lemma ue_bits_shape (v : Z) :
  0 <= v ->
  ue_bits v
  = replicate (Z.to_nat (Z.log2 (v + 1))) false
    ++ true :: to_bits (Z.to_nat (Z.log2 (v + 1))) (v + 1).
Proof.
  intros Hv. unfold ue_bits, to_bits. cbn [bits_down].
  rewrite Z2Nat.id by apply Z.log2_nonneg. by rewrite Z.bit_log2 by lia.
Qed.

Lemma readUE_leading_zeros (k fuel : nat) (i : Z) (p : HEVCSpsParser) (b : list bool) :
  reads p (replicate k false ++ true :: b) -> (k < fuel)%nat ->
  exists p', readUE_zeros fuel i (readBits 1 p).1 (readBits 1 p).2
             = Some (i + Z.of_nat k, p') /\ reads p' b.
Proof.
  revert fuel i p. induction k as [|k IH]; intros fuel i p Hr Hf.
  - cbn [replicate app] in Hr.
    destruct (readBits_reads p [true] b Hr ltac:(cbn; lia)) as [Hv Hr1].
    change (Z.of_nat (length [true])) with 1 in Hv, Hr1.
    destruct fuel as [|fuel]; [lia|]. cbn [readUE_zeros]. rewrite Hv.
    change (bits_value [true] =? 0) with false. cbn iota.
    exists (readBits 1 p).2. split; [f_equal; f_equal; lia|done].
  - cbn [replicate app] in Hr.
    destruct (readBits_reads p [false] (replicate k false ++ true :: b) Hr ltac:(cbn; lia))
      as [Hv Hr1].
    change (Z.of_nat (length [false])) with 1 in Hv, Hr1.
    destruct fuel as [|fuel]; [lia|]. cbn [readUE_zeros]. rewrite Hv.
    change (bits_value [false] =? 0) with true. cbn iota.
    destruct (IH fuel (i + 1) (readBits 1 p).2 Hr1 ltac:(lia)) as (p' & Hz & Hr').
    destruct (readBits 1 (readBits 1 p).2) as [bit p2]. cbn [fst snd] in Hz.
    exists p'. split; [|done]. rewrite Hz. f_equal. f_equal. lia.
Qed.

Lemma readUE_reads (v : Z) (fuel : nat) (p : HEVCSpsParser) (b : list bool) :
  reads p (ue_bits v ++ b) -> 0 <= v < 2 ^ 31 - 1 -> Z.log2 (v + 1) < Z.of_nat fuel ->
  exists p', readUE fuel p = Some (v, p') /\ reads p' b.
Proof.
  intros Hr Hv Hf. rewrite ue_bits_shape in Hr by lia.
  set (n := Z.to_nat (Z.log2 (v + 1))) in *.
  pose proof (Z.log2_nonneg (v + 1)) as Hn0.
  assert (Z.log2 (v + 1) < 31) as Hn31.
  { apply Z.log2_lt_pow2; lia. }
  pose proof (Z.log2_spec (v + 1) ltac:(lia)) as Hspec.
  rewrite <- app_assoc in Hr. cbn [app] in Hr.
  destruct (readUE_leading_zeros n fuel 0 p _ Hr ltac:(lia)) as (p1 & Hz & Hr1).
  unfold readUE. destruct (readBits 1 p) as [bit p0]. cbn [fst snd] in Hz.
  rewrite Hz. cbn [mbind option_bind]. rewrite Z.add_0_l.
  destruct (readBits_reads p1 (to_bits n (v + 1)) b Hr1) as [Hval Hr2].
  { unfold to_bits. rewrite length_bits_down. lia. }
  unfold to_bits in Hval, Hr2. rewrite length_bits_down in Hval, Hr2.
  fold (to_bits n (v + 1)) in Hval.
  destruct (readBits (Z.of_nat n) p1) as [val p2]. cbn [fst snd] in *.
  exists p2. split; [|done]. f_equal. f_equal.
  rewrite Hval, bits_value_to_bits. rewrite js_shl_1 by lia.
  unfold n. rewrite Z2Nat.id by done.
  rewrite Z.pow_succ_r in Hspec by done.
  assert ((v + 1) mod 2 ^ Z.log2 (v + 1) = v + 1 - 2 ^ Z.log2 (v + 1)) as ->.
  { symmetry. apply (Z.mod_unique _ _ 1); lia. }
  lia.
Qed.

(** X14: [readUE] decodes Exp-Golomb code words.  On a reader over
    well-formed data that is about to hand out the code word of a
    number [v], 0 <= v < 2^31 - 1, and given enough turns for its
    leading zeros, it returns [v] and leaves the reader right behind
    the code word. *)
Theorem readUE_decodes (v : Z) (fuel : nat) (p : HEVCSpsParser) (b : list bool) :
  reads p (ue_bits v ++ b) -> 0 <= v < 2 ^ 31 - 1 -> Z.log2 (v + 1) < Z.of_nat fuel ->
  exists p', readUE fuel p = Some (v, p') /\ reads p' b.
Proof. apply readUE_reads. Qed.

Lemma readUE_decodes_witness :
  exists p', readUE 11 (HEVCSpsParser_new [0x00; 0x3C; 0x00]) = Some (1919, p').
Proof.
  destruct (readUE_decodes 1919 11 (HEVCSpsParser_new [0x00; 0x3C; 0x00])
              [false; false; false])
    as (p' & Hp & _).
  - assert (ue_bits 1919 ++ [false; false; false] = bytes_bits [0x00; 0x3C; 0x00]) as ->
      by (by vm_compute).
    apply reads_new; [by apply bytes_ok_check|reflexivity].
  - lia.
  - by vm_compute.
  - by exists p'.
Defined.

(** ** The sequence parameter set *)

















(** ** Construction, decryption data and the AVC and AAC paths *)







(** X21: [_parseAACPES] works on [this._audioTrack], a field that no
    method assigns (the tracks are in [_aacTrack]).  While it is
    undefined no AAC frame is ever scanned: the call either reports
    the fatal error "no ADTS header found in AAC PES" and returns, or
    throws, in the ADTS module or at the latest where it reads
    [track.samplerate]; it never returns otherwise. *)
Theorem parseAACPES_never_scans_frames
    (isHeader : list Z -> Z -> bool)
    (initTrackConfig :
       option (Track AudioSample) -> list Z -> Z -> option string -> M unit)
    (getFrameDuration : option Z -> Q)
    (appendFrame :
       option (Track AudioSample) -> list Z -> Z -> option Q -> Z -> M (option (Z * Q)))
    (pes : option Pes) (w : World) :
  _audioTrack (this w) = None ->
  (exists w' e,
     _parseAACPES isHeader initTrackConfig getFrameDuration appendFrame pes w
     = (w', Thrown e)) \/
  _parseAACPES isHeader initTrackConfig getFrameDuration appendFrame pes w
  = (with_error (mkErrorData MEDIA_ERROR FRAG_PARSING_ERROR true
                   "no ADTS header found in AAC PES") w, Returned tt).
Proof.
  intros Ht. destruct pes as [pes|].
  2:{ left. unfold _parseAACPES, mbind, M_bind, get_this, field, throw. eauto. }
  rewrite parseAACPES_unfold.
  set (offset := aac_find_header _ _ _ _ _). set (len := Z.of_nat _).
  unfold aac_report.
  assert (forall w1, exists w' e,
            aac_continue isHeader initTrackConfig getFrameDuration appendFrame pes w offset w1
            = (w', Thrown e)) as Hc.
  { intros w1. unfold aac_continue, aac_frames. rewrite Ht.
    unfold mbind, M_bind, get_this, field, throw.
    destruct (initTrackConfig None _ _ _ w1) as [w2 [[]|e]]; eauto. }
  destruct (offset =? 0); cbn [negb].
  - left. unfold mret, M_ret. apply Hc.
  - destruct (offset <? len - 1); cbn [negb];
      unfold mbind, M_bind, trigger, modify_this, mret, M_ret.
    + left. apply Hc.
    + right. done.
Qed.

Lemma parseAACPES_never_scans_frames_witness :
  exists w' e,
    _parseAACPES ADTS_isHeader (fun _ _ _ _ => mret tt) (fun _ => 1920%Q)
      (fun _ _ _ _ _ => mret None)
      (Some (mkPes [0xFF; 0xF1; 0x50; 0x80; 0x01; 0x7F; 0xFC; 0x21] (Some 0) (Some 0) (Int 0)))
      fresh_world
    = (w', Thrown e).
Proof.
  destruct (parseAACPES_never_scans_frames ADTS_isHeader (fun _ _ _ _ => mret tt)
              (fun _ => 1920%Q) (fun _ _ _ _ _ => mret None)
              (Some (mkPes [0xFF; 0xF1; 0x50; 0x80; 0x01; 0x7F; 0xFC; 0x21]
                       (Some 0) (Some 0) (Int 0)))
              fresh_world eq_refl) as [H|H].
  - exact H.
  - exfalso. revert H. by vm_compute.
Defined.

(** ** [push] on degenerate buffers, and the end of its packet loop *)



Section push_short.
Context (parseHEVCPES parseAVCPES : option Pes -> M unit).
Context (w : World) (r : Remuxer) (data : list Z) (audioCodec videoCodec : option string).
Context (timeOffset cc level sn duration : Z).
Context (vt : Track VideoSample) (at_ : Track AudioSample) (it : Track Pes).
Context (c id3 a v t : JSVal).


End push_short.



Lemma returns_only_ret {A} (a : A) (P : A -> Prop) : P a -> returns_only (mret a) P.
Proof. intros H w w' a' [= _ <-]. exact H. Qed.

Lemma returns_only_bind {A B} (m : M A) (k : A -> M B) (P : B -> Prop) :
  (forall x, returns_only (k x) P) -> returns_only (m ≫= k) P.
Proof.
  intros H w w' b. unfold mbind, M_bind. destruct (m w) as [w1 [a|e]]; [|done].
  apply H.
Qed.

Lemma returns_only_throw {A} (e : exn) (P : A -> Prop) : returns_only (throw e) P.
Proof. intros w w' a. done. Qed.

Section push_loop_end.
Context (parseHEVCPES parseAVCPES : option Pes -> M unit).
Context (data : list Z) (syncOffset len : Z) (codecsOnly : bool) (level sn : Z).

Lemma push_video_turn (stt : bool) (offset : jsnum) (start : Z) (l : PushLocals) :
  returns_only (push_video parseHEVCPES parseAVCPES data codecsOnly level sn stt offset start l)
               (turn_ok syncOffset start l).
Proof.
  unfold push_video. destruct stt.
  - apply returns_only_bind. intros [|]; apply returns_only_ret; cbn; [done|by left].
  - apply returns_only_ret. cbn. by left.
Qed.

Lemma push_audio_turn (stt : bool) (offset : jsnum) (start : Z) (l : PushLocals) :
  returns_only (push_audio data stt offset start l) (turn_ok syncOffset start l).
Proof.
  unfold push_audio. apply returns_only_bind. intros _.
  apply returns_only_bind. intros audioData.
  apply returns_only_bind. intros _. apply returns_only_ret. cbn. by left.
Qed.

Lemma push_id3_turn (stt : bool) (offset : jsnum) (start : Z) (l : PushLocals) :
  returns_only (push_id3 data stt offset start l) (turn_ok syncOffset start l).
Proof.
  unfold push_id3. apply returns_only_bind. intros id3Data.
  apply returns_only_ret. cbn. by left.
Qed.

Lemma push_pat_turn (stt : bool) (offset : jsnum) (start : Z) (l : PushLocals) :
  returns_only (push_pat data stt offset start l) (turn_ok syncOffset start l).
Proof.
  unfold push_pat. apply returns_only_bind. intros _.
  apply returns_only_ret. cbn. by left.
Qed.

Lemma push_pmt_turn (stt : bool) (offset : jsnum) (start : Z) (l : PushLocals) :
  returns_only (push_pmt data syncOffset stt offset start l) (turn_ok syncOffset start l).
Proof.
  unfold push_pmt.
  do 13 (apply returns_only_bind; intros ?).
  apply returns_only_ret. cbn.
  destruct (l_unknownPIDs l), (l_pmtParsed l); cbn [andb negb];
    [by left|by right|by left|by left].
Qed.

Lemma push_packet_turn (start : Z) (l : PushLocals) :
  returns_only
    (push_packet parseHEVCPES parseAVCPES data syncOffset codecsOnly level sn start l)
    (turn_ok syncOffset start l).
Proof.
  unfold push_packet.
  destruct (bool_decide (elem data start = Some 71)).
  2:{ apply returns_only_bind. intros _. apply returns_only_ret. cbn. by left. }
  destruct (_ && num_eq _ _); [apply returns_only_ret; cbn; by left|].
  destruct (pid_is _ (l_videoPID l)); [apply push_video_turn|].
  apply returns_only_bind. intros audioId.
  destruct (pid_is_val _ audioId); [apply push_audio_turn|].
  destruct (pid_is _ (l_id3Id l)); [apply push_id3_turn|].
  destruct (num_eq _ (Int 0)); [apply push_pat_turn|].
  destruct (pid_is _ (l_pmtId l)); [apply push_pmt_turn|].
  destruct (_ || _); apply returns_only_ret; cbn; by left.
Qed.

Lemma push_loop_S (fuel : nat) (start : Z) (l : PushLocals) :
  push_loop parseHEVCPES parseAVCPES (S fuel) data syncOffset len codecsOnly level sn start l
  = if start <? len then
      s ← push_packet parseHEVCPES parseAVCPES data syncOffset codecsOnly level sn start l;
      match s with
      | Next start' l' =>
          push_loop parseHEVCPES parseAVCPES fuel data syncOffset len codecsOnly level sn
            (start' + 188) l'
      | Return => mret None
      end
    else mret (Some l).
Proof. reflexivity. Qed.

Lemma turns_left_step (start : Z) :
  start < len -> turns_left len (start + 188) = turns_left len start - 1.
Proof. intros H. unfold turns_left. Z.div_mod_to_equations. lia. Qed.

Lemma turns_left_done (start : Z) : turns_left len start <= 0 -> len <= start.
Proof. unfold turns_left. intros H. Z.div_mod_to_equations. lia. Qed.

Lemma turns_left_nonneg (start : Z) : 0 <= turns_left len start.
Proof. unfold turns_left. lia. Qed.

(** Once the fuel covers the turns left, plus those of one rewind while
    the PMT is not parsed, more fuel changes nothing: the loop has ended
    by itself. *)
Lemma push_loop_stable (fuel : nat) (start : Z) (l : PushLocals) (w : World) :
  turns_left len start + (if l_pmtParsed l then 0 else turns_left len syncOffset)
  <= Z.of_nat fuel ->
  push_loop parseHEVCPES parseAVCPES (S fuel) data syncOffset len codecsOnly level sn start l w
  = push_loop parseHEVCPES parseAVCPES fuel data syncOffset len codecsOnly level sn start l w.
Proof.
  revert start l w. induction fuel as [|fuel IH]; intros start l w Hm.
  - rewrite push_loop_S. cbn [push_loop].
    pose proof (turns_left_nonneg start). pose proof (turns_left_nonneg syncOffset).
    assert (len <= start) as Hle.
    { apply turns_left_done. destruct (l_pmtParsed l); lia. }
    destruct (Z.ltb_spec start len); [lia|done].
  - rewrite (push_loop_S (S fuel)), (push_loop_S fuel).
    destruct (Z.ltb_spec start len) as [Hlt|]; [|done].
    unfold mbind, M_bind.
    destruct (push_packet _ _ _ _ _ _ _ _ _ w) as [w1 [[start' l'|]|e]] eqn:Hp; try done.
    apply IH. pose proof (push_packet_turn start l w w1 _ Hp) as Ht. cbn in Ht.
    pose proof (turns_left_nonneg syncOffset).
    destruct Ht as [[-> Hpp]|(-> & Hf & Ht)].
    + rewrite turns_left_step by done.
      destruct (l_pmtParsed l); [rewrite Hpp by done; lia|].
      destruct (l_pmtParsed l'); lia.
    + rewrite Hf in Hm. rewrite Ht. replace (syncOffset - 188 + 188) with syncOffset by lia.
      pose proof (turns_left_step start Hlt). pose proof (turns_left_nonneg (start + 188)). lia.
Qed.

Lemma push_loop_enough (extra fuel : nat) (start : Z) (l : PushLocals) (w : World) :
  turns_left len start + (if l_pmtParsed l then 0 else turns_left len syncOffset)
  <= Z.of_nat fuel ->
  push_loop parseHEVCPES parseAVCPES (extra + fuel) data syncOffset len codecsOnly level sn
    start l w
  = push_loop parseHEVCPES parseAVCPES fuel data syncOffset len codecsOnly level sn start l w.
Proof.
  intros Hm. induction extra as [|extra IH]; [done|].
  cbn [Nat.add]. rewrite push_loop_stable by lia. exact IH.
Qed.
End push_loop_end.

Lemma syncOffset_lower (data : list Z) : -1 <= _syncOffset data.
Proof. destruct (syncOffset_spec data) as [[-> _]|(H & _)]; lia. Qed.

(** X23: the packet loop of [push] ends by itself, whatever the parsers
    do.  A turn either moves on to the next packet or is the one rewind
    of the PMT branch, which happens only while the PMT is not yet
    parsed and marks it parsed; so the turns allotted to the loop,
    twice the number of packets plus four, are never used up: any
    larger number of turns gives the same result. *)
Theorem push_loop_ends_by_itself
    (parseHEVCPES parseAVCPES : option Pes -> M unit) (data : list Z)
    (codecsOnly : bool) (level sn : Z) (l : PushLocals) (w : World) (fuel : nat) :
  let syncOffset := _syncOffset data in
  let len := Z.of_nat (length data) - Z.rem (Z.of_nat (length data) + syncOffset) 188 in
  (forall start lo,
     returns_only
       (push_packet parseHEVCPES parseAVCPES data syncOffset codecsOnly level sn start lo)
       (turn_ok syncOffset start lo)) /\
  ((2 * Z.to_nat (len / 188 + 2) <= fuel)%nat ->
   push_loop parseHEVCPES parseAVCPES fuel data syncOffset len codecsOnly level sn
     syncOffset l w
   = push_loop parseHEVCPES parseAVCPES (2 * Z.to_nat (len / 188 + 2)) data syncOffset len
       codecsOnly level sn syncOffset l w).
Proof.
  cbv zeta. split; [intros start lo; apply push_packet_turn|].
  intros Hf.
  set (so := _syncOffset data) in *. set (L := Z.of_nat (length data)) in *.
  set (len := L - Z.rem (L + so) 188) in *.
  replace fuel with ((fuel - 2 * Z.to_nat (len / 188 + 2)) + 2 * Z.to_nat (len / 188 + 2))%nat
    by lia.
  apply push_loop_enough.
  pose proof (syncOffset_lower data) as Hso. fold so in Hso.
  assert (- 187 <= len) as Hlen.
  { assert (0 <= L) as HL by (unfold L; lia).
    unfold len. pose proof (Z.rem_bound_abs (L + so) 188 ltac:(lia)). lia. }
  assert (turns_left len so <= len / 188 + 2) as Ht.
  { unfold turns_left. Z.div_mod_to_equations. lia. }
  assert (0 <= len / 188 + 2) by (Z.div_mod_to_equations; lia).
  destruct (l_pmtParsed l); lia.
Qed.

(** ** The HEVC path: [_parseHEVCNALu] and [_parseHEVCPES] *)

Section scanner.
Context (array : list Z).

Lemma scan_zero (fuel : nat) (i s : Z) (a b : option Z) (us : list NalUnit) (w : World) :
  i < Z.of_nat (length array) -> elem array i = Some 0 -> 0 <= s <= 3 ->
  parseHEVCNALu_loop (S fuel) array i (mkScanLocals (Some s) a b us) w
  = parseHEVCNALu_loop fuel array (i + 1) (mkScanLocals (Some (Z.min (s + 1) 3)) a b us) w.
Proof.
  intros Hi Hv Hs. cbn [parseHEVCNALu_loop].
  destruct (Z.ltb_spec i (Z.of_nat (length array))); [|lia].
  rewrite Hv. cbn [sc_state sc_lastUnitStart sc_lastUnitType sc_units].
  assert (s = 0 \/ s = 1 \/ s = 2 \/ s = 3) as [-> | [-> | [-> | ->]]] by lia; reflexivity.
Qed.

Lemma scan_other (fuel : nat) (i s v : Z) (a b : option Z) (us : list NalUnit)
    (w : World) :
  i < Z.of_nat (length array) -> elem array i = Some v -> v <> 0 -> 0 <= s <= 3 ->
  ~ (2 <= s /\ v = 1 /\ i + 1 < Z.of_nat (length array)) ->
  parseHEVCNALu_loop (S fuel) array i (mkScanLocals (Some s) a b us) w
  = parseHEVCNALu_loop fuel array (i + 1) (mkScanLocals (Some 0) a b us) w.
Proof.
  intros Hi Hv Hv0 Hs Hn. cbn [parseHEVCNALu_loop].
  destruct (Z.ltb_spec i (Z.of_nat (length array))); [|lia].
  rewrite Hv. cbn [sc_state sc_lastUnitStart sc_lastUnitType sc_units].
  rewrite (bool_decide_false (Some v = Some 0)) by congruence.
  assert (s = 0 \/ s = 1 \/ s = 2 \/ s = 3) as [-> | [-> | Hs2]] by lia; [reflexivity..|].
  assert (bool_decide (Some s = Some 0) = false) as -> by (apply bool_decide_false; intros [=]; lia).
  assert (bool_decide (Some s = Some 1) = false) as -> by (apply bool_decide_false; intros [=]; lia).
  assert (bool_decide (Some s = Some 2) || bool_decide (Some s = Some 3) = true) as ->.
  { destruct Hs2 as [->| ->]; reflexivity. }
  assert (bool_decide (Some v = Some 1) && (i + 1 <? Z.of_nat (length array)) = false) as ->.
  { apply andb_false_iff. destruct (decide (v = 1)) as [->|].
    - right. apply Z.ltb_ge. lia.
    - left. apply bool_decide_false. congruence. }
  reflexivity.
Qed.

Lemma scan_boundary (fuel : nat) (i s : Z) (a b : option Z) (us : list NalUnit)
    (w : World) :
  i + 1 < Z.of_nat (length array) -> elem array i = Some 1 -> 2 <= s <= 3 ->
  parseHEVCNALu_loop (S fuel) array i (mkScanLocals (Some s) a b us) w
  = (units ← (if opt_truthy a
              then mret (us ++ [mkNalUnit (subarray array (num_of a) (Int (i + 1 - s - 1)))
                                  b None])
              else hevc_first_start_code array (i + 1) s;; mret us);
     parseHEVCNALu_loop fuel array (i + 1)
       (mkScanLocals (Some 0) (Some (i + 1))
          (Some (js_and (Z.shiftr (int_of (elem array (i + 1))) 1) 0x3F)) units)) w.
Proof.
  intros Hi Hv Hs. cbn [parseHEVCNALu_loop].
  destruct (Z.ltb_spec i (Z.of_nat (length array))); [|lia].
  rewrite Hv. cbn [sc_state sc_lastUnitStart sc_lastUnitType sc_units].
  destruct (Z.ltb_spec (i + 1) (Z.of_nat (length array))); [|lia].
  rewrite (bool_decide_false (Some 1 = Some 0)), (bool_decide_true (Some 1 = Some 1)) by done.
  assert (bool_decide (Some s = Some 0) = false) as -> by (apply bool_decide_false; intros [=]; lia).
  assert (bool_decide (Some s = Some 1) = false) as -> by (apply bool_decide_false; intros [=]; lia).
  assert (bool_decide (Some s = Some 2) || bool_decide (Some s = Some 3) = true) as ->.
  { assert (s = 2 \/ s = 3) as [-> | ->] by lia; reflexivity. }
  cbn [andb]. unfold mbind, M_bind, mret, M_ret.
  destruct (opt_truthy a); [reflexivity|].
  destruct (hevc_first_start_code _ _ _ w) as [w' [[]|e]]; reflexivity.
Qed.

Lemma elem_middle (pre l post : list Z) (k : nat) (x : Z) :
  array = pre ++ l ++ post -> l !! k = Some x ->
  elem array (Z.of_nat (length pre) + Z.of_nat k) = Some x.
Proof.
  intros -> Hk. rewrite <- Nat2Z.inj_add, elem_lookup.
  rewrite lookup_app_r by lia. rewrite lookup_app_l by (apply lookup_lt_Some in Hk; lia).
  rewrite <- Hk. f_equal. lia.
Qed.

Lemma no_start_code_tail (a : Z) (l : list Z) :
  no_start_code (a :: l) = true -> no_start_code l = true.
Proof.
  destruct l as [|b [|c l]]; [done..|].
  intros H. change (no_start_code (a :: b :: c :: l))
    with (negb ((a =? 0) && (b =? 0) && ((c =? 0) || (c =? 1)))
          && no_start_code (b :: c :: l)) in H.
  by apply andb_true_iff in H as [_ H].
Qed.

(** Inside a NAL unit the scanner only counts zeros. *)
Lemma scan_body (n : list Z) :
  forall (pre post : list Z) (s : Z) (fuel : nat) (a b : option Z) (us : list NalUnit)
         (w : World),
  array = pre ++ n ++ post -> 0 <= s <= 2 ->
  no_start_code (replicate (Z.to_nat s) 0 ++ n) = true ->
  exists s', 0 <= s' <= 2 /\
    (n = [] -> s' = s) /\
    (forall x, last n = Some x -> x <> 0 -> s' = 0) /\
    parseHEVCNALu_loop (length n + fuel) array (Z.of_nat (length pre))
      (mkScanLocals (Some s) a b us) w
    = parseHEVCNALu_loop fuel array (Z.of_nat (length pre) + Z.of_nat (length n))
        (mkScanLocals (Some s') a b us) w.
Proof.
  induction n as [|v n IH]; intros pre post s fuel a b us w Ha Hs Hn.
  { exists s. split; [lia|]. split; [done|]. split; [done|].
    cbn [length Nat.add]. by rewrite Z.add_0_r. }
  assert (Z.of_nat (length pre) < Z.of_nat (length array)) as Hi.
  { rewrite Ha, !length_app. cbn [length]. lia. }
  assert (elem array (Z.of_nat (length pre)) = Some v) as Hv.
  { rewrite <- (Z.add_0_r (Z.of_nat (length pre))). by apply (elem_middle pre (v :: n) post 0). }
  assert (array = (pre ++ [v]) ++ n ++ post) as Ha' by (by rewrite Ha, <- app_assoc).
  assert (Z.of_nat (length (pre ++ [v])) = Z.of_nat (length pre) + 1) as Hl.
  { rewrite length_app. cbn [length]. lia. }
  assert (no_start_code (v :: n) = true) as Hvn.
  { assert (s = 0 \/ s = 1 \/ s = 2) as [-> | [-> | ->]] by lia.
    - exact Hn.
    - exact (no_start_code_tail 0 _ Hn).
    - exact (no_start_code_tail 0 _ (no_start_code_tail 0 _ Hn)). }
  destruct (decide (v = 0)) as [-> | Hv0].
  - assert (s <> 2) as Hs2.
    { intros ->. cbn in Hn. destruct n; done. }
    destruct (IH (pre ++ [0]) post (s + 1) fuel a b us w Ha' ltac:(lia)) as (s' & Hs' & He & Hlast & Hrun).
    { replace (Z.to_nat (s + 1)) with (S (Z.to_nat s)) by lia.
      by rewrite replicate_S_end, <- app_assoc. }
    exists s'. split; [done|]. split; [done|]. split.
    { intros x Hx Hx0. destruct n as [|y n].
      - cbn in Hx. congruence.
      - apply (Hlast x); [|done]. by rewrite last_cons_cons in Hx. }
    cbn [length Nat.add]. rewrite scan_zero by (done || lia).
    rewrite Z.min_l by lia. rewrite <- Hl, Hrun, Hl. f_equal. lia.
  - destruct (IH (pre ++ [v]) post 0 fuel a b us w Ha' ltac:(lia)) as (s' & Hs' & He & Hlast & Hrun).
    { cbn. by apply no_start_code_tail in Hvn. }
    exists s'. split; [done|]. split; [done|]. split.
    { intros x Hx Hx0. destruct n as [|y n].
      - by apply He.
      - apply (Hlast x); [|done]. by rewrite last_cons_cons in Hx. }
    cbn [length Nat.add]. rewrite (scan_other _ _ _ v); [|done|done|done|lia|].
    + rewrite <- Hl, Hrun, Hl. f_equal. lia.
    + intros (Hs2 & -> & _). assert (s = 2) as -> by lia. cbn in Hn. destruct n; done.
Qed.

(** At a start code that a byte follows, the scanner closes the open
    unit and opens the next one. *)
Lemma scan_start_code (long : bool) (pre post : list Z) (fuel : nat) (a b : option Z)
    (us : list NalUnit) (w : World) :
  array = pre ++ start_code long ++ post -> post <> [] ->
  parseHEVCNALu_loop (length (start_code long) + fuel) array (Z.of_nat (length pre))
    (mkScanLocals (Some 0) a b us) w
  = (units ← (if opt_truthy a
              then mret (us ++ [mkNalUnit
                                  (subarray array (num_of a) (Int (Z.of_nat (length pre))))
                                  b None])
              else hevc_first_start_code array
                     (Z.of_nat (length pre) + Z.of_nat (length (start_code long)))
                     (Z.of_nat (length (start_code long)) - 1);;
                   mret us);
     parseHEVCNALu_loop fuel array
       (Z.of_nat (length pre) + Z.of_nat (length (start_code long)))
       (mkScanLocals (Some 0)
          (Some (Z.of_nat (length pre) + Z.of_nat (length (start_code long))))
          (Some (js_and (Z.shiftr (int_of
             (elem array (Z.of_nat (length pre) + Z.of_nat (length (start_code long))))) 1)
             0x3F))
          units)) w.
Proof.
  intros Ha Hp.
  assert (0 < length post)%nat as Hlp by (destruct post; [done|cbn; lia]).
  assert (Z.of_nat (length array)
          = Z.of_nat (length pre) + Z.of_nat (length (start_code long))
            + Z.of_nat (length post)) as Hl.
  { rewrite Ha, !length_app. lia. }
  pose proof (fun k x => elem_middle pre (start_code long) post k x Ha) as He.
  set (P := Z.of_nat (length pre)) in *.
  destruct long; cbn [start_code length Nat.add] in *.
  - pose proof (He 0%nat 0 eq_refl) as H0. pose proof (He 1%nat 0 eq_refl) as H1.
    pose proof (He 2%nat 0 eq_refl) as H2. pose proof (He 3%nat 1 eq_refl) as H3.
    rewrite Z.add_0_r in H0.
    rewrite scan_zero by (done || lia).
    replace (P + Z.of_nat 1) with (P + 1) in H1 by lia.
    rewrite scan_zero by (done || lia).
    replace (P + Z.of_nat 2) with (P + 1 + 1) in H2 by lia.
    rewrite scan_zero by (done || lia).
    replace (P + Z.of_nat 3) with (P + 1 + 1 + 1) in H3 by lia.
    change (Z.min (Z.min (Z.min (0 + 1) 3 + 1) 3 + 1) 3) with 3.
    rewrite scan_boundary by (done || lia).
    replace (P + 1 + 1 + 1 + 1) with (P + Z.of_nat 4) by lia.
    replace (P + Z.of_nat 4 - 3 - 1) with P by lia.
    reflexivity.
  - pose proof (He 0%nat 0 eq_refl) as H0. pose proof (He 1%nat 0 eq_refl) as H1.
    pose proof (He 2%nat 1 eq_refl) as H2.
    rewrite Z.add_0_r in H0.
    rewrite scan_zero by (done || lia).
    replace (P + Z.of_nat 1) with (P + 1) in H1 by lia.
    rewrite scan_zero by (done || lia).
    replace (P + Z.of_nat 2) with (P + 1 + 1) in H2 by lia.
    change (Z.min (Z.min (0 + 1) 3 + 1) 3) with 2.
    rewrite scan_boundary by (done || lia).
    replace (P + 1 + 1 + 1) with (P + Z.of_nat 3) by lia.
    replace (P + Z.of_nat 3 - 2 - 1) with P by lia.
    reflexivity.
Qed.

Lemma scan_end (fuel : nat) (i : Z) (l : ScanLocals) (w : World) :
  Z.of_nat (length array) <= i -> parseHEVCNALu_loop fuel array i l w = (w, Returned l).
Proof.
  intros Hi. destruct fuel; [done|]. cbn [parseHEVCNALu_loop].
  by destruct (Z.ltb_spec i (Z.of_nat (length array))); [lia|].
Qed.

Lemma nal_type_byte (x : Z) :
  0 <= x < 256 -> js_and (Z.shiftr x 1) 0x3F = (x / 2) mod 64.
Proof.
  intros Hx. apply Z.eqb_eq.
  by apply (byte_cases (fun x => js_and (Z.shiftr x 1) 0x3F =? (x / 2) mod 64)).
Qed.

Lemma nal_type_at (pre n post : list Z) :
  array = pre ++ n ++ post -> nal_ok n ->
  js_and (Z.shiftr (int_of (elem array (Z.of_nat (length pre)))) 1) 0x3F = nal_unit_type n.
Proof.
  intros Ha (Hb & _ & x & Hx & _). destruct n as [|v n]; [done|].
  pose proof (elem_middle pre (v :: n) post 0 v Ha eq_refl) as He.
  change (Z.of_nat 0) with 0 in He. rewrite Z.add_0_r in He. rewrite He. cbn [int_of].
  apply nal_type_byte. by apply Forall_cons_1 in Hb as [Hv _].
Qed.

(** From the end of a unit to the end of the data: every start code
    closes the unit before it. *)
Lemma scan_nals (rest : list (bool * list Z)) :
  forall (pre0 cur : list Z) (us : list NalUnit) (extra : nat) (w : World),
  array = pre0 ++ cur ++ nal_stream rest ->
  Forall (fun x => nal_ok x.2) rest -> (0 < length pre0)%nat ->
  exists l',
    parseHEVCNALu_loop (length (nal_stream rest) + extra) array
      (Z.of_nat (length (pre0 ++ cur)))
      (mkScanLocals (Some 0) (Some (Z.of_nat (length pre0))) (Some (nal_unit_type cur)) us) w
    = (w, Returned l') /\
    sc_state l' = Some 0 /\ opt_truthy (sc_lastUnitStart l') = true /\
    sc_units l' ++
      [mkNalUnit (subarray array (num_of (sc_lastUnitStart l'))
                    (Int (Z.of_nat (length array))))
         (sc_lastUnitType l') (sc_state l')]
    = us ++ scanned_units (cur :: map snd rest).
Proof.
  induction rest as [|[long n] rest IH]; intros pre0 cur us extra w Ha Hok Hp.
  { eexists. split.
    { apply scan_end. rewrite Ha. cbn [nal_stream map concat]. by rewrite app_nil_r. }
    cbn [sc_state sc_lastUnitStart sc_lastUnitType sc_units opt_truthy num_of map
         scanned_units].
    split; [done|]. split; [apply negb_true_iff, Z.eqb_neq; lia|].
    do 3 f_equal. rewrite subarray_nat.
    - rewrite Ha. cbn [nal_stream map concat]. rewrite app_nil_r, drop_app_length.
      apply take_ge. rewrite !length_app. lia.
    - rewrite Ha, !length_app. lia. }
  apply Forall_cons_1 in Hok as [Hn Hok]. cbn [snd] in Hn.
  assert (n <> []) as Hne by (destruct Hn as (_ & _ & x & Hx & _); by destruct n).
  assert (nal_stream ((long, n) :: rest) = start_code long ++ n ++ nal_stream rest) as Hs.
  { unfold nal_stream. cbn [map concat fst snd]. by rewrite <- app_assoc. }
  rewrite Hs in Ha |- *.
  assert (array = (pre0 ++ cur) ++ start_code long ++ (n ++ nal_stream rest)) as Ha1
    by (by rewrite Ha, <- !app_assoc).
  assert (array = (pre0 ++ cur ++ start_code long) ++ n ++ nal_stream rest) as Ha2
    by (by rewrite Ha, <- !app_assoc).
  destruct (IH (pre0 ++ cur ++ start_code long) n
              (us ++ [mkNalUnit cur (Some (nal_unit_type cur)) None]) extra w)
    as (l' & Hrun & Hst & Htr & Hu).
  { by rewrite Ha, <- !app_assoc. }
  { done. }
  { rewrite length_app. lia. }
  exists l'. split; [|split; [done|split; [done|]]].
  - rewrite !length_app, <- !Nat.add_assoc, <- !length_app.
    rewrite (scan_start_code long (pre0 ++ cur) (n ++ nal_stream rest)); [|done|].
    2:{ by destruct n. }
    assert (opt_truthy (Some (Z.of_nat (length pre0))) = true) as ->
      by (apply negb_true_iff, Z.eqb_neq; lia).
    unfold mbind, M_bind, mret, M_ret. cbn [num_of].
    rewrite <- !Nat2Z.inj_add, <- !length_app, <- !app_assoc.
    rewrite (nal_type_at (pre0 ++ cur ++ start_code long) n (nal_stream rest) Ha2 Hn).
    assert (subarray array (Int (Z.of_nat (length pre0)))
              (Int (Z.of_nat (length (pre0 ++ cur)))) = cur) as ->.
    { rewrite subarray_nat.
      - rewrite Ha, drop_app_length, length_app.
        replace (length pre0 + length cur - length pre0)%nat with (length cur) by lia.
        by rewrite take_app_length.
      - rewrite Ha, !length_app. lia. }
    destruct (scan_body n (pre0 ++ cur ++ start_code long) (nal_stream rest) 0
                (length (nal_stream rest) + extra)
                (Some (Z.of_nat (length (pre0 ++ cur ++ start_code long))))
                (Some (nal_unit_type n))
                (us ++ [mkNalUnit cur (Some (nal_unit_type cur)) None]) w Ha2 ltac:(lia))
      as (s' & _ & _ & Hlast & Hscan).
    { by destruct Hn as (_ & Hn & _). }
    destruct Hn as (_ & _ & x & Hx & Hx0). rewrite (Hlast x Hx Hx0) in Hscan.
    rewrite Hscan, <- Nat2Z.inj_add, <- length_app. exact Hrun.
  - rewrite Hu, <- app_assoc. reflexivity.
Qed.

End scanner.

Lemma keep_avcNaluState (w : World) (s : option Z) :
  avcNaluState (this w) = s ->
  mkWorld (set_avcNaluState s (this w)) (host w) = w.
Proof. destruct w as [[] h]. cbn. by intros ->. Qed.

Lemma parseHEVCNALu_stream (nals : list (bool * list Z)) (w : World) :
  avcNaluState (this w) = Some 0 -> nals <> [] ->
  Forall (fun x => nal_ok x.2) nals ->
  _parseHEVCNALu (nal_stream nals) w = (w, Returned (scanned_units (map snd nals))).
Proof.
  intros Hst Hne Hok. destruct nals as [|[long n] rest]; [done|]. clear Hne.
  apply Forall_cons_1 in Hok as [Hn Hok]. cbn [snd] in Hn.
  set (array := nal_stream ((long, n) :: rest)).
  assert (array = start_code long ++ n ++ nal_stream rest) as Ha.
  { unfold array, nal_stream. cbn [map concat fst snd]. by rewrite <- app_assoc. }
  assert (array = [] ++ start_code long ++ (n ++ nal_stream rest)) as Ha0 by done.
  unfold _parseHEVCNALu, mbind, M_bind, get_this. rewrite Hst.
  assert (length array
          = (length (start_code long) + (length n + (length (nal_stream rest) + 0)))%nat)
    as Hlen by (rewrite Ha, !length_app; lia).
  rewrite Hlen.
  change 0 with (Z.of_nat (length (@nil Z))) at 1.
  rewrite (scan_start_code array long [] (n ++ nal_stream rest)); [|done|].
  2:{ destruct Hn as (_ & _ & x & Hx & _). by destruct n. }
  cbn [opt_truthy]. unfold mbind, M_bind, mret, M_ret.
  assert (hevc_first_start_code array
            (Z.of_nat (length (@nil Z)) + Z.of_nat (length (start_code long)))
            (Z.of_nat (length (start_code long)) - 1) w = (w, Returned tt)) as ->.
  { unfold hevc_first_start_code, mbind, M_bind, get_this, mret, M_ret. rewrite Hst.
    by destruct long. }
  cbn [length Z.of_nat Z.add].
  rewrite <- (Nat2Z.inj_add 0), <- (length_app []).
  change ([] ++ start_code long) with (start_code long).
  rewrite (nal_type_at array (start_code long) n (nal_stream rest) Ha Hn).
  destruct (scan_body array n (start_code long) (nal_stream rest) 0
              (length (nal_stream rest) + 0)
              (Some (Z.of_nat (length (start_code long)))) (Some (nal_unit_type n)) [] w
              Ha ltac:(lia)) as (s' & _ & _ & Hlast & Hscan).
  { by destruct Hn as (_ & Hn & _). }
  destruct Hn as (_ & _ & x & Hx & Hx0). rewrite (Hlast x Hx Hx0) in Hscan.
  rewrite Hscan, <- Nat2Z.inj_add, <- length_app.
  destruct (scan_nals array rest (start_code long) n [] 0%nat w Ha Hok)
    as (l' & Hrun & Hs' & Htr & Hu).
  { destruct long; cbn; lia. }
  rewrite Hrun, Htr. unfold modify_this. rewrite Hs', keep_avcNaluState by done.
  rewrite Hs', Hlen in Hu. by rewrite Hu.
Qed.

(** *** The access units of [_parseHEVCPES] *)

Lemma counter_add_0 (v : option Z) : counter_add v 0 = v.
Proof. destruct v; cbn; [f_equal; lia|done]. Qed.

Lemma counter_add_add (v : option Z) (a b : Z) :
  counter_add (counter_add v a) b = counter_add v (a + b).
Proof. destruct v; cbn; [f_equal; lia|done]. Qed.

Lemma units_size_app (a b : list NalUnit) :
  units_size (a ++ b) = units_size a + units_size b.
Proof. unfold units_size. induction a as [|u a IH]; cbn; [done|]. rewrite IH. lia. Qed.

Lemma pushed_app (a b : list (bool * VideoSample)) : pushed (a ++ b) = pushed a ++ pushed b.
Proof. unfold pushed. by rewrite List.filter_app, fmap_app. Qed.

Lemma samples_units_app (a b : list VideoSample) :
  samples_units (a ++ b) = samples_units a ++ samples_units b.
Proof. unfold samples_units. by rewrite fmap_app, concat_app. Qed.

Lemma track_after_nil (t : Track VideoSample) : track_after [] t t.
Proof.
  unfold track_after. cbn. rewrite app_nil_r, Z.add_0_r, !counter_add_0. done.
Qed.

Lemma track_after_codec (c : option string) (t : Track VideoSample) :
  track_after [] t (set_trk_codec c t).
Proof. exact (track_after_nil t). Qed.

Lemma track_after_app (a b : list (bool * VideoSample)) (t t' t'' : Track VideoSample) :
  track_after a t t' -> track_after b t' t'' -> track_after (a ++ b) t t''.
Proof.
  intros (H1 & H2 & H3 & H4) (G1 & G2 & G3 & G4). unfold track_after.
  rewrite G1, G2, G3, G4, H1, H2, H3, H4.
  rewrite pushed_app, samples_units_app, units_size_app, !counter_add_add, !length_app.
  rewrite <- app_assoc. split; [done|]. split; [lia|]. split; f_equal; lia.
Qed.

Lemma hevc_key_kept (u : NalUnit) : hevc_is_key u = true -> hevc_kept u = true.
Proof.
  unfold hevc_is_key, hevc_kept. destruct (nal_type u); [|done].
  intros H%bool_decide_eq_true_1. apply bool_decide_eq_true_2.
  apply elem_of_app. by left.
Qed.

Lemma is_sps_kept (u : NalUnit) : is_sps u = true -> hevc_kept u = true.
Proof.
  unfold is_sps, hevc_kept. intros ->%bool_decide_eq_true_1. done.
Qed.

Lemma key_type_cases (t : Z) : t ∈ hevc_key_types -> t <> SPS /\ t <> AUD.
Proof.
  unfold hevc_key_types, SPS, AUD. rewrite !elem_of_cons, elem_of_nil. lia.
Qed.

Lemma plain_type_cases (t : Z) : t ∈ hevc_plain_types -> t <> SPS /\ t <> AUD.
Proof.
  unfold hevc_plain_types, SPS, AUD. rewrite !elem_of_cons, elem_of_nil. lia.
Qed.

(** One turn of the loop over the units. *)
Lemma hevc_unit_step (fuel : nat) (force : JSVal) (duration : option Z) (pes : Pes)
    (u : NalUnit) (l : HevcLocals) :
  (is_sps u = true -> sps_readable fuel (nal_data u)) ->
  exists l', hevc_unit fuel (Some force) duration pes u l = Some (l', Returned tt) /\
    if is_aud u then l' = (pushAccesUnit (Some force) pes l).1
    else if hevc_kept u then
      hl_units2 l' = hl_units2 l ++ [u] /\
      hl_length l' = hl_length l + Z.of_nat (length (nal_data u)) /\
      hl_key l' = hl_key l || hevc_is_key u /\
      bool_decide (is_Some (hp_sps (hl_props l')))
      = bool_decide (is_Some (hp_sps (hl_props l))) || is_sps u /\
      track_after [] (hl_track l) (hl_track l')
    else l' = l.
Proof.
  intros Hsps. unfold hevc_unit, hevc_switch, is_aud, hevc_kept, hevc_is_key.
  unfold is_sps in *.
  destruct (nal_type u) as [t|] eqn:Ht.
  2:{ exists l. by rewrite bool_decide_false. }
  destruct (decide (t ∈ hevc_key_types)) as [Hk|Hk].
  { destruct (key_type_cases t Hk).
    rewrite (bool_decide_true (t ∈ hevc_key_types)) by done.
    rewrite (bool_decide_false (Some t = Some AUD)) by congruence.
    rewrite (bool_decide_true (t ∈ _ ++ _)) by (apply elem_of_app; by left).
    rewrite (bool_decide_false (Some t = Some SPS)) by congruence.
    eexists. split; [done|]. cbn. rewrite !orb_true_r, orb_false_r.
    split_and!; try done; apply track_after_nil. }
  rewrite (bool_decide_false (t ∈ hevc_key_types)) by done.
  destruct (decide (t ∈ hevc_plain_types)) as [Hp|Hp].
  { destruct (plain_type_cases t Hp).
    rewrite (bool_decide_true (t ∈ hevc_plain_types)) by done.
    rewrite (bool_decide_false (Some t = Some AUD)) by congruence.
    rewrite (bool_decide_true (t ∈ _ ++ _))
      by (apply elem_of_app; right; apply elem_of_app; by left).
    rewrite (bool_decide_false (Some t = Some SPS)) by congruence.
    eexists. split; [done|]. cbn. rewrite !orb_false_r.
    split_and!; try done; apply track_after_nil. }
  rewrite (bool_decide_false (t ∈ hevc_plain_types)) by done.
  destruct (Z.eqb_spec t VPS) as [-> | Hv].
  { eexists. split; [done|]. cbn. rewrite !orb_false_r.
    split_and!; try done; apply track_after_nil. }
  destruct (Z.eqb_spec t SPS) as [-> | Hs].
  { destruct (Hsps ltac:(by apply bool_decide_eq_true)) as [config ->].
    eexists. split; [done|]. cbn. rewrite !orb_false_r, orb_true_r.
    split_and!; try done; apply track_after_codec. }
  destruct (Z.eqb_spec t PPS) as [-> | Hpp].
  { eexists. split; [done|]. cbn. rewrite !orb_false_r.
    split_and!; try done; apply track_after_nil. }
  destruct (Z.eqb_spec t AUD) as [-> | Ha].
  { rewrite (bool_decide_true (Some AUD = Some AUD)) by done.
    unfold pushAccesUnit. destruct (bool_decide (hl_units2 l = [])); eexists; done. }
  rewrite (bool_decide_false (Some t = Some AUD)) by congruence.
  rewrite (bool_decide_false (t ∈ _ ++ _)).
  2:{ rewrite !elem_of_app, !elem_of_cons, elem_of_nil.
      intros [?|[?|[?|[?|[?|[]]]]]]; done. }
  by exists l.
Qed.

Lemma access_units_cons (pes : Pes) (m k s : bool) (g : list NalUnit)
    (gs : list (list NalUnit)) :
  access_units pes m k s (g :: gs)
  = access_units pes m k s [g]
    ++ access_units pes m (k || existsb hevc_is_key g) (s || existsb is_sps g) gs.
Proof. cbn [access_units]. by destruct (List.filter hevc_kept g). Qed.

Lemma orb_absorb (a b : bool) : (b = true -> a = true) -> a || b = a.
Proof. destruct a, b; naive_solver. Qed.

Lemma filter_all {A} (f : A -> bool) (l : list A) :
  Forall (fun x => f x = true) l -> List.filter f l = l.
Proof. induction 1 as [|x l Hx _ IH]; cbn; [done|]. by rewrite Hx, IH. Qed.

Lemma split_at_aud_cons (units : list NalUnit) :
  exists g gs, split_at_aud units = g :: gs.
Proof.
  induction units as [|u units (g & gs & IH)]; cbn; [by eexists _, _|].
  destruct (is_aud u); [by eexists _, _|]. rewrite IH. by eexists _, _.
Qed.

(** The invariant of the loop over the units: [units2] holds kept units
    of the size [length]; [key] and [track.sps] are set when it has a
    key slice, a sequence parameter set. *)
Lemma close_group (force : JSVal) (pes : Pes) (l : HevcLocals) :
  Forall (fun u => hevc_kept u = true) (hl_units2 l) ->
  hl_length l = units_size (hl_units2 l) ->
  (existsb hevc_is_key (hl_units2 l) = true -> hl_key l = true) ->
  (existsb is_sps (hl_units2 l) = true
   -> bool_decide (is_Some (hp_sps (hl_props l))) = true) ->
  exists l2, pushAccesUnit (Some force) pes l = (l2, Returned tt) /\
    hl_units2 l2 = [] /\ hl_length l2 = 0 /\ hl_key l2 = hl_key l /\
    hl_props l2 = hl_props l /\
    track_after
      (access_units pes (val_truthy force) (hl_key l)
         (bool_decide (is_Some (hp_sps (hl_props l)))) [hl_units2 l])
      (hl_track l) (hl_track l2).
Proof.
  intros Hkept Hlen Hkey Hsps. unfold pushAccesUnit.
  cbn [access_units]. rewrite (filter_all _ _ Hkept), (orb_absorb _ _ Hkey),
    (orb_absorb _ _ Hsps).
  destruct (hl_units2 l) as [|u us] eqn:Hu.
  { rewrite bool_decide_true by done. exists l. rewrite Hu.
    split_and!; try done. apply track_after_nil. }
  rewrite bool_decide_false by done. eexists. split; [done|].
  cbn [hl_units2 hl_length hl_key hl_props hl_track]. split_and!; try done.
  unfold track_after, pushed, samples_units.
  destruct (negb (val_truthy force) || hl_key l
            || bool_decide (is_Some (hp_sps (hl_props l)))); cbn.
  - rewrite app_nil_r, Hlen. split_and!; try done.
    exact (eq_sym (counter_add_0 _)).
  - rewrite app_nil_r, Z.add_0_r. split_and!; try done.
    exact (eq_sym (counter_add_0 _)).
Qed.

Lemma access_units_absorb (pes : Pes) (m k s : bool) (u : NalUnit) (g : list NalUnit)
    (gs : list (list NalUnit)) :
  u ∈ g ->
  access_units pes m (k || hevc_is_key u) (s || is_sps u) (g :: gs)
  = access_units pes m k s (g :: gs).
Proof.
  intros Hu. cbn [access_units].
  assert (forall f : NalUnit -> bool, forall b, b || f u || existsb f g = b || existsb f g)
    as He.
  { intros f b. destruct (f u) eqn:Hf; [|by rewrite orb_false_r].
    assert (existsb f g = true) as ->.
    { apply existsb_exists. exists u. by rewrite <- list_elem_of_In. }
    by rewrite !orb_true_r. }
  by rewrite !He.
Qed.

Lemma access_units_skip (pes : Pes) (m k s : bool) (u : NalUnit) (a g : list NalUnit)
    (gs : list (list NalUnit)) :
  hevc_kept u = false ->
  access_units pes m k s ((a ++ u :: g) :: gs) = access_units pes m k s ((a ++ g) :: gs).
Proof.
  intros Hu. cbn [access_units].
  assert (hevc_is_key u = false) as Hk.
  { destruct (hevc_is_key u) eqn:H; [|done]. apply hevc_key_kept in H. congruence. }
  assert (is_sps u = false) as Hs.
  { destruct (is_sps u) eqn:H; [|done]. apply is_sps_kept in H. congruence. }
  rewrite !existsb_app, !List.filter_app. cbn [existsb List.filter].
  by rewrite Hu, Hk, Hs.
Qed.

Lemma hevc_forEach_access_units (fuel : nat) (force : JSVal) (duration : option Z)
    (pes : Pes) (units : list NalUnit) :
  forall l : HevcLocals,
  Forall (fun u => is_sps u = true -> sps_readable fuel (nal_data u)) units ->
  Forall (fun u => hevc_kept u = true) (hl_units2 l) ->
  hl_length l = units_size (hl_units2 l) ->
  (existsb hevc_is_key (hl_units2 l) = true -> hl_key l = true) ->
  (existsb is_sps (hl_units2 l) = true
   -> bool_decide (is_Some (hp_sps (hl_props l))) = true) ->
  exists l1 l2,
    hevc_forEach fuel (Some force) duration pes units l = Some (l1, Returned tt) /\
    pushAccesUnit (Some force) pes l1 = (l2, Returned tt) /\
    track_after
      (access_units pes (val_truthy force) (hl_key l)
         (bool_decide (is_Some (hp_sps (hl_props l))))
         (match split_at_aud units with
          | g :: gs => (hl_units2 l ++ g) :: gs
          | [] => []
          end))
      (hl_track l) (hl_track l2).
Proof.
  induction units as [|u units IH]; intros l Hr Hkept Hlen Hkey Hsps.
  { destruct (close_group force pes l Hkept Hlen Hkey Hsps) as (l2 & Hp & _ & _ & _ & _ & Ht).
    exists l, l2. cbn [hevc_forEach split_at_aud]. by rewrite app_nil_r. }
  apply Forall_cons_1 in Hr as [Hu Hr].
  destruct (hevc_unit_step fuel force duration pes u l Hu) as (l' & Hstep & Hl').
  cbn [hevc_forEach split_at_aud]. rewrite Hstep.
  destruct (split_at_aud_cons units) as (g & gs & Hg). rewrite Hg in IH |- *.
  destruct (is_aud u).
  - destruct (close_group force pes l Hkept Hlen Hkey Hsps)
      as (l2 & Hp & Hu2 & Hlen2 & Hkey2 & Hprops2 & Ht).
    rewrite Hp in Hl'. cbn [fst] in Hl'. subst l'.
    destruct (IH l2 Hr) as (l1 & l3 & Hrun & Hp3 & Ht3).
    { by rewrite Hu2. } { by rewrite Hu2, Hlen2. } { by rewrite Hu2. } { by rewrite Hu2. }
    exists l1, l3. split; [done|]. split; [done|].
    rewrite access_units_cons, app_nil_r, (orb_absorb _ _ Hkey), (orb_absorb _ _ Hsps).
    eapply track_after_app; [exact Ht|].
    by rewrite Hu2, Hkey2, Hprops2 in Ht3.
  - destruct (hevc_kept u) eqn:Hk.
    + destruct Hl' as (Hu2 & Hlen2 & Hkey2 & Hsps2 & Ht).
      destruct (IH l' Hr) as (l1 & l3 & Hrun & Hp3 & Ht3).
      { rewrite Hu2. apply Forall_app. split; [done|]. by apply Forall_singleton. }
      { rewrite Hu2, Hlen2, units_size_app, Hlen. unfold units_size. cbn. lia. }
      { rewrite Hu2, Hkey2, existsb_app. cbn [existsb]. rewrite orb_false_r.
        intros [H|H]%orb_true_iff; [by rewrite Hkey|by rewrite H, orb_true_r]. }
      { rewrite Hu2, Hsps2, existsb_app. cbn [existsb]. rewrite orb_false_r.
        intros [H|H]%orb_true_iff; [by rewrite Hsps|by rewrite H, orb_true_r]. }
      exists l1, l3. split; [done|]. split; [done|].
      rewrite Hu2, Hkey2, Hsps2, <- app_assoc in Ht3. cbn [app] in Ht3.
      rewrite access_units_absorb in Ht3.
      2:{ apply elem_of_app. right. apply elem_of_cons. by left. }
      destruct Ht as (E1 & E2 & E3 & E4). destruct Ht3 as (F1 & F2 & F3 & F4).
      cbn in E1, E2, E3, E4. rewrite app_nil_r in E1.
      rewrite Z.add_0_r in E2. rewrite counter_add_0 in E3, E4.
      unfold track_after. by rewrite F1, F2, F3, F4, E1, E2, E3, E4.
    + subst l'. destruct (IH l Hr Hkept Hlen Hkey Hsps) as (l1 & l3 & Hrun & Hp3 & Ht3).
      exists l1, l3. split; [done|]. split; [done|].
      by rewrite access_units_skip.
Qed.

(** *** [_parseHEVCPES] on a byte stream *)

Lemma scanned_units_nonempty (ns : list (list Z)) : ns <> [] -> scanned_units ns <> [].
Proof. destruct ns as [|n [|m ns]]; done. Qed.

Lemma scanned_units_app_cons (a : list (list Z)) (n : list Z) (b : list (list Z)) :
  scanned_units (a ++ n :: b)
  = map (fun n => mkNalUnit n (Some (nal_unit_type n)) None) a ++ scanned_units (n :: b).
Proof.
  induction a as [|x a IH]; [done|].
  change ((x :: a) ++ n :: b) with (x :: (a ++ n :: b)).
  cbn [map app]. rewrite <- IH. cbn [scanned_units]. by destruct (a ++ n :: b) eqn:E; [destruct a|].
Qed.

Lemma scanned_units_Forall (P : list Z -> Prop) (ns : list (list Z)) :
  Forall (fun n => nal_unit_type n = SPS -> P n) ns ->
  Forall (fun u => is_sps u = true -> P (nal_data u)) (scanned_units ns).
Proof.
  induction 1 as [|n ns Hn _ IH]; [constructor|].
  assert (forall s, is_sps (mkNalUnit n (Some (nal_unit_type n)) s) = true -> P n) as Hu.
  { intros s [= H]%bool_decide_eq_true_1. by apply Hn. }
  cbn [scanned_units]. destruct ns; constructor; try done; apply Hu.
Qed.

Lemma keep_videoTrack (w : World) (t : option (Track VideoSample)) :
  _videoTrack (this w) = t ->
  mkWorld (set_videoTrack t (this w)) (host w) = w.
Proof. destruct w as [[] h]. cbn. by intros ->. Qed.

(** With scanner state 0 and a byte stream as payload, [_parseHEVCPES]
    passes the units of the stream to its loop. *)
Lemma parseHEVCPES_on_stream (fuel : nat) (config : option JSVal) (pes : Pes)
    (props : HevcProps) (track : Track VideoSample) (nals : list (bool * list Z))
    (w : World) :
  avcNaluState (this w) = Some 0 -> _videoTrack (this w) = Some track ->
  pes_data pes = nal_stream nals -> nals <> [] -> Forall (fun x => nal_ok x.2) nals ->
  _parseHEVCPES fuel config (Some pes) props w
  = match hevc_forEach fuel config (_duration (this w)) pes (scanned_units nals.*2)
            (mkHevcLocals track props [] 0 false) with
    | None => None
    | Some (l, Thrown e) =>
        Some (mkWorld (set_videoTrack (Some (hl_track l)) (this w)) (host w),
              hl_props l, Thrown e)
    | Some (l, Returned _) =>
        let '(l, r) := pushAccesUnit config pes l in
        Some (mkWorld (set_videoTrack (Some (hl_track l)) (this w)) (host w),
              hl_props l, r)
    end.
Proof.
  intros Hst Hvt Hd Hne Hok.
  unfold _parseHEVCPES, mbind, M_bind, get_this, field, mret, M_ret.
  rewrite Hvt, Hd, (parseHEVCNALu_stream nals w Hst Hne Hok), Hvt.
  rewrite bool_decide_false; [done|].
  apply scanned_units_nonempty. by destruct nals.
Qed.

Lemma hevc_forEach_app (fuel : nat) (config : option JSVal) (duration : option Z)
    (pes : Pes) (a b : list NalUnit) (l : HevcLocals) :
  hevc_forEach fuel config duration pes (a ++ b) l
  = match hevc_forEach fuel config duration pes a l with
    | Some (l, Returned _) => hevc_forEach fuel config duration pes b l
    | r => r
    end.
Proof.
  revert l. induction a as [|u a IH]; intros l; [done|]. cbn [app hevc_forEach].
  destruct (hevc_unit fuel config duration pes u l) as [[l' [[]|e]]|]; [apply IH|done..].
Qed.

Lemma nals_ok_check (nals : list (bool * list Z)) :
  forallb (fun x => forallb (fun b => (0 <=? b) && (b <? 256)) x.2 && no_start_code x.2
                    && match last x.2 with Some b => negb (b =? 0) | None => false end)
    nals = true ->
  Forall (fun x => nal_ok x.2) nals.
Proof.
  intros H. apply Forall_forall. intros x Hx%list_elem_of_In.
  rewrite forallb_forall in H. apply H in Hx.
  apply andb_true_iff in Hx as [[Hb Hs]%andb_true_iff Hl].
  split; [by apply bytes_ok_check|]. split; [done|].
  destruct (last x.2) as [b|]; [|done]. exists b. split; [done|].
  by apply negb_true_iff, Z.eqb_neq in Hl.
Qed.

(** X24: started in state 0 on a byte stream, that is NAL units that
    each follow a start code of three or four bytes, hold neither
    [00 00 00] nor [00 00 01] and do not end in a zero byte,
    [_parseHEVCNALu] returns the NAL units of the stream in order, each
    with the unit type that bits 1 to 6 of its first byte give; only the
    last one carries a state, 0, and the demuxer is left as it was. *)
Theorem parseHEVCNALu_splits_stream (nals : list (bool * list Z)) (w : World) :
  avcNaluState (this w) = Some 0 -> nals <> [] ->
  Forall (fun x => nal_ok x.2) nals ->
  _parseHEVCNALu (nal_stream nals) w = (w, Returned (scanned_units nals.*2)).
Proof. apply parseHEVCNALu_stream. Qed.

Lemma parseHEVCNALu_splits_stream_witness :
  _parseHEVCNALu (nal_stream (key_frame_nals sps_720p_nal)) scanning_world
  = (scanning_world,
     Returned
       [mkNalUnit aud_nal (Some 35) None; mkNalUnit vps_nal (Some 32) None;
        mkNalUnit sps_720p_nal (Some 33) None; mkNalUnit pps_nal (Some 34) None;
        mkNalUnit idr_nal (Some 19) None; mkNalUnit aud_nal (Some 35) None;
        mkNalUnit trail_nal (Some 1) (Some 0)]).
Proof.
  apply (parseHEVCNALu_splits_stream (key_frame_nals sps_720p_nal) scanning_world).
  - reflexivity.
  - done.
  - by apply nals_ok_check.
Defined.

(** X25: in a demuxer whose scanner state is 0, [_parseHEVCPES] on a PES
    whose payload is a byte stream of NAL units, every sequence
    parameter set of which can be read, returns and leaves the access
    units of the PES on the video track: the units are grouped at the
    access unit delimiters, a group gives a sample of its units of known
    types with the time stamps of the PES, [len] and [nbNalu] count the
    units pushed; where key frames are mandatory a sample is dropped,
    and counted in [dropped], if no key slice and no sequence parameter
    set came before its end. *)
Theorem parseHEVCPES_pushes_access_units (fuel : nat) (force : JSVal) (pes : Pes)
    (props : HevcProps) (track : Track VideoSample) (nals : list (bool * list Z))
    (w : World) :
  avcNaluState (this w) = Some 0 -> _videoTrack (this w) = Some track ->
  pes_data pes = nal_stream nals -> nals <> [] -> Forall (fun x => nal_ok x.2) nals ->
  Forall (fun x => nal_unit_type x.2 = SPS -> sps_readable fuel x.2) nals ->
  exists track' props',
    _parseHEVCPES fuel (Some force) (Some pes) props w
    = Some (mkWorld (set_videoTrack (Some track') (this w)) (host w), props',
            Returned tt) /\
    track_after
      (access_units pes (val_truthy force) false (bool_decide (is_Some (hp_sps props)))
         (split_at_aud (scanned_units nals.*2)))
      track track'.
Proof.
  intros Hst Hvt Hd Hne Hok Hsps.
  rewrite (parseHEVCPES_on_stream fuel (Some force) pes props track nals w) by done.
  destruct (hevc_forEach_access_units fuel force (_duration (this w)) pes
              (scanned_units nals.*2) (mkHevcLocals track props [] 0 false))
    as (l1 & l2 & -> & Hp & Ht); try done.
  { apply scanned_units_Forall. by apply Forall_fmap. }
  rewrite Hp. exists (hl_track l2), (hl_props l2). split; [done|].
  destruct (split_at_aud_cons (scanned_units nals.*2)) as (g & gs & Hg).
  rewrite Hg in Ht |- *. exact Ht.
Qed.

Lemma parseHEVCPES_pushes_access_units_witness :
  exists track track' props',
    _videoTrack (this scanning_world) = Some track /\
    _parseHEVCPES 31 (Some (VBool true)) (Some (key_frame_pes sps_720p_nal)) no_props
      scanning_world
    = Some (mkWorld (set_videoTrack (Some track') (this scanning_world))
              (host scanning_world), props', Returned tt) /\
    trk_samples track'
    = trk_samples track
      ++ [mkVideoSample
            [mkNalUnit vps_nal (Some 32) None; mkNalUnit sps_720p_nal (Some 33) None;
             mkNalUnit pps_nal (Some 34) None; mkNalUnit idr_nal (Some 19) None]
            49 (Some 183600) (Some 180000) true;
          mkVideoSample [mkNalUnit trail_nal (Some 1) (Some 0)] 4
            (Some 183600) (Some 180000) true].
Proof.
  pose (track :=
          {| trk_container := Some "video/mp2t"; trk_type := "video"; trk_id := None;
             trk_streamType := Some (-1); trk_PID := Some (-1); trk_sequenceNumber := 0;
             trk_samples := []; trk_len := 0; trk_nbNalu := Some 0;
             trk_dropped := Some 0; trk_codec := None; trk_samplerate := None;
             trk_naluState := None |} : Track VideoSample).
  exists track.
  destruct (parseHEVCPES_pushes_access_units 31 (VBool true)
              (key_frame_pes sps_720p_nal) no_props track (key_frame_nals sps_720p_nal)
              scanning_world) as (track' & props' & Hrun & Hs & _).
  - reflexivity.
  - reflexivity.
  - reflexivity.
  - done.
  - by apply nals_ok_check.
  - repeat (constructor;
            [first [by (intros H; vm_compute in H) | intros _; eexists; by vm_compute]|]).
    constructor.
  - exists track', props'. split; [reflexivity|]. split; [exact Hrun|exact Hs].
Defined.

(** X26: a sequence parameter set that [readSPSHEVC] cannot read stops
    [_parseHEVCPES].  In a demuxer whose scanner state is 0, on a PES
    whose payload is a byte stream of NAL units, the first sequence
    parameter set of which makes [readSPSHEVC] throw, [_parseHEVCPES]
    throws the same exception; [track.sps] has then been set to that
    parameter set all the same. *)
Theorem parseHEVCPES_throws_on_unreadable_sps (fuel : nat) (force : JSVal) (pes : Pes)
    (props : HevcProps) (track : Track VideoSample)
    (before : list (bool * list Z)) (long : bool) (sps : list Z)
    (after : list (bool * list Z)) (e : exn) (w : World) :
  avcNaluState (this w) = Some 0 -> _videoTrack (this w) = Some track ->
  pes_data pes = nal_stream (before ++ (long, sps) :: after) ->
  Forall (fun x => nal_ok x.2) (before ++ (long, sps) :: after) ->
  Forall (fun x => nal_unit_type x.2 <> SPS) before ->
  nal_unit_type sps = SPS ->
  readSPSHEVC fuel (HEVCSpsParser_new sps) = Some (Thrown e) ->
  exists w' props',
    _parseHEVCPES fuel (Some force) (Some pes) props w = Some (w', props', Thrown e) /\
    hp_sps props' = Some [sps].
Proof.
  intros Hst Hvt Hd Hok Hbefore Htype Hread.
  rewrite (parseHEVCPES_on_stream fuel (Some force) pes props track _ w Hst Hvt Hd)
    by (done || by destruct before).
  rewrite fmap_app, fmap_cons. cbn [snd].
  rewrite scanned_units_app_cons, hevc_forEach_app.
  destruct (hevc_forEach_access_units fuel force (_duration (this w)) pes
              (map (fun n => mkNalUnit n (Some (nal_unit_type n)) None) before.*2)
              (mkHevcLocals track props [] 0 false))
    as (l1 & _ & -> & _); try done.
  { apply Forall_forall. intros u (n & -> & Hn)%list_elem_of_fmap.
    apply list_elem_of_fmap in Hn as (x & -> & Hx).
    intros [= H]%bool_decide_eq_true_1.
    by eapply Forall_forall in Hbefore. }
  assert (exists s us, scanned_units (sps :: after.*2)
                       = mkNalUnit sps (Some SPS) s :: us) as (s & us & ->).
  { cbn [scanned_units]. rewrite Htype. destruct (after.*2); by eexists _, _. }
  cbn [hevc_forEach]. unfold hevc_unit, hevc_switch. cbn [nal_type nal_data].
  rewrite (bool_decide_false (SPS ∈ hevc_key_types))
    by (intros H; by destruct (key_type_cases _ H)).
  rewrite (bool_decide_false (SPS ∈ hevc_plain_types))
    by (intros H; by destruct (plain_type_cases _ H)).
  change (SPS =? VPS) with false. change (SPS =? SPS) with true. cbn iota.
  rewrite Hread. by eexists _, _.
Qed.

Lemma parseHEVCPES_throws_on_unreadable_sps_witness :
  exists w' props',
    _parseHEVCPES 31 (Some (VBool false)) (Some (key_frame_pes sps_1080p_nal)) no_props
      scanning_world
    = Some (w', props', Thrown (TypeError "this.skipUE is not a function")) /\
    hp_sps props' = Some [sps_1080p_nal].
Proof.
  pose (track :=
          {| trk_container := Some "video/mp2t"; trk_type := "video"; trk_id := None;
             trk_streamType := Some (-1); trk_PID := Some (-1); trk_sequenceNumber := 0;
             trk_samples := []; trk_len := 0; trk_nbNalu := Some 0;
             trk_dropped := Some 0; trk_codec := None; trk_samplerate := None;
             trk_naluState := None |} : Track VideoSample).
  apply (parseHEVCPES_throws_on_unreadable_sps 31 (VBool false)
           (key_frame_pes sps_1080p_nal) no_props track
           [(true, aud_nal); (true, vps_nal)] true sps_1080p_nal
           [(true, pps_nal); (false, idr_nal); (true, aud_nal); (false, trail_nal)]).
  - reflexivity.
  - reflexivity.
  - reflexivity.
  - by apply nals_ok_check.
  - repeat (constructor; [by (intros H; vm_compute in H)|]). constructor.
  - reflexivity.
  - by vm_compute.
Defined.

(** X27: in the state that [resetInitSegment] and [push] leave, where
    [avcNaluState] is undefined, [_parseHEVCPES] never makes a sample.
    Whatever the PES, the configuration and the properties of the track,
    it ends, within any bound on the loops of [readUE], with the number
    of samples of the video track as it was and the properties
    untouched; on a track without samples, with a PES that is not null,
    it returns and changes nothing at all. *)
Theorem parseHEVCPES_without_scanner_state (fuel : nat) (config : option JSVal)
    (pes : option Pes) (props : HevcProps) (w : World) :
  avcNaluState (this w) = None ->
  exists w' r,
    _parseHEVCPES fuel config pes props w = Some (w', props, r) /\
    (length ∘ trk_samples) <$> _videoTrack (this w')
    = (length ∘ trk_samples) <$> _videoTrack (this w) /\
    (forall track p,
       _videoTrack (this w) = Some track -> trk_samples track = [] -> pes = Some p ->
       w' = w /\ r = Returned tt).
Proof.
  intros Hst. unfold _parseHEVCPES, mbind, M_bind, get_this, field, mret, M_ret, throw.
  destruct (_videoTrack (this w)) as [track|] eqn:Hvt.
  2:{ eexists _, _. split; [reflexivity|]. by rewrite Hvt. }
  destruct pes as [pes|].
  2:{ eexists _, _. split; [reflexivity|]. by rewrite Hvt. }
  rewrite (parseHEVCNALu_undefined_state _ w Hst), Hvt.
  rewrite bool_decide_true by done. unfold last_unit_of, mret, M_ret, throw.
  destruct (last (trk_samples track)) as [lastavcSample|] eqn:Hl.
  - destruct (last (vs_units lastavcSample)) as [lastUnit|] eqn:Hu.
    + unfold modify_this. cbn [hevc_forEach]. unfold pushAccesUnit. cbn [hl_units2].
      rewrite (bool_decide_true (_ = _)) by done. cbn [hl_track hl_props this host].
      eexists _, _. split; [reflexivity|]. split.
      * destruct w as [[] h]. cbn in *. subst. cbn. unfold set_last.
        rewrite length_app, length_take. cbn [length].
        f_equal. destruct trk_samples; [done|]. cbn [length]. lia.
      * intros track' p [= <-] Hs. by rewrite Hs in Hl.
    + eexists _, _. split; [reflexivity|]. rewrite Hvt. split; [done|].
      intros track' p [= <-] Hs. by rewrite Hs in Hl.
  - cbn [hevc_forEach]. unfold pushAccesUnit. cbn [hl_units2].
    rewrite (bool_decide_true (_ = _)) by done. cbn [hl_track hl_props].
    rewrite (keep_videoTrack w (Some track) Hvt).
    eexists _, _. split; [reflexivity|]. by rewrite Hvt.
Qed.

Lemma parseHEVCPES_without_scanner_state_witness :
  let w :=
    mkWorld (resetInitSegment VUndefined None None (Some 900000) (new_demuxer None)) ∅ in
  _parseHEVCPES 0 None (Some (key_frame_pes sps_720p_nal)) no_props w
  = Some (w, no_props, Returned tt).
Proof.
  intros w.
  destruct (parseHEVCPES_without_scanner_state 0 None
              (Some (key_frame_pes sps_720p_nal)) no_props w)
    as (w' & r & Hrun & _ & H).
  - reflexivity.
  - destruct (H _ _ eq_refl eq_refl eq_refl) as [-> ->]. exact Hrun.
Defined.
